(** * Storage-market deal coordination core of cpp-filecoin

    A shallow embedding of
    - [core/sector_storage/stores/impl/local_store.cpp]: [parseSectorId],
      [acquireSector], [acquireSectorWithoutLock], [moveStorage] and
      [openPath] (modules [SectorName] and [LocalStore]), [remove],
      [getFsStat] and [newLocalStore] (module [LocalStoreMore]);
    - [core/markets/storage/provider/provider.cpp]: the handlers, the
      transition table, [ensureFunds], [importDataForDeal] and
      [handleDealStream] (module [Provider]);
    - [core/markets/storage/events/events.hpp] with
      [test/core/markets/storage/events/events_test.cpp] (module [Events]);
    followed by the properties of the design document, stated over it.

    The definitions come first, the properties after them. *)

From Stdlib Require Import ZArith NArith List String Ascii Bool Lia.
From stdpp Require Import base option list gmap strings pretty.

Set Default Proof Using "Type".

(** ** [outcome::result] *)

Module Outcome.

(** [StoreErrors], the error category of the local store.  The enumerators
    are the ones [local_store.cpp] returns. *)
Inductive StoreErrors : Set :=
| FindAndAllocate
| NotFoundPath
| NotFoundStorage
| NotFoundSector
| InvalidSectorName
| InvalidStorageConfig
| DuplicateStorage
| CannotCreateDir
| CannotMoveSector
| CannotRemoveSector
| RemoveSeveralFileTypes
| CannotInitLogger.

(** [StorageMarketProviderError], as listed in the category definition at
    the end of [provider.cpp]. *)
Inductive StorageMarketProviderError : Set :=
| LOCAL_DEAL_NOT_FOUND
| PIECE_CID_DOESNT_MATCH.

(** An error code is a value of one of the categories of this code
    ([IndexError]: the category of the sector index, [IndexErrors], by its
    numeric code), or a value of a category owned by a collaborator (the JSON
    decoder, the chain API, piece I/O, ...). *)
Inductive Error : Type :=
| StoreError (e : StoreErrors)
| ProviderError (e : StorageMarketProviderError)
| IndexError (code : Z)
| TodoError
| ForeignError (category : string) (code : Z).

Inductive result (A : Type) : Type :=
| success (a : A)
| failure (e : Error).

Arguments success {A} a.
Arguments failure {A} e.

Definition has_error {A} (r : result A) : bool :=
  match r with success _ => false | failure _ => true end.

Definition has_value {A} (r : result A) : bool := negb (has_error r).

#[global] Instance StoreErrors_eq_dec : EqDecision StoreErrors.
Proof. solve_decision. Defined.

#[global] Instance ProviderError_eq_dec : EqDecision StorageMarketProviderError.
Proof. solve_decision. Defined.

#[global] Instance Error_eq_dec : EqDecision Error.
Proof. solve_decision. Defined.

End Outcome.

Import Outcome.

(** ** Sector files: [primitives/sector_file] as [local_store.cpp] uses it *)

Module SectorFile.

(** [ActorId] and [SectorNumber] are 64-bit unsigned integers. *)
Definition uint64_max : N := 18446744073709551615%N.

Record SectorId : Set := { miner : N; sector : N }.

#[global] Instance SectorId_eq_dec : EqDecision SectorId.
Proof. solve_decision. Defined.

(** [SectorFileType] is a bit mask held in a 64-bit signed enumeration. *)
Definition SectorFileType : Set := Z.

Definition FTNone : SectorFileType := 0%Z.
Definition FTUnsealed : SectorFileType := 1%Z.
Definition FTSealed : SectorFileType := 2%Z.
Definition FTCache : SectorFileType := 4%Z.

Definition kSectorFileTypes : list SectorFileType :=
  [FTUnsealed; FTSealed; FTCache].

Definition toString (type : SectorFileType) : string :=
  if (type =? FTUnsealed)%Z then "unsealed"
  else if (type =? FTSealed)%Z then "sealed"
  else if (type =? FTCache)%Z then "cache"
  else "".

(** [sectorName]: [s-t0<miner>-<sector>]. *)
Definition sectorName (s : SectorId) : string :=
  "s-t0" +:+ pretty (miner s) +:+ "-" +:+ pretty (sector s).

Record SectorPaths : Set := {
  paths_id : SectorId;
  unsealed : string;
  sealed : string;
  cache : string
}.

Definition setPathByType (type : SectorFileType) (path : string)
    (p : SectorPaths) : SectorPaths :=
  if (type =? FTUnsealed)%Z then
    {| paths_id := paths_id p; unsealed := path;
       sealed := sealed p; cache := cache p |}
  else if (type =? FTSealed)%Z then
    {| paths_id := paths_id p; unsealed := unsealed p;
       sealed := path; cache := cache p |}
  else if (type =? FTCache)%Z then
    {| paths_id := paths_id p; unsealed := unsealed p;
       sealed := sealed p; cache := path |}
  else p.

Definition getPathByType (type : SectorFileType) (p : SectorPaths)
    : result string :=
  if (type =? FTUnsealed)%Z then success (unsealed p)
  else if (type =? FTSealed)%Z then success (sealed p)
  else if (type =? FTCache)%Z then success (cache p)
  else failure (ForeignError "SectorFileTypeErrors" 1).

(** A value-initialised [SectorPaths]. *)
Definition emptyPaths : SectorPaths :=
  {| paths_id := {| miner := 0; sector := 0 |};
     unsealed := ""; sealed := ""; cache := "" |}.

(** The masks of a list are pairwise disjoint. *)
Fixpoint disjoint_bits (types : list SectorFileType) : Prop :=
  match types with
  | [] => True
  | t :: rest => Forall (fun u => Z.land u t = 0%Z) rest /\ disjoint_bits rest
  end.

End SectorFile.

Import SectorFile.

(** ** [parseSectorId] *)

Module SectorName.

Definition is_digit (c : ascii) : bool :=
  let n := N_of_ascii c in ((48 <=? n) && (n <=? 57))%N.

(** The longest prefix of decimal digits, and what follows it. *)
Fixpoint span_digits (s : string) : list ascii * string :=
  match s with
  | String c rest =>
      if is_digit c then
        let '(ds, tl) := span_digits rest in (c :: ds, tl)
      else ([], s)
  | EmptyString => ([], s)
  end.

Fixpoint strip_prefix (p s : string) : option string :=
  match p, s with
  | EmptyString, _ => Some s
  | String a p', String b s' =>
      if Ascii.eqb a b then strip_prefix p' s' else None
  | String _ _, EmptyString => None
  end.

(** [std::regex_match(filename, sm, "s-t0([0-9]+)-([0-9]+)")]: the whole
    name has to match; the result holds the two captured groups. *)
Definition regex_match (filename : string)
    : option (list ascii * list ascii) :=
  match strip_prefix "s-t0" filename with
  | None => None
  | Some rest =>
      match span_digits rest with
      | ([], _) => None
      | (sm1, String "-" rest') =>
          match span_digits rest' with
          | ([], _) => None
          | (sm2, EmptyString) => Some (sm1, sm2)
          | (_, String _ _) => None
          end
      | (_, _) => None
      end
  end.

Definition digit_value (c : ascii) : N := (N_of_ascii c - 48)%N.

Definition decimal_value (ds : list ascii) : N :=
  fold_left (fun acc c => (10 * acc + digit_value c)%N) ds 0%N.

(** [boost::lexical_cast<uint64_t>] on a run of digits: the value, or
    [bad_lexical_cast] when it does not fit 64 bits. *)
Definition lexical_cast (ds : list ascii) : option N :=
  let v := decimal_value ds in
  if (v <=? uint64_max)%N then Some v else None.

Definition parseSectorId (filename : string) : result SectorId :=
  match regex_match filename with
  | Some (sm1, sm2) =>
      match lexical_cast sm1, lexical_cast sm2 with
      | Some miner, Some sector =>
          success {| miner := miner; sector := sector |}
      | _, _ => failure (StoreError InvalidSectorName)
      end
  | None => failure (StoreError InvalidSectorName)
  end.

End SectorName.

Import SectorName.

(** ** The sector index, as the local store sees it *)

Module Index.

Definition StorageID : Set := string.

Record StorageInfo : Set := {
  id : StorageID;
  urls : list string;
  weight : N;
  can_seal : bool;
  can_store : bool
}.

Record FsStat : Set := { capacity : N; available : N; used : N }.

Record LocalStorageMeta : Set := {
  meta_id : StorageID;
  meta_weight : N;
  meta_can_seal : bool;
  meta_can_store : bool
}.

(** Registered proofs select the sealing algorithm and the sector size. *)
Inductive RegisteredProof : Set :=
| StackedDRG2KiBSeal
| StackedDRG8MiBSeal
| StackedDRG512MiBSeal
| StackedDRG32GiBSeal.

(** What a call on the index returns: a value, or an error of the index's
    own category. *)
Inductive index_result (A : Type) : Type :=
| index_ok (a : A)
| index_error (code : Z).

Arguments index_ok {A} a.
Arguments index_error {A} code.

Definition from_index {A} (r : index_result A) : result A :=
  match r with
  | index_ok a => success a
  | index_error code => failure (IndexError code)
  end.

(** [SectorIndex] is an interface: the local store holds a pointer to some
    implementation of it.  The three updates change the index; the three
    queries read it. *)
Class SectorIndex (I : Type) : Type := {
  storageAttach : StorageInfo -> FsStat -> I -> index_result unit * I;
  storageDeclareSector :
    StorageID -> SectorId -> SectorFileType -> I -> index_result unit * I;
  storageDropSector :
    StorageID -> SectorId -> SectorFileType -> I -> index_result unit * I;
  storageFindSector :
    SectorId -> SectorFileType -> bool -> I -> index_result (list StorageInfo);
  storageBestAlloc :
    SectorFileType -> RegisteredProof -> bool -> I
    -> index_result (list StorageInfo);
  getStorageInfo : StorageID -> I -> index_result StorageInfo
}.

(** The calls made on the index, in order: a record kept beside the model
    so that "no lookup was made" can be stated. *)
Inductive IndexCall : Set :=
| CallAttach (storage : StorageID)
| CallDeclare (storage : StorageID) (s : SectorId) (type : SectorFileType)
| CallDrop (storage : StorageID) (s : SectorId) (type : SectorFileType)
| CallFind (s : SectorId) (type : SectorFileType)
| CallBestAlloc (type : SectorFileType)
| CallGetInfo (storage : StorageID).

End Index.

Import Index.

(** ** The disk under the store *)

Module Disk.

(** What reading and decoding [<root>/<MetaFile>] gives. *)
Inductive MetaFile : Type :=
| MetaUnparsable
| MetaUndecodable (e : Error)
| MetaOk (meta : LocalStorageMeta).

(** [meta_files]: storage root to the content of its metadata file (no
    entry: the file cannot be opened).  [dirs]: every existing directory to
    the file names in it, in the order a [directory_iterator] yields them.
    [stats]: what [LocalStorage::getStat] answers for a path. *)
Record t : Type := {
  meta_files : gmap string MetaFile;
  dirs : gmap string (list string);
  stats : gmap string FsStat
}.

Definition is_separator (c : ascii) : bool := Ascii.eqb c "/".

Fixpoint ends_with_separator (s : string) : bool :=
  match s with
  | EmptyString => false
  | String c EmptyString => is_separator c
  | String _ rest => ends_with_separator rest
  end.

(** [a /= b] on [boost::filesystem::path]: nothing is appended for an empty
    [b]; otherwise [b] is appended, after a separator when [a] is not empty,
    does not end with a separator already, and [b] does not start with
    one. *)
Definition join (a b : string) : string :=
  match b with
  | EmptyString => a
  | String c _ =>
      if bool_decide (a = "") || ends_with_separator a || is_separator c
      then a +:+ b
      else a +:+ "/" +:+ b
  end.

Definition exists_ (dir_path : string) (d : t) : bool :=
  bool_decide (is_Some (dirs d !! dir_path)).

(** [create_directories] answers [true] when it created the directory and
    [false] when the directory was already there. *)
Definition create_directories (dir_path : string) (d : t) : bool * t :=
  if exists_ dir_path d then (false, d)
  else (true, {| meta_files := meta_files d;
                 dirs := <[dir_path := []]> (dirs d);
                 stats := stats d |}).

Definition directory_entries (dir_path : string) (d : t) : list string :=
  default [] (dirs d !! dir_path).

(** Splits a path at its last separator. *)
Fixpoint split_path (p : string) : option (string * string) :=
  match p with
  | EmptyString => None
  | String c rest =>
      match split_path rest with
      | Some (dir, name) => Some (String c dir, name)
      | None => if Ascii.eqb c "/" then Some (EmptyString, rest) else None
      end
  end.

(** [rename(from, to, ec)], which is [rename(2)]: the entry moves from its
    directory to the target directory under the target's name, where it
    replaces an entry of that name; a directory takes its listing along.  The
    call fails, changing nothing, when the source entry or the directory of
    the target does not exist, when the target is a directory that is not
    empty, and when one of source and target is a directory and the other,
    existing, is not.  Renaming an entry to itself does nothing.  The result
    is [ec.failed()].  Directories below a moved directory are not followed:
    the directory of a sector holds files only. *)
Definition rename (from to : string) (d : t) : bool * t :=
  match split_path from, split_path to with
  | Some (fdir, fname), Some (tdir, tname) =>
      match dirs d !! fdir, dirs d !! tdir with
      | Some fents, Some tents =>
          if negb (bool_decide (fname ∈ fents)) then (true, d)
          else if bool_decide (from = to) then (false, d)
          else
            let replaceable :=
              match dirs d !! from, dirs d !! to with
              | Some _, Some listing => bool_decide (listing = [])
              | Some _, None => negb (bool_decide (tname ∈ tents))
              | None, Some _ => false
              | None, None => true
              end in
            if negb replaceable then (true, d)
            else
              let removed :=
                <[fdir := filter (fun n => n <> fname) fents]> (dirs d) in
              let tents' := default [] (removed !! tdir) in
              let moved :=
                <[tdir := filter (fun n => n <> tname) tents' ++ [tname]]>
                  removed in
              (false,
               {| meta_files := meta_files d;
                  dirs :=
                    match dirs d !! from with
                    | Some listing => <[to := listing]> (delete from moved)
                    | None => moved
                    end;
                  stats := stats d |})
      | _, _ => (true, d)
      end
  | _, _ => (true, d)
  end.

Definition getStat (path : string) (d : t) : result FsStat :=
  match stats d !! path with
  | Some st => success st
  | None => failure (ForeignError "LocalStorage" 1)
  end.

End Disk.

(** ** [LocalStore] *)

Module LocalStore.

Inductive LogLevel : Set := Info | Warn | Err.

Record AcquireSectorResponse : Set := {
  paths : SectorPaths;
  stores : SectorPaths
}.

Section Store.

Context {I : Type} {index_impl : SectorIndex I}.

(** The members of [LocalStore] ([index_], [paths_], [urls_], [logger_]), the
    disk it works on, and the record of the calls made on the index. *)
Record State : Type := {
  index_ : I;
  paths_ : gmap StorageID string;
  urls_ : list string;
  disk : Disk.t;
  logger_ : list (LogLevel * string);
  calls : list IndexCall
}.

Definition set_index (i : I) (st : State) : State :=
  {| index_ := i; paths_ := paths_ st; urls_ := urls_ st; disk := disk st;
     logger_ := logger_ st; calls := calls st |}.

Definition set_paths (p : gmap StorageID string) (st : State) : State :=
  {| index_ := index_ st; paths_ := p; urls_ := urls_ st; disk := disk st;
     logger_ := logger_ st; calls := calls st |}.

Definition set_disk (d : Disk.t) (st : State) : State :=
  {| index_ := index_ st; paths_ := paths_ st; urls_ := urls_ st; disk := d;
     logger_ := logger_ st; calls := calls st |}.

Definition log (level : LogLevel) (text : string) (st : State) : State :=
  {| index_ := index_ st; paths_ := paths_ st; urls_ := urls_ st;
     disk := disk st; logger_ := logger_ st ++ [(level, text)];
     calls := calls st |}.

Definition called (c : IndexCall) (st : State) : State :=
  {| index_ := index_ st; paths_ := paths_ st; urls_ := urls_ st;
     disk := disk st; logger_ := logger_ st; calls := calls st ++ [c] |}.

(** A member function returning [outcome::result<A>]: it may change the
    state whether it succeeds or not. *)
Definition M (A : Type) : Type := State -> result A * State.

Definition ret {A} (a : A) : M A := fun st => (success a, st).

Definition fail {A} (e : Error) : M A := fun st => (failure e, st).

Definition lift {A} (r : result A) : M A := fun st => (r, st).

(** [OUTCOME_TRY(x, c); k]: an error of [c] is returned at once, with the
    state as [c] left it. *)
Definition bind {A B} (c : M A) (k : A -> M B) : M B :=
  fun st =>
    match c st with
    | (success a, st') => k a st'
    | (failure e, st') => (failure e, st')
    end.

Notation "'TRY' x <- c 'IN' k" := (bind c (fun x => k))
  (at level 10, x name, c at level 100, k at level 200).

Notation "'TRY_' c 'IN' k" := (bind c (fun _ => k))
  (at level 10, c at level 100, k at level 200).

Fixpoint for_each {A} (body : A -> M unit) (l : list A) : M unit :=
  match l with
  | [] => ret tt
  | x :: rest => TRY_ body x IN for_each body rest
  end.

(** *** Calls on [index_] *)

Definition index_attach (info : StorageInfo) (stat : FsStat) : M unit :=
  fun st =>
    let '(r, i) := storageAttach info stat (index_ st) in
    (from_index r, set_index i (called (CallAttach (id info)) st)).

Definition index_declare (storage : StorageID) (sector : SectorId)
    (type : SectorFileType) : M unit :=
  fun st =>
    let '(r, i) := storageDeclareSector storage sector type (index_ st) in
    (from_index r, set_index i (called (CallDeclare storage sector type) st)).

Definition index_drop (storage : StorageID) (sector : SectorId)
    (type : SectorFileType) : M unit :=
  fun st =>
    let '(r, i) := storageDropSector storage sector type (index_ st) in
    (from_index r, set_index i (called (CallDrop storage sector type) st)).

Definition index_find (sector : SectorId) (type : SectorFileType)
    (allow_fetch : bool) : M (list StorageInfo) :=
  fun st =>
    (from_index (storageFindSector sector type allow_fetch (index_ st)),
     called (CallFind sector type) st).

Definition index_best_alloc (type : SectorFileType)
    (seal_proof_type : RegisteredProof) (can_seal : bool)
    : M (list StorageInfo) :=
  fun st =>
    (from_index (storageBestAlloc type seal_proof_type can_seal (index_ st)),
     called (CallBestAlloc type) st).

Definition index_get_info (storage : StorageID) : M StorageInfo :=
  fun st =>
    (from_index (getStorageInfo storage (index_ st)),
     called (CallGetInfo storage) st).

(** *** [acquireSector] *)

(** [root / toString(type) / sectorName(sector)] *)
Definition sector_path (root : string) (type : SectorFileType)
    (sector : SectorId) : string :=
  Disk.join (Disk.join root (toString type)) (sectorName sector).

(** The inner loop of both halves of [acquireSectorWithoutLock]: the first
    storage of the list that is registered in [paths_] with a path that is
    not empty. *)
Fixpoint first_local (registry : gmap StorageID string)
    (infos : list StorageInfo) : option (StorageInfo * string) :=
  match infos with
  | [] => None
  | info :: rest =>
      match registry !! id info with
      | None => first_local registry rest
      | Some store_path =>
          if bool_decide (store_path = "") then first_local registry rest
          else Some (info, store_path)
      end
  end.

Definition emptyResponse : AcquireSectorResponse :=
  {| paths := emptyPaths; stores := emptyPaths |}.

Definition set_response (type : SectorFileType) (path : string)
    (storage : StorageID) (r : AcquireSectorResponse)
    : AcquireSectorResponse :=
  {| paths := setPathByType type path (paths r);
     stores := setPathByType type storage (stores r) |}.

(** First loop: the files that should exist.  An index error is logged and
    the type skipped; so is a type that no local storage holds. *)
Fixpoint acquire_existing (types : list SectorFileType) (sector : SectorId)
    (existing : SectorFileType) (result : AcquireSectorResponse)
    (st : State) : AcquireSectorResponse * SectorFileType * State :=
  match types with
  | [] => (result, existing, st)
  | type :: rest =>
      if (Z.land type existing =? 0)%Z then
        acquire_existing rest sector existing result st
      else
        match index_find sector type false st with
        | (failure e, st1) =>
            acquire_existing rest sector existing result
              (log Warn "Finding existing sector" st1)
        | (success sectors_info, st1) =>
            match first_local (paths_ st1) sectors_info with
            | Some (info, store_path) =>
                acquire_existing rest sector (Z.lxor existing type)
                  (set_response type (sector_path store_path type sector)
                     (id info) result)
                  st1
            | None => acquire_existing rest sector existing result st1
            end
        end
  end.

(** Second loop: the files to allocate. *)
Fixpoint acquire_allocate (types : list SectorFileType) (sector : SectorId)
    (seal_proof_type : RegisteredProof) (can_seal : bool)
    (allocate : SectorFileType) (result : AcquireSectorResponse)
    : M AcquireSectorResponse :=
  match types with
  | [] => ret result
  | type :: rest =>
      if (Z.land type allocate =? 0)%Z then
        acquire_allocate rest sector seal_proof_type can_seal allocate result
      else
        TRY sectors_info <- index_best_alloc type seal_proof_type can_seal IN
        fun st =>
          let '(best_path, best_storage) :=
            match first_local (paths_ st) sectors_info with
            | Some (info, store_path) =>
                (sector_path store_path type sector, id info)
            | None => (EmptyString, EmptyString)
            end in
          if bool_decide (best_path = "") then
            (failure (StoreError NotFoundPath), st)
          else
            acquire_allocate rest sector seal_proof_type can_seal
              (Z.lxor allocate type)
              (set_response type best_path best_storage result) st
  end.

Definition acquireSectorWithoutLock (sector : SectorId)
    (seal_proof_type : RegisteredProof) (existing allocate : SectorFileType)
    (can_seal : bool) : M AcquireSectorResponse :=
  fun st =>
    let '(result, _, st1) :=
      acquire_existing kSectorFileTypes sector existing emptyResponse st in
    acquire_allocate kSectorFileTypes sector seal_proof_type can_seal
      allocate result st1.

Definition acquireSector (sector : SectorId)
    (seal_proof_type : RegisteredProof) (existing allocate : SectorFileType)
    (can_seal : bool) : M AcquireSectorResponse :=
  if negb (Z.lor existing allocate =? Z.lxor existing allocate)%Z then
    fail (StoreError FindAndAllocate)
  else
    acquireSectorWithoutLock sector seal_proof_type existing allocate can_seal.

(** *** [moveStorage] *)

(** [boost::filesystem::rename(source_path, dest_path, ec)] followed by the
    test of [ec]. *)
Definition fs_rename (source_path dest_path : string) : M unit :=
  fun st =>
    let '(ec_failed, d) := Disk.rename source_path dest_path (disk st) in
    if ec_failed then (failure (StoreError CannotMoveSector), set_disk d st)
    else (success tt, set_disk d st).

(** The body of the loop of [moveStorage], for one file type. *)
Definition move_type (sector : SectorId) (types : SectorFileType)
    (src dest : AcquireSectorResponse) (type : SectorFileType) : M unit :=
  if (Z.land types type =? 0)%Z then ret tt
  else
    TRY source_storage_id <- lift (getPathByType type (stores src)) IN
    TRY sst <- index_get_info source_storage_id IN
    TRY dest_storage_id <- lift (getPathByType type (stores dest)) IN
    TRY dst <- index_get_info dest_storage_id IN
    if bool_decide (id sst = id dst) then ret tt
    else if can_store sst then ret tt
    else
      TRY_ index_drop source_storage_id sector type IN
      TRY source_path <- lift (getPathByType type (paths src)) IN
      TRY dest_path <- lift (getPathByType type (paths dest)) IN
      TRY_ fs_rename source_path dest_path IN
      index_declare dest_storage_id sector type.

Definition moveStorage (sector : SectorId)
    (seal_proof_type : RegisteredProof) (types : SectorFileType) : M unit :=
  TRY dest <-
    acquireSectorWithoutLock sector seal_proof_type FTNone types false IN
  TRY src <-
    acquireSectorWithoutLock sector seal_proof_type types FTNone false IN
  for_each (move_type sector types src dest) kSectorFileTypes.

(** *** [openPath] *)

(** The body of the [while] loop over a directory: one entry. *)
Definition declare_entry (storage : StorageID) (type : SectorFileType)
    (filename : string) : M unit :=
  TRY sector <- lift (parseSectorId filename) IN
  index_declare storage sector type.

(** The body of the loop over [kSectorFileTypes]. *)
Definition scan_type (root : string) (storage : StorageID)
    (type : SectorFileType) : M unit :=
  fun st =>
    let dir_path := Disk.join root (toString type) in
    if negb (Disk.exists_ dir_path (disk st)) then
      let '(created, d) := Disk.create_directories dir_path (disk st) in
      if negb created then
        (failure (StoreError CannotCreateDir), set_disk d st)
      else (success tt, set_disk d st)
    else
      for_each (declare_entry storage type)
        (Disk.directory_entries dir_path (disk st)) st.

Definition openPath (path : string) : M unit :=
  fun st =>
    match Disk.meta_files (disk st) !! path with
    | None => (failure (StoreError InvalidStorageConfig), st)
    | Some Disk.MetaUnparsable =>
        (failure (StoreError InvalidStorageConfig), st)
    | Some (Disk.MetaUndecodable e) => (failure e, st)
    | Some (Disk.MetaOk meta) =>
        if bool_decide (is_Some (paths_ st !! meta_id meta)) then
          (failure (StoreError DuplicateStorage), st)
        else
          (TRY stat <- lift (Disk.getStat path (disk st)) IN
           TRY_ index_attach
                  {| id := meta_id meta;
                     urls := urls_ st;
                     weight := meta_weight meta;
                     can_seal := meta_can_seal meta;
                     can_store := meta_can_store meta |} stat IN
           TRY_ for_each (scan_type path (meta_id meta)) kSectorFileTypes IN
           fun st' =>
             (success tt, set_paths (<[meta_id meta := path]> (paths_ st')) st'))
            st
    end.


(** *** What the properties below speak of *)

Implicit Types (st : State) (sector : SectorId) (type : SectorFileType).

(** What the acquisition reads: the index and the path registry. *)
Definition same_store st st' : Prop :=
  index_ st' = index_ st /\ paths_ st' = paths_ st /\ disk st' = disk st
  /\ urls_ st' = urls_ st.

(** A storage that is registered here, in [paths_], with a path that is not
    empty. *)
Definition registered_at (registry : gmap StorageID string)
    (info : StorageInfo) (root : string) : Prop :=
  registry !! id info = Some root /\ root <> "".

(** [info] is the first storage of the list that is registered here: it is
    in the list, registered, and no storage before it in the list is. *)
Definition first_registered (registry : gmap StorageID string)
    (infos : list StorageInfo) (info : StorageInfo) (root : string) : Prop :=
  exists before after,
    infos = before ++ info :: after
    /\ registered_at registry info root
    /\ forall other r, other ∈ before -> ~ registered_at registry other r.

(** The index lists, for the file, a storage that is registered here. *)
Definition stored_here sector type st : Prop :=
  exists infos info root,
    storageFindSector sector type false (index_ st) = index_ok infos
    /\ info ∈ infos /\ registered_at (paths_ st) info root.

(** The index's candidates for the file include a storage that is registered
    here. *)
Definition room_here (proof : RegisteredProof) (can_seal : bool) type st
    : Prop :=
  exists infos info root,
    storageBestAlloc type proof can_seal (index_ st) = index_ok infos
    /\ info ∈ infos /\ registered_at (paths_ st) info root.

(** The same two conditions, as the loops of [acquireSectorWithoutLock]
    compute them. *)
Definition held_locally sector type st : Prop :=
  exists infos info store_path,
    storageFindSector sector type false (index_ st) = index_ok infos
    /\ first_local (paths_ st) infos = Some (info, store_path).

Definition allocatable (proof : RegisteredProof) (can_seal : bool) type st
    : Prop :=
  exists infos info store_path,
    storageBestAlloc type proof can_seal (index_ st) = index_ok infos
    /\ first_local (paths_ st) infos = Some (info, store_path).

(** What [acquireSector] answers when the masks are disjoint. *)
Definition lenient_on_existing sector (proof : RegisteredProof)
    (existing allocate : SectorFileType) (can_seal : bool) st : Prop :=
  let out := (acquireSector sector proof existing allocate can_seal st).1 in
  (* it succeeds exactly when every bit of [allocate] can be satisfied,
     whatever [existing] asks for *)
  (has_value out = true <->
   forall type, type ∈ kSectorFileTypes -> Z.land type allocate <> 0%Z ->
                room_here proof can_seal type st)
  (* a failure comes from a bit of [allocate]: [NotFoundPath] when none of
     the candidates is registered here, the error of the index when the
     index gave no candidates *)
  /\ (forall e, out = failure e ->
        exists type,
          type ∈ kSectorFileTypes /\ Z.land type allocate <> 0%Z
          /\ ((e = StoreError NotFoundPath
               /\ exists infos,
                    storageBestAlloc type proof can_seal (index_ st)
                    = index_ok infos
                    /\ forall info root,
                         info ∈ infos ->
                         ~ registered_at (paths_ st) info root)
              \/ exists code,
                   storageBestAlloc type proof can_seal (index_ st)
                   = index_error code
                   /\ e = IndexError code))
  (* an existing file that no storage registered here holds gets no path *)
  /\ (forall type resp,
        type ∈ kSectorFileTypes -> Z.land type existing <> 0%Z ->
        ~ stored_here sector type st ->
        out = success resp ->
        getPathByType type (paths resp) = success EmptyString
        /\ getPathByType type (stores resp) = success EmptyString).

(** What a scan leaves alone: the path registry, the metadata files and
    every directory that exists. *)
Definition scan_frame st st' : Prop :=
  paths_ st' = paths_ st
  /\ urls_ st' = urls_ st
  /\ Disk.meta_files (disk st') = Disk.meta_files (disk st)
  /\ forall dir entries,
       Disk.dirs (disk st) !! dir = Some entries ->
       Disk.dirs (disk st') !! dir = Some entries.

(** An index that refuses no attachment and no declaration, on a disk that
    answers [getStat] for the path. *)
Definition accepting (path : string) st : Prop :=
  is_Some (Disk.stats (disk st) !! path)
  /\ (forall info stat i, (storageAttach info stat i).1 = index_ok tt)
  /\ (forall storage sector type i,
        (storageDeclareSector storage sector type i).1 = index_ok tt).

End Store.

Arguments State I : clear implicits.

Notation "'TRY' x <- c 'IN' k" := (bind c (fun x => k))
  (at level 10, x name, c at level 100, k at level 200).

Notation "'TRY_' c 'IN' k" := (bind c (fun _ => k))
  (at level 10, c at level 100, k at level 200).

End LocalStore.

(** ** An index to run the store on *)

Module IndexImpl.

(** Modelled from the spec: the in-memory sector index behind the
    [SectorIndex] interface (its implementation file is not among the
    sources).  The design document gives: [storageAttach] registers a storage
    with its capacity, [storageDeclareSector] records presence,
    [storageDropSector] removes the record, [storageFindSector] lists every
    storage holding the file sorted by weight, [storageBestAlloc] lists the
    candidates best weight first, filtered by the [can_seal] flag and by free
    space for the proof type, and [getStorageInfo] looks a storage up. *)
Record t : Set := {
  storages : list (StorageInfo * FsStat);
  declared : list (StorageID * SectorId * SectorFileType)
}.

Definition empty : t := {| storages := []; declared := [] |}.

Definition sector_size (p : RegisteredProof) : N :=
  match p with
  | StackedDRG2KiBSeal => 2048
  | StackedDRG8MiBSeal => 8388608
  | StackedDRG512MiBSeal => 536870912
  | StackedDRG32GiBSeal => 34359738368
  end%N.

Fixpoint insert_by_weight (x : StorageInfo) (l : list StorageInfo)
    : list StorageInfo :=
  match l with
  | [] => [x]
  | y :: rest =>
      if (weight y <? weight x)%N then x :: l
      else y :: insert_by_weight x rest
  end.

Definition sort_by_weight (l : list StorageInfo) : list StorageInfo :=
  foldr insert_by_weight [] l.

Definition attach (info : StorageInfo) (stat : FsStat) (i : t)
    : index_result unit * t :=
  (index_ok tt,
   {| storages :=
        filter (fun e => id (fst e) <> id info) (storages i) ++ [(info, stat)];
      declared := declared i |}).

Definition declare (storage : StorageID) (sector : SectorId)
    (type : SectorFileType) (i : t) : index_result unit * t :=
  (index_ok tt,
   {| storages := storages i;
      declared :=
        if bool_decide ((storage, sector, type) ∈ declared i) then declared i
        else declared i ++ [(storage, sector, type)] |}).

Definition drop (storage : StorageID) (sector : SectorId)
    (type : SectorFileType) (i : t) : index_result unit * t :=
  (index_ok tt,
   {| storages := storages i;
      declared :=
        filter (fun e => e <> (storage, sector, type)) (declared i) |}).

Definition find (sector : SectorId) (type : SectorFileType)
    (allow_fetch : bool) (i : t) : index_result (list StorageInfo) :=
  index_ok
    (sort_by_weight
       (filter (fun info => (id info, sector, type) ∈ declared i)
          (fst <$> storages i))).

Definition best_alloc (type : SectorFileType) (p : RegisteredProof)
    (sealing : bool) (i : t) : index_result (list StorageInfo) :=
  index_ok
    (sort_by_weight
       (fst <$>
          filter
            (fun e =>
               (if sealing then can_seal (fst e) else can_store (fst e)) = true
               /\ (sector_size p <= available (snd e))%N)
            (storages i))).

Definition get_info (storage : StorageID) (i : t)
    : index_result StorageInfo :=
  match filter (fun e => id (fst e) = storage) (storages i) with
  | e :: _ => index_ok (fst e)
  | [] => index_error 1
  end.

#[global] Instance index : SectorIndex t := {
  storageAttach := attach;
  storageDeclareSector := declare;
  storageDropSector := drop;
  storageFindSector := find;
  storageBestAlloc := best_alloc;
  getStorageInfo := get_info
}.

(** Whether the index holds a declaration of the file for the storage. *)
Definition holds (storage : StorageID) (sector : SectorId)
    (type : SectorFileType) (i : t) : bool :=
  bool_decide ((storage, sector, type) ∈ declared i).

End IndexImpl.


(** ** The storage-market deal records *)

Module Market.

Definition CID : Set := string.
Definition Address : Set := N.
Definition TokenAmount : Set := Z.
Definition ChainEpoch : Set := Z.
Definition DealId : Set := N.
Definition SectorNumber : Set := N.
Definition PaddedPieceSize : Set := N.
Definition UnpaddedPieceSize : Set := N.
Definition Buffer : Set := list Byte.byte.
Definition PeerInfo : Set := string.
Definition TipsetKey : Set := list CID.

Module DealProposal.
Record t : Set := {
  piece_cid : CID;
  piece_size : PaddedPieceSize;
  verified : bool;
  client : Address;
  provider : Address;
  start_epoch : ChainEpoch;
  end_epoch : ChainEpoch;
  storage_price_per_epoch : TokenAmount;
  provider_collateral : TokenAmount;
  client_collateral : TokenAmount
}.
End DealProposal.

Module ClientDealProposal.
Record t : Set := {
  proposal : DealProposal.t;
  client_signature : list Byte.byte
}.
End ClientDealProposal.

Definition kTransferTypeManual : string := "manual".
Definition kTransferTypeGraphsync : string := "graphsync".

Module DataRef.
Record t : Set := {
  transfer_type : string;
  root : option CID;
  piece_cid : option CID
}.
End DataRef.

(** The message a client sends on a deal stream. *)
Module Proposal.
Record t : Set := {
  deal_proposal : ClientDealProposal.t;
  piece : DataRef.t
}.
End Proposal.

(** Modelled from the spec: the enumeration [StorageDealStatus], whose
    declaration is not among the sources; the states are the shared state
    set of the design document. *)
Inductive StorageDealStatus : Set :=
| STORAGE_DEAL_UNKNOWN
| STORAGE_DEAL_PROPOSAL_ACCEPTED
| STORAGE_DEAL_VALIDATING
| STORAGE_DEAL_ACCEPT_WAIT
| STORAGE_DEAL_START_DATA_TRANSFER
| STORAGE_DEAL_TRANSFERRING
| STORAGE_DEAL_WAITING_FOR_DATA
| STORAGE_DEAL_VERIFY_DATA
| STORAGE_DEAL_ENSURE_PROVIDER_FUNDS
| STORAGE_DEAL_PROVIDER_FUNDING
| STORAGE_DEAL_CLIENT_FUNDING
| STORAGE_DEAL_ENSURE_CLIENT_FUNDS
| STORAGE_DEAL_PUBLISH
| STORAGE_DEAL_PUBLISHING
| STORAGE_DEAL_STAGED
| STORAGE_DEAL_SEALING
| STORAGE_DEAL_FINALIZING
| STORAGE_DEAL_ACTIVE
| STORAGE_DEAL_EXPIRED
| STORAGE_DEAL_COMPLETED
| STORAGE_DEAL_FAILING
| STORAGE_DEAL_ERROR
| STORAGE_DEAL_SLASHED
| STORAGE_DEAL_REJECTING
| STORAGE_DEAL_REJECTED.

#[global] Instance StorageDealStatus_eq_dec : EqDecision StorageDealStatus.
Proof. solve_decision. Defined.

Definition all_states : list StorageDealStatus :=
  [STORAGE_DEAL_UNKNOWN; STORAGE_DEAL_PROPOSAL_ACCEPTED;
   STORAGE_DEAL_VALIDATING; STORAGE_DEAL_ACCEPT_WAIT;
   STORAGE_DEAL_START_DATA_TRANSFER; STORAGE_DEAL_TRANSFERRING;
   STORAGE_DEAL_WAITING_FOR_DATA; STORAGE_DEAL_VERIFY_DATA;
   STORAGE_DEAL_ENSURE_PROVIDER_FUNDS; STORAGE_DEAL_PROVIDER_FUNDING;
   STORAGE_DEAL_CLIENT_FUNDING; STORAGE_DEAL_ENSURE_CLIENT_FUNDS;
   STORAGE_DEAL_PUBLISH; STORAGE_DEAL_PUBLISHING; STORAGE_DEAL_STAGED;
   STORAGE_DEAL_SEALING; STORAGE_DEAL_FINALIZING; STORAGE_DEAL_ACTIVE;
   STORAGE_DEAL_EXPIRED; STORAGE_DEAL_COMPLETED; STORAGE_DEAL_FAILING;
   STORAGE_DEAL_ERROR; STORAGE_DEAL_SLASHED; STORAGE_DEAL_REJECTING;
   STORAGE_DEAL_REJECTED].

(** Modelled from the spec: the terminal states, "completed, error,
    expired, slashed, rejected". *)
Definition is_terminal (s : StorageDealStatus) : bool :=
  match s with
  | STORAGE_DEAL_COMPLETED | STORAGE_DEAL_ERROR | STORAGE_DEAL_EXPIRED
  | STORAGE_DEAL_SLASHED | STORAGE_DEAL_REJECTED => true
  | _ => false
  end.

(** The events [provider.cpp] names: those of the transition table and the
    two that only have a handler. *)
Inductive ProviderEvent : Set :=
| ProviderEventOpen
| ProviderEventNodeErrored
| ProviderEventDealRejected
| ProviderEventDealAccepted
| ProviderEventWaitingForManualData
| ProviderEventInsufficientFunds
| ProviderEventFundingInitiated
| ProviderEventFunded
| ProviderEventDataTransferFailed
| ProviderEventDataTransferInitiated
| ProviderEventDataTransferCompleted
| ProviderEventManualDataReceived
| ProviderEventGeneratePieceCIDFailed
| ProviderEventVerifiedData
| ProviderEventSendResponseFailed
| ProviderEventDealPublishInitiated
| ProviderEventDealPublished
| ProviderEventDealPublishError
| ProviderEventFileStoreErrored
| ProviderEventDealHandoffFailed
| ProviderEventDealHandedOff
| ProviderEventDealActivationFailed
| ProviderEventUnableToLocatePiece
| ProviderEventDealActivated
| ProviderEventPieceStoreErrored
| ProviderEventReadMetadataErrored
| ProviderEventDealCompleted
| ProviderEventFailed.

#[global] Instance ProviderEvent_eq_dec : EqDecision ProviderEvent.
Proof. solve_decision. Defined.

(** The record [handleDealStream] builds for an inbound proposal. *)
Module MinerDeal.
Record t : Set := {
  client_deal_proposal : ClientDealProposal.t;
  proposal_cid : CID;
  add_funds_cid : option CID;
  miner : PeerInfo;
  client : PeerInfo;
  state : StorageDealStatus;
  piece_path : string;
  metadata_path : string;
  connection_closed : bool;
  message : string;
  ref : DataRef.t;
  deal_id : DealId
}.

Definition set_state (s : StorageDealStatus) (d : t) : t :=
  {| client_deal_proposal := client_deal_proposal d;
     proposal_cid := proposal_cid d;
     add_funds_cid := add_funds_cid d;
     miner := miner d; client := client d;
     state := s;
     piece_path := piece_path d; metadata_path := metadata_path d;
     connection_closed := connection_closed d; message := message d;
     ref := ref d; deal_id := deal_id d |}.

Definition set_add_funds_cid (c : option CID) (d : t) : t :=
  {| client_deal_proposal := client_deal_proposal d;
     proposal_cid := proposal_cid d;
     add_funds_cid := c;
     miner := miner d; client := client d;
     state := state d;
     piece_path := piece_path d; metadata_path := metadata_path d;
     connection_closed := connection_closed d; message := message d;
     ref := ref d; deal_id := deal_id d |}.
End MinerDeal.

(** The collaborators of the provider: the calls of the chain API that
    [ensureFunds] makes, piece I/O, and the CID of a proposal. *)
Record Api : Type := {
  ChainHead : result (list CID);
  makeKey : list CID -> result TipsetKey;
  StateMinerInfo : Address -> TipsetKey -> result Address;
  MarketEnsureAvailable :
    Address -> Address -> TokenAmount -> TipsetKey -> result (option CID)
}.

Record PieceIO : Type := {
  generatePieceCommitment :
    RegisteredProof -> Buffer -> result (CID * UnpaddedPieceSize)
}.

End Market.

Import Market.

(** ** [StorageProviderImpl] and its deal FSM *)

Module Provider.

(** The provider: [local_deals_] holds the deal records, shared with the
    FSM, which refers to a deal by its proposal CID.  Of the FSM it keeps the
    state of every deal it tracks and the queue of the events sent and not
    dispatched yet.  [entered] lists the states the FSM moved deals to, in
    order. *)
Record t : Type := {
  local_deals_ : gmap CID MinerDeal.t;
  fsm_states : gmap CID StorageDealStatus;
  fsm_queue : list (CID * ProviderEvent);
  logger_ : list string;
  entered : list (CID * StorageDealStatus)
}.

Definition empty : t :=
  {| local_deals_ := ∅; fsm_states := ∅; fsm_queue := []; logger_ := [];
     entered := [] |}.

Definition set_deals (m : gmap CID MinerDeal.t) (p : t) : t :=
  {| local_deals_ := m; fsm_states := fsm_states p;
     fsm_queue := fsm_queue p; logger_ := logger_ p; entered := entered p |}.

Definition set_queue (q : list (CID * ProviderEvent)) (p : t) : t :=
  {| local_deals_ := local_deals_ p; fsm_states := fsm_states p;
     fsm_queue := q; logger_ := logger_ p; entered := entered p |}.

Definition debug (text : string) (p : t) : t :=
  {| local_deals_ := local_deals_ p; fsm_states := fsm_states p;
     fsm_queue := fsm_queue p; logger_ := logger_ p ++ [text];
     entered := entered p |}.

(** The FSM records the new state of a deal. *)
Definition enter (deal : CID) (s : StorageDealStatus) (p : t) : t :=
  {| local_deals_ := local_deals_ p;
     fsm_states := <[deal := s]> (fsm_states p);
     fsm_queue := fsm_queue p; logger_ := logger_ p;
     entered := entered p ++ [(deal, s)] |}.

(** [fsm_->begin(deal, state)]: the FSM starts tracking the deal. *)
Definition begin (deal : CID) (s : StorageDealStatus) (p : t) : t :=
  {| local_deals_ := local_deals_ p;
     fsm_states := <[deal := s]> (fsm_states p);
     fsm_queue := fsm_queue p; logger_ := logger_ p; entered := entered p |}.

(** [fsm_->send(deal, event)]: the event is queued; it is dispatched after
    the action that sent it has returned. *)
Definition send (deal : CID) (event : ProviderEvent) (p : t) : t :=
  set_queue (fsm_queue p ++ [(deal, event)]) p.

(** [deal->field = value] through the shared pointer. *)
Definition update_deal (deal : CID) (f : MinerDeal.t -> MinerDeal.t) (p : t)
    : t :=
  set_deals (alter f deal (local_deals_ p)) p.

Definition Action : Type :=
  CID -> ProviderEvent -> StorageDealStatus -> StorageDealStatus -> t -> t.

(** The macro [CALLBACK_ACTION]: log, run the handler, then set
    [deal->state]. *)
Definition CALLBACK_ACTION (name : string) (action : Action) : Action :=
  fun deal event from to p =>
    update_deal deal (MinerDeal.set_state to)
      (action deal event from to (debug ("Provider FSM " +:+ name) p)).

Record ProviderTransition : Type := {
  event : ProviderEvent;
  from_states : list StorageDealStatus;
  to_state : StorageDealStatus;
  action : Action
}.

Definition from (s : StorageDealStatus) : list StorageDealStatus := [s].

(** Modelled from the spec: [fromAny] of the FSM library, which is not among
    the sources: "[fromAny] means the transition is legal from any
    non-terminal state". *)
Definition fromAny : list StorageDealStatus :=
  filter (fun s => is_terminal s = false) all_states.

Section Impl.

Context (api_ : Api) (piece_io_ : PieceIO)
        (registered_proof_ : RegisteredProof).

Definition getDeal (proposal_cid : CID) (p : t) : result MinerDeal.t :=
  match local_deals_ p !! proposal_cid with
  | None => failure (ProviderError LOCAL_DEAL_NOT_FOUND)
  | Some deal => success deal
  end.

Definition ensureFunds (deal : MinerDeal.t) : result (option CID) :=
  let proposal :=
    ClientDealProposal.proposal (MinerDeal.client_deal_proposal deal) in
  match ChainHead api_ with
  | failure e => failure e
  | success chain_head =>
      match makeKey api_ chain_head with
      | failure e => failure e
      | success tipset_key =>
          match StateMinerInfo api_ (DealProposal.provider proposal)
                  tipset_key with
          | failure e => failure e
          | success worker =>
              MarketEnsureAvailable api_ (DealProposal.provider proposal)
                worker (DealProposal.provider_collateral proposal) tipset_key
          end
      end
  end.

(** *** The handlers *)

Definition no_action : Action := fun deal event from to p => p.

Definition onProviderEventOpen : Action :=
  fun deal event from to p =>
    (* TODO validate deal proposal *)
    send deal ProviderEventDealAccepted p.

Definition onProviderEventNodeErrored : Action := no_action.

Definition onProviderEventDealRejected : Action := no_action.

Definition onProviderEventDealAccepted : Action :=
  fun deal event from to p =>
    match local_deals_ p !! deal with
    | Some d =>
        if bool_decide (DataRef.transfer_type (MinerDeal.ref d)
                        = kTransferTypeManual) then
          send deal ProviderEventWaitingForManualData p
        else p (* TODO transfer data *)
    | None => p
    end.

Definition onProviderEventWaitingForManualData : Action := no_action.

Definition onProviderEventInsufficientFunds : Action := no_action.

Definition onProviderEventFundingInitiated : Action :=
  fun deal event from to p =>
    (* TODO WaitForFunding *)
    send deal ProviderEventFunded p.

Definition onProviderEventFunded : Action :=
  fun deal event from to p =>
    (* TODO PublishDeal *)
    send deal ProviderEventDealPublishInitiated p.

Definition onProviderEventDataTransferFailed : Action := no_action.
Definition onProviderEventDataTransferInitiated : Action := no_action.
Definition onProviderEventDataTransferCompleted : Action := no_action.
Definition onProviderEventManualDataReceived : Action := no_action.
Definition onProviderEventGeneratePieceCIDFailed : Action := no_action.

Definition onProviderEventVerifiedData : Action :=
  fun deal event from to p =>
    match local_deals_ p !! deal with
    | Some d =>
        match ensureFunds d with
        | failure _ => send deal ProviderEventNodeErrored p
        | success (Some cid) =>
            (* funding message was sent *)
            send deal ProviderEventFundingInitiated
              (update_deal deal (MinerDeal.set_add_funds_cid (Some cid)) p)
        | success None => send deal ProviderEventFundingInitiated p
        end
    | None => p
    end.

Definition onProviderEventSendResponseFailed : Action := no_action.

Definition onProviderEventDealPublishInitiated : Action :=
  fun deal event from to p =>
    (* TODO WaitForPublish *)
    send deal ProviderEventDealPublished p.

Definition onProviderEventDealPublished : Action :=
  fun deal event from to p =>
    (* TODO hand off *)
    send deal ProviderEventDealHandedOff p.

Definition onProviderEventDealPublishError : Action := no_action.
Definition onProviderEventFileStoreErrored : Action := no_action.
Definition onProviderEventDealHandoffFailed : Action := no_action.

Definition onProviderEventDealHandedOff : Action :=
  fun deal event from to p =>
    (* TODO verify deal activated *)
    send deal ProviderEventDealActivated p.

Definition onProviderEventDealActivationFailed : Action := no_action.
Definition onProviderEventUnableToLocatePiece : Action := no_action.

Definition onProviderEventDealActivated : Action :=
  fun deal event from to p =>
    (* TODO Record Piece Info *)
    send deal ProviderEventDealCompleted p.

Definition onProviderEventPieceStoreErrored : Action := no_action.
Definition onProviderEventReadMetadataErrored : Action := no_action.

Definition onProviderEventDealCompleted : Action :=
  fun deal event from to p => debug "Deal completed" p.

Definition onProviderEventFailed : Action := no_action.

(** *** [makeFSMTransitions] *)

Definition makeFSMTransitions : list ProviderTransition :=
  [ {| event := ProviderEventOpen;
       from_states := from STORAGE_DEAL_UNKNOWN;
       to_state := STORAGE_DEAL_VALIDATING;
       action := CALLBACK_ACTION "onProviderEventOpen" onProviderEventOpen |};
    {| event := ProviderEventNodeErrored;
       from_states := fromAny;
       to_state := STORAGE_DEAL_FAILING;
       action := CALLBACK_ACTION "onProviderEventNodeErrored"
                   onProviderEventNodeErrored |};
    {| event := ProviderEventDealRejected;
       from_states := [STORAGE_DEAL_VALIDATING; STORAGE_DEAL_VERIFY_DATA];
       to_state := STORAGE_DEAL_FAILING;
       action := CALLBACK_ACTION "onProviderEventDealRejected"
                   onProviderEventDealRejected |};
    {| event := ProviderEventDealAccepted;
       from_states := from STORAGE_DEAL_VALIDATING;
       to_state := STORAGE_DEAL_PROPOSAL_ACCEPTED;
       action := CALLBACK_ACTION "onProviderEventDealAccepted"
                   onProviderEventDealAccepted |};
    {| event := ProviderEventWaitingForManualData;
       from_states := from STORAGE_DEAL_PROPOSAL_ACCEPTED;
       to_state := STORAGE_DEAL_WAITING_FOR_DATA;
       action := CALLBACK_ACTION "onProviderEventWaitingForManualData"
                   onProviderEventWaitingForManualData |};
    {| event := ProviderEventDataTransferFailed;
       from_states :=
         [STORAGE_DEAL_PROPOSAL_ACCEPTED; STORAGE_DEAL_TRANSFERRING];
       to_state := STORAGE_DEAL_FAILING;
       action := CALLBACK_ACTION "onProviderEventDataTransferFailed"
                   onProviderEventDataTransferFailed |};
    {| event := ProviderEventDataTransferInitiated;
       from_states := from STORAGE_DEAL_PROPOSAL_ACCEPTED;
       to_state := STORAGE_DEAL_TRANSFERRING;
       action := CALLBACK_ACTION "onProviderEventDataTransferInitiated"
                   onProviderEventDataTransferInitiated |};
    {| event := ProviderEventDataTransferCompleted;
       from_states := from STORAGE_DEAL_TRANSFERRING;
       to_state := STORAGE_DEAL_VERIFY_DATA;
       action := CALLBACK_ACTION "onProviderEventDataTransferCompleted"
                   onProviderEventDataTransferCompleted |};
    {| event := ProviderEventGeneratePieceCIDFailed;
       from_states := from STORAGE_DEAL_VERIFY_DATA;
       to_state := STORAGE_DEAL_FAILING;
       action := CALLBACK_ACTION "onProviderEventGeneratePieceCIDFailed"
                   onProviderEventGeneratePieceCIDFailed |};
    {| event := ProviderEventVerifiedData;
       from_states :=
         [STORAGE_DEAL_VERIFY_DATA; STORAGE_DEAL_WAITING_FOR_DATA];
       to_state := STORAGE_DEAL_ENSURE_PROVIDER_FUNDS;
       action := CALLBACK_ACTION "onProviderEventVerifiedData"
                   onProviderEventVerifiedData |};
    {| event := ProviderEventFundingInitiated;
       from_states := from STORAGE_DEAL_ENSURE_PROVIDER_FUNDS;
       to_state := STORAGE_DEAL_PROVIDER_FUNDING;
       action := CALLBACK_ACTION "onProviderEventFundingInitiated"
                   onProviderEventFundingInitiated |};
    {| event := ProviderEventFunded;
       from_states :=
         [STORAGE_DEAL_PROVIDER_FUNDING; STORAGE_DEAL_ENSURE_PROVIDER_FUNDS];
       to_state := STORAGE_DEAL_PUBLISH;
       action := CALLBACK_ACTION "onProviderEventFunded"
                   onProviderEventFunded |};
    {| event := ProviderEventDealPublishInitiated;
       from_states := from STORAGE_DEAL_PUBLISH;
       to_state := STORAGE_DEAL_PUBLISHING;
       action := CALLBACK_ACTION "onProviderEventDealPublishInitiated"
                   onProviderEventDealPublishInitiated |};
    {| event := ProviderEventDealPublishError;
       from_states := from STORAGE_DEAL_PUBLISHING;
       to_state := STORAGE_DEAL_FAILING;
       action := CALLBACK_ACTION "onProviderEventDealPublishError"
                   onProviderEventDealPublishError |};
    {| event := ProviderEventSendResponseFailed;
       from_states := [STORAGE_DEAL_PUBLISHING; STORAGE_DEAL_FAILING];
       to_state := STORAGE_DEAL_ERROR;
       action := CALLBACK_ACTION "onProviderEventSendResponseFailed"
                   onProviderEventSendResponseFailed |};
    {| event := ProviderEventDealPublished;
       from_states := from STORAGE_DEAL_PUBLISHING;
       to_state := STORAGE_DEAL_STAGED;
       action := CALLBACK_ACTION "onProviderEventDealPublished"
                   onProviderEventDealPublished |};
    {| event := ProviderEventFileStoreErrored;
       from_states :=
         [STORAGE_DEAL_STAGED; STORAGE_DEAL_SEALING; STORAGE_DEAL_ACTIVE];
       to_state := STORAGE_DEAL_FAILING;
       action := CALLBACK_ACTION "onProviderEventFileStoreErrored"
                   onProviderEventFileStoreErrored |};
    {| event := ProviderEventDealHandoffFailed;
       from_states := from STORAGE_DEAL_STAGED;
       to_state := STORAGE_DEAL_FAILING;
       action := CALLBACK_ACTION "onProviderEventDealHandoffFailed"
                   onProviderEventDealHandoffFailed |};
    {| event := ProviderEventDealHandedOff;
       from_states := from STORAGE_DEAL_STAGED;
       to_state := STORAGE_DEAL_SEALING;
       action := CALLBACK_ACTION "onProviderEventDealHandedOff"
                   onProviderEventDealHandedOff |};
    {| event := ProviderEventDealActivationFailed;
       from_states := from STORAGE_DEAL_SEALING;
       to_state := STORAGE_DEAL_FAILING;
       action := CALLBACK_ACTION "onProviderEventDealActivationFailed"
                   onProviderEventDealActivationFailed |};
    {| event := ProviderEventDealActivated;
       from_states := from STORAGE_DEAL_SEALING;
       to_state := STORAGE_DEAL_ACTIVE;
       action := CALLBACK_ACTION "onProviderEventDealActivated"
                   onProviderEventDealActivated |};
    {| event := ProviderEventPieceStoreErrored;
       from_states := from STORAGE_DEAL_ACTIVE;
       to_state := STORAGE_DEAL_FAILING;
       action := CALLBACK_ACTION "onProviderEventPieceStoreErrored"
                   onProviderEventPieceStoreErrored |};
    {| event := ProviderEventDealCompleted;
       from_states := from STORAGE_DEAL_ACTIVE;
       to_state := STORAGE_DEAL_COMPLETED;
       action := CALLBACK_ACTION "onProviderEventDealCompleted"
                   onProviderEventDealCompleted |};
    {| event := ProviderEventUnableToLocatePiece;
       from_states := from STORAGE_DEAL_ACTIVE;
       to_state := STORAGE_DEAL_FAILING;
       action := CALLBACK_ACTION "onProviderEventUnableToLocatePiece"
                   onProviderEventUnableToLocatePiece |};
    {| event := ProviderEventReadMetadataErrored;
       from_states := from STORAGE_DEAL_ACTIVE;
       to_state := STORAGE_DEAL_FAILING;
       action := CALLBACK_ACTION "onProviderEventReadMetadataErrored"
                   onProviderEventReadMetadataErrored |};
    {| event := ProviderEventFailed;
       from_states := from STORAGE_DEAL_FAILING;
       to_state := STORAGE_DEAL_ERROR;
       action := CALLBACK_ACTION "onProviderEventFailed"
                   onProviderEventFailed |} ].

(** *** The FSM at work *)

(** Modelled from the spec: the dispatch of the FSM library, which is not
    among the sources.  "Transitions are declared as (event, from_set, to) +
    action"; "each transition fires synchronously in the FSM thread"; "an
    action may queue additional events".  An event for which the table has
    no transition from the current state of the deal is dropped. *)
Definition fsm_transition (e : ProviderEvent) (s : StorageDealStatus)
    : option ProviderTransition :=
  match List.find (fun tr => bool_decide (event tr = e)) makeFSMTransitions
  with
  | Some tr => if bool_decide (s ∈ from_states tr) then Some tr else None
  | None => None
  end.

Definition fsm_dispatch (deal : CID) (e : ProviderEvent) (p : t) : t :=
  match fsm_states p !! deal with
  | Some s =>
      match fsm_transition e s with
      | Some tr => enter deal (to_state tr) (action tr deal e s (to_state tr) p)
      | None => p
      end
  | None => p
  end.

(** One turn of the FSM thread: the oldest event of the queue. *)
Definition fsm_step (p : t) : t :=
  match fsm_queue p with
  | [] => p
  | (deal, e) :: rest => fsm_dispatch deal e (set_queue rest p)
  end.

(** The FSM thread, until the queue is empty or the fuel is used up. *)
Fixpoint fsm_run (fuel : nat) (p : t) : t :=
  match fuel with
  | O => p
  | S fuel' =>
      match fsm_queue p with
      | [] => p
      | _ :: _ => fsm_run fuel' (fsm_step p)
      end
  end.

(** *** The entry points *)

Definition importDataForDeal (proposal_cid : CID) (data : Buffer) (p : t)
    : result unit * t :=
  match generatePieceCommitment piece_io_ registered_proof_ data with
  | failure e => (failure e, p)
  | success piece_commitment =>
      match getDeal proposal_cid p with
      | failure e => (failure e, p)
      | success deal =>
          if bool_decide
               (piece_commitment.1
                <> DealProposal.piece_cid
                     (ClientDealProposal.proposal
                        (MinerDeal.client_deal_proposal deal))) then
            (failure (ProviderError PIECE_CID_DOESNT_MATCH), p)
          else (success tt, send proposal_cid ProviderEventVerifiedData p)
      end
  end.

(** [handleDealStream], once the proposal was read from the stream and its
    CID computed. *)
Definition handleDealStream (proposal : Proposal.t) (proposal_cid : CID)
    (miner remote_peer_info : PeerInfo) (p : t) : t :=
  let deal :=
    {| MinerDeal.client_deal_proposal := Proposal.deal_proposal proposal;
       MinerDeal.proposal_cid := proposal_cid;
       MinerDeal.add_funds_cid := None;
       MinerDeal.miner := miner;
       MinerDeal.client := remote_peer_info;
       MinerDeal.state := STORAGE_DEAL_UNKNOWN;
       MinerDeal.piece_path := "";
       MinerDeal.metadata_path := "";
       MinerDeal.connection_closed := false;
       MinerDeal.message := "";
       MinerDeal.ref := Proposal.piece proposal;
       MinerDeal.deal_id := 0%N |} in
  send proposal_cid ProviderEventOpen
    (begin proposal_cid STORAGE_DEAL_UNKNOWN
       (set_deals (<[proposal_cid := deal]> (local_deals_ p)) p)).

End Impl.

(** The state of a deal, as its record has it. *)
Definition deal_state (deal : CID) (p : t) : option StorageDealStatus :=
  MinerDeal.state <$> local_deals_ p !! deal.

Definition deal_message (deal : CID) (p : t) : option string :=
  MinerDeal.message <$> local_deals_ p !! deal.

(** The states the FSM moved a deal to, in order. *)
Definition states_entered (deal : CID) (p : t) : list StorageDealStatus :=
  snd <$> filter (fun x => x.1 = deal) (entered p).

End Provider.

(** ** Stores to run the operations on *)

Module Scenario.

Import LocalStore.

Definition sector7 : SectorId := {| miner := 1000; sector := 7 |}.
Definition sector8 : SectorId := {| miner := 1000; sector := 8 |}.
Definition sector9 : SectorId := {| miner := 1000; sector := 9 |}.

Definition meta_s1 : LocalStorageMeta :=
  {| meta_id := "s1"; meta_weight := 10;
     meta_can_seal := true; meta_can_store := true |}.

Definition stat_s1 : FsStat :=
  {| capacity := 1000000; available := 500000; used := 0 |}.

(** A store that has not opened any path yet, on a given disk. *)
Definition fresh (d : Disk.t) : State IndexImpl.t :=
  {| index_ := IndexImpl.empty;
     paths_ := ∅;
     urls_ := ["http://localhost/remote"];
     disk := d;
     logger_ := [];
     calls := [] |}.

(** The disk of the [openPath] scenario of the design document: one sector
    with its three files under [/tmp/s1]. *)
Definition disk_s1 : Disk.t :=
  {| Disk.meta_files := {[ "/tmp/s1" := Disk.MetaOk meta_s1 ]};
     Disk.dirs :=
       {[ "/tmp/s1/unsealed" := ["s-t01000-7"];
          "/tmp/s1/sealed" := ["s-t01000-7"];
          "/tmp/s1/cache" := ["s-t01000-7"] ]};
     Disk.stats := {[ "/tmp/s1" := stat_s1 ]} |}.

(** The same storage with a stray entry between two sector files of
    [sealed/]. *)
Definition disk_stray : Disk.t :=
  {| Disk.meta_files := {[ "/tmp/s1" := Disk.MetaOk meta_s1 ]};
     Disk.dirs :=
       {[ "/tmp/s1/unsealed" := ["s-t01000-7"];
          "/tmp/s1/sealed" := ["s-t01000-7"; "lost+found"; "s-t01000-8"];
          "/tmp/s1/cache" := ["s-t01000-7"] ]};
     Disk.stats := {[ "/tmp/s1" := stat_s1 ]} |}.

(** The store after [openPath("/tmp/s1")] on [disk_s1]. *)
Definition opened_s1 : State IndexImpl.t :=
  (openPath "/tmp/s1" (fresh disk_s1)).2.

(** A storage with no room left. *)
Definition stat_full : FsStat :=
  {| capacity := 1000000; available := 0; used := 1000000 |}.

Definition info_fast : StorageInfo :=
  {| id := "fast"; urls := []; weight := 10;
     can_seal := true; can_store := false |}.

Definition info_slow : StorageInfo :=
  {| id := "slow"; urls := []; weight := 5;
     can_seal := false; can_store := true |}.

(** Two storages: [fast] seals, is full and holds the sealed file of sector
    7; [slow] stores and has room.  The directory [sealed/] of [slow] is
    missing, so a rename into it fails. *)
Definition two_storages : State IndexImpl.t :=
  {| index_ :=
       {| IndexImpl.storages :=
            [(info_fast, stat_full); (info_slow, stat_s1)];
          IndexImpl.declared := [("fast", sector7, FTSealed)] |};
     paths_ := {[ "fast" := "/mnt/fast"; "slow" := "/mnt/slow" ]};
     urls_ := [];
     disk :=
       {| Disk.meta_files := ∅;
          Disk.dirs :=
            {[ "/mnt/fast/sealed" := ["s-t01000-7"];
               "/mnt/slow/unsealed" := [] ]};
          Disk.stats := ∅ |};
     logger_ := [];
     calls := [] |}.

(** The same with the directory in place. *)
Definition two_storages_ready : State IndexImpl.t :=
  set_disk
    {| Disk.meta_files := ∅;
       Disk.dirs :=
         {[ "/mnt/fast/sealed" := ["s-t01000-7"]; "/mnt/slow/sealed" := [] ]};
       Disk.stats := ∅ |}
    two_storages.

End Scenario.

(** ** Deals to run the provider on *)

Module ProviderScenario.

Import Provider.

Definition zeros (n : nat) : Buffer := repeat Byte.x00 n.

Definition is_zero (b : Byte.byte) : bool :=
  match b with Byte.x00 => true | _ => false end.

(** Piece I/O for the runs: the commitment of a buffer of zero bytes is one
    CID, that of any other buffer another. *)
Definition piece_io : PieceIO :=
  {| generatePieceCommitment := fun _ data =>
       success (if forallb is_zero data then "baga6ea4seaq-zeros"
                else "baga6ea4seaq-data",
                N.of_nat (length data)) |}.

(** A chain API whose [MarketEnsureAvailable] answers as given. *)
Definition api (ensured : result (option CID)) : Api :=
  {| ChainHead := success ["bafy-head"];
     makeKey := fun blocks => success blocks;
     StateMinerInfo := fun _ _ => success 1001%N;
     MarketEnsureAvailable := fun _ _ _ _ => ensured |}.

Definition api_funded : Api := api (success None).
Definition api_funding : Api := api (success (Some "bafy-add-funds")).

(** A proposal to miner [t01000] for a piece of the given size, sent for
    manual transfer. *)
Definition proposal (piece_size : N) (provider : Address) : Proposal.t :=
  {| Proposal.deal_proposal :=
       {| ClientDealProposal.proposal :=
            {| DealProposal.piece_cid := "baga6ea4seaq-data";
               DealProposal.piece_size := piece_size;
               DealProposal.verified := false;
               DealProposal.client := 2000%N;
               DealProposal.provider := provider;
               DealProposal.start_epoch := 100%Z;
               DealProposal.end_epoch := 200%Z;
               DealProposal.storage_price_per_epoch := 1%Z;
               DealProposal.provider_collateral := 10%Z;
               DealProposal.client_collateral := 10%Z |};
          ClientDealProposal.client_signature := [] |};
     Proposal.piece :=
       {| DataRef.transfer_type := kTransferTypeManual;
          DataRef.root := None;
          DataRef.piece_cid := Some "baga6ea4seaq-data" |} |}.

Definition proposal_cid : CID := "bafy-proposal".

(** The provider once the proposal for a 2048-byte piece came in and the
    FSM has run: the deal waits for its data. *)
Definition waiting (a : Api) : Provider.t :=
  fsm_run a 10
    (handleDealStream (proposal 2048%N 1000%N) proposal_cid "miner-peer"
       "client-peer" Provider.empty).

(** A provider whose only deal is completed. *)
Definition completed : Provider.t :=
  {| local_deals_ :=
       {[ proposal_cid :=
            {| MinerDeal.client_deal_proposal :=
                 Proposal.deal_proposal (proposal 2048%N 1000%N);
               MinerDeal.proposal_cid := proposal_cid;
               MinerDeal.add_funds_cid := None;
               MinerDeal.miner := "miner-peer";
               MinerDeal.client := "client-peer";
               MinerDeal.state := STORAGE_DEAL_COMPLETED;
               MinerDeal.piece_path := "";
               MinerDeal.metadata_path := "";
               MinerDeal.connection_closed := false;
               MinerDeal.message := "";
               MinerDeal.ref := Proposal.piece (proposal 2048%N 1000%N);
               MinerDeal.deal_id := 0%N |} ]};
     fsm_states := {[ proposal_cid := STORAGE_DEAL_COMPLETED ]};
     fsm_queue := [];
     logger_ := [];
     entered := [] |}.

End ProviderScenario.

(** ** The chain-event watcher *)

Module Events.

Definition MethodNumber : Set := N.

(** The numbers of the two methods of the miner actor that the watcher
    looks for. *)
Definition PreCommitSector_Number : MethodNumber := 6%N.
Definition ProveCommitSector_Number : MethodNumber := 7%N.

Module SectorPreCommitInfo.
Record t : Set := {
  sealed_cid : CID;
  deal_ids : list DealId;
  sector : SectorNumber
}.
End SectorPreCommitInfo.

Module ProveCommitSector.
Record Params : Set := { sector : SectorNumber }.
End ProveCommitSector.

(** The parameters of a message, by what their CBOR bytes decode to. *)
Inductive MethodParams : Set :=
| EncodedPreCommitInfo (info : SectorPreCommitInfo.t)
| EncodedProveCommitParams (params : ProveCommitSector.Params)
| OtherParams (bytes : list Byte.byte).

Definition decodePreCommitInfo (p : MethodParams)
    : option SectorPreCommitInfo.t :=
  match p with EncodedPreCommitInfo info => Some info | _ => None end.

Definition decodeProveCommitParams (p : MethodParams)
    : option ProveCommitSector.Params :=
  match p with EncodedProveCommitParams params => Some params | _ => None end.

Module UnsignedMessage.
Record t : Set := {
  to : Address;
  method : MethodNumber;
  params : MethodParams
}.
End UnsignedMessage.

Record MsgMeta : Set := {
  bls_messages : list UnsignedMessage.t;
  secp_messages : list UnsignedMessage.t
}.

Record BlockHeader : Set := { messages : MsgMeta }.

Record Tipset : Set := { blks : list BlockHeader }.

Inductive HeadChangeType : Set := CURRENT | REVERT | APPLY.

Record HeadChange : Set := { type : HeadChangeType; value : Tipset }.

(** [PromiseResult]: a promise of [outcome::result<void>], not set yet or
    set once. *)
Definition PromiseResult : Set := option (result unit).

Definition set_value (r : result unit) (p : PromiseResult) : PromiseResult :=
  match p with
  | None => Some r
  | Some _ => p
  end.

(** [Events::EventWatch], with the promise itself in place of the pointer to
    it: the caller of [onDealSectorCommitted] reads the promise of its watch
    by the position of the watch. *)
Record EventWatch : Set := {
  provider : Address;
  deal_id : DealId;
  sector_number : option SectorNumber;
  result : PromiseResult
}.

Definition pending (w : EventWatch) : bool :=
  bool_decide (result w = None).

(** Modelled from the spec: the watcher behind the interface [Events]
    (its implementation file is not among the sources), after section 4.4 of
    the design document.  The two tables of the document are read off the
    watches: [pending_precommit] has the watches whose promise is not set,
    [precommitted] those among them that carry a sector number. *)
Abbreviation t := (list EventWatch).

Definition pending_precommit (ws : t) : list (Address * DealId) :=
  (fun w => (provider w, deal_id w)) <$> filter (fun w => pending w = true) ws.

Definition precommitted (ws : t) : list (Address * DealId * SectorNumber) :=
  omap (fun w => if pending w
                 then (fun s => (provider w, deal_id w, s)) <$> sector_number w
                 else None) ws.

(** Modelled from the spec: [onDealSectorCommitted(provider, deal_id)]
    registers a new watch, not pre-committed; the promise returned is the one
    of the watch at the position returned. *)
Definition onDealSectorCommitted (p : Address) (d : DealId) (ws : t)
    : nat * t :=
  (length ws,
   ws ++ [{| provider := p; deal_id := d; sector_number := None;
             result := None |}]).

Definition record_precommit (to_ : Address) (info : SectorPreCommitInfo.t)
    (w : EventWatch) : EventWatch :=
  if pending w
     && bool_decide (provider w = to_)
     && bool_decide (deal_id w ∈ SectorPreCommitInfo.deal_ids info)
  then {| provider := provider w; deal_id := deal_id w;
          sector_number := Some (SectorPreCommitInfo.sector info);
          result := result w |}
  else w.

Definition forget_precommit (to_ : Address) (info : SectorPreCommitInfo.t)
    (w : EventWatch) : EventWatch :=
  if pending w
     && bool_decide (provider w = to_)
     && bool_decide (deal_id w ∈ SectorPreCommitInfo.deal_ids info)
  then {| provider := provider w; deal_id := deal_id w;
          sector_number := None; result := result w |}
  else w.

Definition resolve_committed (to_ : Address) (sector : SectorNumber)
    (w : EventWatch) : EventWatch :=
  if pending w
     && bool_decide (provider w = to_)
     && bool_decide (sector_number w = Some sector)
  then {| provider := provider w; deal_id := deal_id w;
          sector_number := sector_number w;
          result := set_value (success tt) (result w) |}
  else w.

(** Modelled from the spec: a message of an applied tipset.  "For messages
    whose [to == provider] and whose method is [PreCommitSector], decode the
    parameters, and for every [deal_id] in its [deal_ids] that is in
    [pending_precommit], record [(provider, deal_id) -> sector_number].  For
    messages whose method is [ProveCommitSector] targeting the same provider,
    decode, and for each [(provider, deal_id) -> s] in [precommitted] with
    [s == params.sector], resolve the future successfully and drop both
    entries." *)
Definition apply_message (m : UnsignedMessage.t) (ws : t) : t :=
  if (UnsignedMessage.method m =? PreCommitSector_Number)%N then
    match decodePreCommitInfo (UnsignedMessage.params m) with
    | Some info => record_precommit (UnsignedMessage.to m) info <$> ws
    | None => ws
    end
  else if (UnsignedMessage.method m =? ProveCommitSector_Number)%N then
    match decodeProveCommitParams (UnsignedMessage.params m) with
    | Some params =>
        resolve_committed (UnsignedMessage.to m)
          (ProveCommitSector.sector params) <$> ws
    | None => ws
    end
  else ws.

(** Modelled from the spec: a message of a reverted tipset.  "Matching
    [precommitted] entries are removed; already-resolved futures cannot be
    un-resolved." *)
Definition revert_message (m : UnsignedMessage.t) (ws : t) : t :=
  if (UnsignedMessage.method m =? PreCommitSector_Number)%N then
    match decodePreCommitInfo (UnsignedMessage.params m) with
    | Some info => forget_precommit (UnsignedMessage.to m) info <$> ws
    | None => ws
    end
  else ws.

(** Modelled from the spec: [stop()].  "Completes with error on watcher
    shutdown": every promise not set yet is set to an error. *)
Definition stop (ws : t) : t :=
  (fun w => {| provider := provider w; deal_id := deal_id w;
               sector_number := sector_number w;
               result := set_value (failure (ForeignError "Events" 1))
                           (result w) |}) <$> ws.

(** What the watcher goes through, one step at a time. *)
Inductive Step : Set :=
| Subscribed (p : Address) (d : DealId)
| Applied (m : UnsignedMessage.t)
| Reverted (m : UnsignedMessage.t)
| Stopped.

Definition step (ws : t) (s : Step) : t :=
  match s with
  | Subscribed p d => (onDealSectorCommitted p d ws).2
  | Applied m => apply_message m ws
  | Reverted m => revert_message m ws
  | Stopped => stop ws
  end.

Definition run (steps : list Step) : t := fold_left step steps [].

(** The messages of a tipset, in the order the watcher reads them: block by
    block, the BLS messages then the secp messages. *)
Definition tipset_messages (ts : Tipset) : list UnsignedMessage.t :=
  flat_map (fun b => bls_messages (messages b) ++ secp_messages (messages b))
    (blks ts).

Definition head_change_steps (c : HeadChange) : list Step :=
  match type c with
  | APPLY => Applied <$> tipset_messages (value c)
  | REVERT => Reverted <$> tipset_messages (value c)
  | CURRENT => []
  end.

(** The message is a [PreCommitSector] sent to [p] that lists deal [d] for
    sector [s]. *)
Definition is_precommit (m : UnsignedMessage.t) (p : Address) (d : DealId)
    (s : SectorNumber) : Prop :=
  UnsignedMessage.to m = p
  /\ UnsignedMessage.method m = PreCommitSector_Number
  /\ exists info,
       decodePreCommitInfo (UnsignedMessage.params m) = Some info
       /\ d ∈ SectorPreCommitInfo.deal_ids info
       /\ SectorPreCommitInfo.sector info = s.

(** The message is a [ProveCommitSector] sent to [p] for sector [s]. *)
Definition is_provecommit (m : UnsignedMessage.t) (p : Address)
    (s : SectorNumber) : Prop :=
  UnsignedMessage.to m = p
  /\ UnsignedMessage.method m = ProveCommitSector_Number
  /\ exists params,
       decodeProveCommitParams (UnsignedMessage.params m) = Some params
       /\ ProveCommitSector.sector params = s.

(** Among the steps there is a [PreCommitSector] to [p] listing deal [d],
    and later a [ProveCommitSector] to [p] for the sector of that
    pre-commit, both applied. *)
Definition observed_commit (steps : list Step) (p : Address) (d : DealId)
    : Prop :=
  exists i j m1 m2 s,
    i < j
    /\ steps !! i = Some (Applied m1) /\ is_precommit m1 p d s
    /\ steps !! j = Some (Applied m2) /\ is_provecommit m2 p s.

(** No applied message is a [PreCommitSector] to [p] listing deal [d]. *)
Definition no_precommit (steps : list Step) (p : Address) (d : DealId)
    : Prop :=
  forall i m s, steps !! i = Some (Applied m) -> ~ is_precommit m p d s.

(** What holds of every watch after the steps. *)
Definition watch_ok (steps : list Step) (w : EventWatch) : Prop :=
  (forall s, sector_number w = Some s ->
     exists i m,
       steps !! i = Some (Applied m)
       /\ is_precommit m (provider w) (deal_id w) s)
  /\ (result w = Some (success tt) ->
      observed_commit steps (provider w) (deal_id w))
  /\ (forall e, result w = Some (failure e) -> Stopped ∈ steps).

(** The fixtures of [events_test.cpp]. *)
Definition test_provider : Address := 1%N.
Definition test_deal_id : DealId := 1%N.
Definition test_sector_number : SectorNumber := 13%N.

Definition pre_commit_message : UnsignedMessage.t :=
  {| UnsignedMessage.to := test_provider;
     UnsignedMessage.method := PreCommitSector_Number;
     UnsignedMessage.params :=
       EncodedPreCommitInfo
         {| SectorPreCommitInfo.sealed_cid := "010001020001";
            SectorPreCommitInfo.deal_ids := [test_deal_id];
            SectorPreCommitInfo.sector := test_sector_number |} |}.

Definition prove_commit_message : UnsignedMessage.t :=
  {| UnsignedMessage.to := test_provider;
     UnsignedMessage.method := ProveCommitSector_Number;
     UnsignedMessage.params :=
       EncodedProveCommitParams
         {| ProveCommitSector.sector := test_sector_number |} |}.

Definition tipset_of (ms : list UnsignedMessage.t) : Tipset :=
  {| blks := [{| messages := {| bls_messages := ms;
                                secp_messages := [] |} |}] |}.

End Events.

(** ** [LocalStore]: [remove], [getFsStat] and [newLocalStore] *)

Module LocalStoreMore.

Import LocalStore.

(** [SectorFileType] is a 64-bit enumeration.  Its values; a result brought
    back into them as the two's complement machine does; and [x - 1] on them,
    where the least value gives the greatest. *)
Definition int64_min : Z := (- 2 ^ 63)%Z.
Definition int64_max : Z := (2 ^ 63 - 1)%Z.

Definition is_int64 (x : Z) : Prop := (int64_min <= x <= int64_max)%Z.

Definition wrap64 (x : Z) : Z := ((x - int64_min) mod 2 ^ 64 + int64_min)%Z.

Definition minus_one (x : Z) : Z :=
  if (x =? int64_min)%Z then int64_max else (x - 1)%Z.

(** A value with exactly one of its 64 bits set. *)
Definition one_bit_of_64 (x : Z) : Prop :=
  exists k, (0 <= k < 64)%Z /\ (x mod 2 ^ 64 = 2 ^ k)%Z.

Section More.

Context {I : Type} {index_impl : SectorIndex I}.

(** [boost::filesystem::remove_all(path, ec)]: the disk after the call, and
    the message of [ec] when it failed. *)
Variable remove_all : string -> Disk.t -> option string * Disk.t.

(** The body of the loop of [remove], for one storage holding the file. *)
Definition remove_from (sector : SectorId) (type : SectorFileType)
    (info : StorageInfo) : M unit :=
  fun st =>
    match paths_ st !! id info with
    | None => (success tt, st)
    | Some root =>
        if bool_decide (root = "") then (success tt, st)
        else
          (TRY_ index_drop (id info) sector type IN
           fun st1 =>
             let sector_path :=
               Disk.join (Disk.join root (toString type)) (sectorName sector)
             in
             let st2 := log Info ("Remove " +:+ sector_path) st1 in
             match remove_all sector_path (disk st2) with
             | (Some message, d) =>
                 (failure (StoreError CannotRemoveSector),
                  log Err message (set_disk d st2))
             | (None, d) => (success tt, set_disk d st2)
             end) st
    end.

Definition remove (sector : SectorId) (type : SectorFileType) : M unit :=
  if (type =? FTNone)%Z || negb (Z.land type (minus_one type) =? 0)%Z then
    fail (StoreError RemoveSeveralFileTypes)
  else
    TRY storages_info <- index_find sector type false IN
    match storages_info with
    | [] => fail (StoreError NotFoundSector)
    | _ :: _ => for_each (remove_from sector type) storages_info
    end.

Definition getFsStat (id : StorageID) (st : State I) : result FsStat :=
  match paths_ st !! id with
  | None => failure (StoreError NotFoundStorage)
  | Some path => Disk.getStat path (disk st)
  end.

(** [newLocalStore]: a store with an empty registry opens every path that
    [LocalStorage::getPaths] lists, and gives up at the first that fails.
    The index is the caller's: what was done to it stays done.  The
    constructor has set [logger_], so the test for a null logger
    ([CannotInitLogger]) is passed. *)
Definition newLocalStore (getPaths : result (list string)) (index : I)
    (urls : list string) (d : Disk.t) : result unit * State I :=
  let local :=
    {| index_ := index; paths_ := ∅; urls_ := urls; disk := d;
       logger_ := []; calls := [] |} in
  match getPaths with
  | failure e => (failure e, local)
  | success store_paths => for_each openPath store_paths local
  end.

End More.

(** A [remove_all] that takes the entry out of its directory and never
    fails. *)
Definition remove_entry (path : string) (d : Disk.t) : option string * Disk.t :=
  match Disk.split_path path with
  | Some (dir, name) =>
      (None,
       {| Disk.meta_files := Disk.meta_files d;
          Disk.dirs :=
            alter (fun entries => filter (fun n => n <> name) entries) dir
              (Disk.dirs d);
          Disk.stats := Disk.stats d |})
  | None => (None, d)
  end.

(** A [remove_all] on a disk that refuses every removal. *)
Definition remove_denied (path : string) (d : Disk.t)
    : option string * Disk.t :=
  (Some "Permission denied", d).

End LocalStoreMore.

(** ** An index that is down *)

Module IndexDown.

(** An implementation behind the [SectorIndex] interface whose every call
    fails with code 7 of the index's error category, as the calls of an
    index that cannot be reached do. *)
Inductive t : Set := down.

#[global] Instance index : SectorIndex t := {
  storageAttach := fun _ _ i => (index_error 7, i);
  storageDeclareSector := fun _ _ _ i => (index_error 7, i);
  storageDropSector := fun _ _ _ i => (index_error 7, i);
  storageFindSector := fun _ _ _ _ => index_error 7;
  storageBestAlloc := fun _ _ _ _ => index_error 7;
  getStorageInfo := fun _ _ => index_error 7
}.

End IndexDown.

(** ** More stores to run the operations on *)

Module MoreScenario.

Import LocalStore Scenario.

(** Two storage roots whose metadata files carry the same id. *)
Definition disk_twins : Disk.t :=
  {| Disk.meta_files :=
       {[ "/tmp/s1" := Disk.MetaOk meta_s1;
          "/tmp/s1-copy" := Disk.MetaOk meta_s1 ]};
     Disk.dirs := {[ "/tmp/s1/sealed" := ["s-t01000-7"] ]};
     Disk.stats := {[ "/tmp/s1" := stat_s1; "/tmp/s1-copy" := stat_s1 ]} |}.

Definition meta_s2 : LocalStorageMeta :=
  {| meta_id := "s2"; meta_weight := 5;
     meta_can_seal := false; meta_can_store := true |}.

(** Two storage roots with ids of their own. *)
Definition disk_pair : Disk.t :=
  {| Disk.meta_files :=
       {[ "/tmp/s1" := Disk.MetaOk meta_s1;
          "/tmp/s2" := Disk.MetaOk meta_s2 ]};
     Disk.dirs :=
       {[ "/tmp/s1/sealed" := ["s-t01000-7"];
          "/tmp/s2/unsealed" := ["s-t01000-8"] ]};
     Disk.stats := {[ "/tmp/s1" := stat_s1; "/tmp/s2" := stat_s1 ]} |}.

(** A store that knows sector 7 only on a storage that is not registered
    here. *)
Definition remote_only : State IndexImpl.t :=
  {| index_ :=
       {| IndexImpl.storages := [(info_slow, stat_s1)];
          IndexImpl.declared := [("slow", sector7, FTSealed)] |};
     paths_ := ∅;
     urls_ := [];
     disk := disk_s1;
     logger_ := [];
     calls := [] |}.

Definition info_remote : StorageInfo :=
  {| id := "remote"; urls := ["http://10.0.0.2/remote"]; weight := 20;
     can_seal := true; can_store := true |}.

Definition info_trail : StorageInfo :=
  {| id := "trail"; urls := []; weight := 10;
     can_seal := true; can_store := true |}.

(** Three storages hold the sealed file of sector 7.  The best of them,
    [remote], is not registered here; [trail] is, under a root written with
    a trailing separator; [slow] is too. *)
Definition mixed : State IndexImpl.t :=
  {| index_ :=
       {| IndexImpl.storages :=
            [(info_slow, stat_s1); (info_remote, stat_s1);
             (info_trail, stat_s1)];
          IndexImpl.declared :=
            [("slow", sector7, FTSealed); ("remote", sector7, FTSealed);
             ("trail", sector7, FTSealed)] |};
     paths_ := {[ "trail" := "/mnt/trail/"; "slow" := "/mnt/slow" ]};
     urls_ := [];
     disk :=
       {| Disk.meta_files := ∅;
          Disk.dirs :=
            {[ "/mnt/trail/sealed" := ["s-t01000-7"];
               "/mnt/slow/sealed" := ["s-t01000-7"] ]};
          Disk.stats := ∅ |};
     logger_ := [];
     calls := [] |}.

(** A store whose index cannot be reached. *)
Definition unreachable : State IndexDown.t :=
  {| index_ := IndexDown.down;
     paths_ := {[ "s1" := "/tmp/s1" ]};
     urls_ := [];
     disk := disk_s1;
     logger_ := [];
     calls := [] |}.

End MoreScenario.

(** ** Invariant and measure of the provider's FSM *)

Module ProviderMore.

Import Provider.

(** The state in the record of every deal the FSM tracks is the state the
    FSM has for it. *)
Definition in_sync (p : Provider.t) : Prop :=
  map_Forall (fun deal s => deal_state deal p = Some s) (fsm_states p).

(** The number of dispatches an event can cause at most: itself and the
    events the handlers send one after the other ([onProviderEventOpen]
    sends [ProviderEventDealAccepted], whose handler may send
    [ProviderEventWaitingForManualData], and so on). *)
Definition chain_length (e : ProviderEvent) : nat :=
  match e with
  | ProviderEventOpen => 3
  | ProviderEventDealAccepted => 2
  | ProviderEventVerifiedData => 8
  | ProviderEventFundingInitiated => 7
  | ProviderEventFunded => 6
  | ProviderEventDealPublishInitiated => 5
  | ProviderEventDealPublished => 4
  | ProviderEventDealHandedOff => 3
  | ProviderEventDealActivated => 2
  | _ => 1
  end.

Definition pending_work (queue : list (CID * ProviderEvent)) : nat :=
  foldr (fun x acc => chain_length x.2 + acc) 0 queue.

(** The record [handleDealStream] builds. *)
Definition new_deal (proposal : Proposal.t) (proposal_cid : CID)
    (miner remote_peer_info : PeerInfo) : MinerDeal.t :=
  {| MinerDeal.client_deal_proposal := Proposal.deal_proposal proposal;
     MinerDeal.proposal_cid := proposal_cid;
     MinerDeal.add_funds_cid := None;
     MinerDeal.miner := miner;
     MinerDeal.client := remote_peer_info;
     MinerDeal.state := STORAGE_DEAL_UNKNOWN;
     MinerDeal.piece_path := "";
     MinerDeal.metadata_path := "";
     MinerDeal.connection_closed := false;
     MinerDeal.message := "";
     MinerDeal.ref := Proposal.piece proposal;
     MinerDeal.deal_id := 0%N |}.

End ProviderMore.
(** * Properties *)

(** ** The local store *)

Module LocalStoreFacts.

Import LocalStore.

(** The two masks are disjoint exactly when the test of [acquireSector]
    passes. *)
Lemma masks_disjoint_iff (existing allocate : Z) :
  (Z.lor existing allocate =? Z.lxor existing allocate)%Z = true
  <-> Z.land existing allocate = 0%Z.
Proof.
  rewrite Z.eqb_eq, <- (Z.sub_lor_land existing allocate). lia.
Qed.

Lemma land_lxor_distr (a b c : Z) :
  Z.land a (Z.lxor b c) = Z.lxor (Z.land a b) (Z.land a c).
Proof.
  apply Z.bits_inj'. intros n Hn.
  rewrite Z.land_spec, !Z.lxor_spec, !Z.land_spec.
  by destruct (Z.testbit a n), (Z.testbit b n), (Z.testbit c n).
Qed.

Lemma land_single_bit (k x : Z) :
  (0 <= k)%Z -> Z.land (2 ^ k) x = 0%Z \/ Z.land (2 ^ k) x = (2 ^ k)%Z.
Proof.
  intros Hk.
  destruct (Z.testbit x k) eqn:Hbit; [right|left];
    apply Z.bits_inj'; intros n Hn;
    rewrite Z.land_spec, ?Z.bits_0, Z.pow2_bits_eqb by lia;
    destruct (Z.eqb_spec k n); subst; rewrite ?Hbit; done.
Qed.

Lemma append_not_empty (a b : string) : b <> "" -> a +:+ b <> "".
Proof. intros Hb. destruct a; [done|discriminate]. Qed.

Lemma join_not_empty (a b : string) : b <> "" -> Disk.join a b <> "".
Proof.
  intros Hb. unfold Disk.join. destruct b as [|c b]; [done|].
  destruct (_ || _); apply append_not_empty; [done|discriminate].
Qed.

Lemma sectorName_not_empty sector : sectorName sector <> "".
Proof. unfold sectorName. discriminate. Qed.

Lemma sector_path_not_empty root type sector :
  bool_decide (sector_path root type sector = "") = false.
Proof.
  apply bool_decide_eq_false, join_not_empty, sectorName_not_empty.
Qed.

(** [a / b] for a root that does not end with a separator and a name that
    does not start with one; and for a root that ends with a separator. *)
Lemma join_plain (a : string) (c : ascii) (b : string) :
  a <> "" -> Disk.ends_with_separator a = false ->
  Disk.is_separator c = false ->
  Disk.join a (String c b) = a +:+ "/" +:+ String c b.
Proof.
  intros Ha Hend Hc. unfold Disk.join.
  by rewrite bool_decide_eq_false_2, Hend, Hc.
Qed.

Lemma join_after_separator (a b : string) :
  Disk.ends_with_separator a = true -> Disk.join a b = a +:+ b.
Proof.
  intros Hend. unfold Disk.join. destruct b as [|c b].
  - clear Hend. induction a as [|x a IH]; [done|].
    change (String x a +:+ "") with (String x (a +:+ "")). by rewrite <- IH.
  - by rewrite Hend, orb_true_r.
Qed.

(** The loop with its [break], in the words of the design: [first_local]
    answers with the first storage of the list that is registered here. *)
Lemma first_local_first_registered (registry : gmap StorageID string)
    infos info root :
  first_local registry infos = Some (info, root)
  <-> first_registered registry infos info root.
Proof.
  split.
  - revert info root. induction infos as [|i rest IH]; intros info root;
      [done|]. cbn [first_local].
    assert (Hrec : first_local registry rest = Some (info, root) ->
                   (forall r, ~ registered_at registry i r) ->
                   first_registered registry (i :: rest) info root).
    { intros Hloc Hnot. destruct (IH _ _ Hloc)
        as (before & after & -> & Hreg & Hbefore).
      exists (i :: before), after. split; [done|]. split; [done|].
      intros other r Hin. apply elem_of_cons in Hin as [-> | Hin];
        [apply Hnot|by apply Hbefore]. }
    destruct (registry !! id i) as [q|] eqn:Hq.
    + destruct (bool_decide (q = "")) eqn:Hempty.
      * apply bool_decide_eq_true in Hempty. intros Hloc.
        apply Hrec; [done|]. intros r [Hr Hne]. congruence.
      * apply bool_decide_eq_false in Hempty. intros [= -> ->].
        exists [], rest. split; [done|]. split; [done|].
        intros other r Hin. by apply elem_of_nil in Hin.
    + intros Hloc. apply Hrec; [done|]. intros r [Hr _]. congruence.
  - intros (before & after & -> & [Hreg Hne] & Hbefore).
    induction before as [|b before IH]; cbn [app first_local].
    + by rewrite Hreg, bool_decide_eq_false_2.
    + assert (Hb : forall r, ~ registered_at registry b r).
      { intros r. apply Hbefore. by apply elem_of_cons; left. }
      assert (Hrest : first_local registry (before ++ info :: after)
                      = Some (info, root)).
      { apply IH. intros other r Hin. apply Hbefore.
        by apply elem_of_cons; right. }
      destruct (registry !! id b) as [q|] eqn:Hq; [|done].
      destruct (bool_decide (q = "")) eqn:Hempty; [done|].
      apply bool_decide_eq_false in Hempty. by destruct (Hb q).
Qed.

Lemma first_local_none_registered (registry : gmap StorageID string) infos :
  first_local registry infos = None
  <-> forall info root, info ∈ infos -> ~ registered_at registry info root.
Proof.
  split.
  - induction infos as [|i rest IH]; intros Hloc info root Hin.
    { by apply elem_of_nil in Hin. }
    cbn [first_local] in Hloc.
    destruct (registry !! id i) as [q|] eqn:Hq.
    + destruct (bool_decide (q = "")) eqn:Hempty; [|done].
      apply bool_decide_eq_true in Hempty.
      apply elem_of_cons in Hin as [-> | Hin]; [|by apply IH].
      intros [Hr Hne]. congruence.
    + apply elem_of_cons in Hin as [-> | Hin]; [|by apply IH].
      intros [Hr _]. congruence.
  - intros Hnone. destruct (first_local registry infos) as [[info root]|]
      eqn:Hloc; [|done].
    apply first_local_first_registered in Hloc
      as (before & after & -> & Hreg & _).
    destruct (Hnone info root); [|done].
    apply elem_of_app. right. by apply elem_of_cons; left.
Qed.

Lemma first_registered_elem (registry : gmap StorageID string)
    infos info root :
  first_registered registry infos info root ->
  info ∈ infos /\ registered_at registry info root.
Proof.
  intros (before & after & -> & Hreg & _). split; [|done].
  apply elem_of_app. right. by apply elem_of_cons; left.
Qed.

Lemma getPathByType_set_other (type t : SectorFileType) path p :
  t <> type ->
  getPathByType type (setPathByType t path p) = getPathByType type p.
Proof.
  intros Hne. unfold getPathByType, setPathByType.
  repeat match goal with
         | |- context [(?x =? ?y)%Z] => destruct (Z.eqb_spec x y)
         end; simpl; congruence.
Qed.

Lemma kSectorFileTypes_disjoint : disjoint_bits kSectorFileTypes.
Proof. simpl. repeat split; repeat constructor. Qed.

Lemma kSectorFileTypes_cases (type : SectorFileType) :
  type ∈ kSectorFileTypes ->
  type = FTUnsealed \/ type = FTSealed \/ type = FTCache.
Proof.
  unfold kSectorFileTypes. rewrite !elem_of_cons, elem_of_nil. tauto.
Qed.

(** Each member of [kSectorFileTypes] is a single bit. *)
Lemma kSectorFileTypes_single_bit (type x : SectorFileType) :
  type ∈ kSectorFileTypes -> Z.land type x = 0%Z \/ Z.land type x = type.
Proof.
  intros Hin. apply kSectorFileTypes_cases in Hin.
  destruct Hin as [-> | [-> | ->]].
  - apply (land_single_bit 0 x). lia.
  - apply (land_single_bit 1 x). lia.
  - apply (land_single_bit 2 x). lia.
Qed.

Lemma kSectorFileTypes_apart (type : SectorFileType) :
  type ∈ kSectorFileTypes ->
  Forall (fun t => t = type \/ Z.land type t = 0%Z) kSectorFileTypes.
Proof.
  intros Hin. apply kSectorFileTypes_cases in Hin.
  destruct Hin as [-> | [-> | ->]];
    repeat apply Forall_cons_2; try apply Forall_nil_2;
    solve [by left | by right].
Qed.

Section Acquire.

Context {I : Type} {index_impl : SectorIndex I}.

Implicit Types (st : State I) (sector : SectorId) (type : SectorFileType).

Lemma same_store_refl st : same_store st st.
Proof. by repeat split. Qed.

Lemma same_store_trans st1 st2 st3 :
  same_store st1 st2 -> same_store st2 st3 -> same_store st1 st3.
Proof.
  unfold same_store. intros (-> & -> & -> & ->) (-> & -> & -> & ->). done.
Qed.

Lemma same_store_called c st : same_store st (called c st).
Proof. by repeat split. Qed.

Lemma same_store_log l t st : same_store st (log l t st).
Proof. by repeat split. Qed.

Lemma held_locally_same sector type st st' :
  same_store st st' -> held_locally sector type st' ->
  held_locally sector type st.
Proof. unfold held_locally. intros (-> & -> & _). done. Qed.

Lemma held_locally_stored_here sector type st :
  held_locally sector type st <-> stored_here sector type st.
Proof.
  split.
  - intros (infos & info & root & Hfind & Hloc).
    apply first_local_first_registered, first_registered_elem in Hloc
      as [Hin Hreg].
    by exists infos, info, root.
  - intros (infos & info & root & Hfind & Hin & Hreg).
    destruct (first_local (paths_ st) infos) as [[info' root']|] eqn:Hloc.
    + by exists infos, info', root'.
    + destruct (proj1 (first_local_none_registered _ _) Hloc info root Hin).
      done.
Qed.

Lemma allocatable_room_here proof can_seal type st :
  allocatable proof can_seal type st <-> room_here proof can_seal type st.
Proof.
  split.
  - intros (infos & info & root & Hbest & Hloc).
    apply first_local_first_registered, first_registered_elem in Hloc
      as [Hin Hreg].
    by exists infos, info, root.
  - intros (infos & info & root & Hbest & Hin & Hreg).
    destruct (first_local (paths_ st) infos) as [[info' root']|] eqn:Hloc.
    + by exists infos, info', root'.
    + destruct (proj1 (first_local_none_registered _ _) Hloc info root Hin).
      done.
Qed.

Lemma allocatable_same proof can_seal type st st' :
  same_store st st' ->
  allocatable proof can_seal type st <-> allocatable proof can_seal type st'.
Proof. unfold allocatable. intros (-> & -> & _). done. Qed.

(** One turn of the first loop. *)
Lemma acquire_existing_cons type rest sector existing result st :
  acquire_existing (type :: rest) sector existing result st =
  if (Z.land type existing =? 0)%Z then
    acquire_existing rest sector existing result st
  else
    match storageFindSector sector type false (index_ st) with
    | index_error _ =>
        acquire_existing rest sector existing result
          (log Warn "Finding existing sector" (called (CallFind sector type) st))
    | index_ok infos =>
        match first_local (paths_ st) infos with
        | Some (info, store_path) =>
            acquire_existing rest sector (Z.lxor existing type)
              (set_response type (sector_path store_path type sector)
                 (id info) result)
              (called (CallFind sector type) st)
        | None =>
            acquire_existing rest sector existing result
              (called (CallFind sector type) st)
        end
    end.
Proof.
  simpl. unfold index_find.
  destruct (Z.land type existing =? 0)%Z; [done|].
  destruct (storageFindSector sector type false (index_ st)); simpl; done.
Qed.

(** One turn of the second loop. *)
Lemma acquire_allocate_cons type rest sector proof can_seal allocate result st :
  acquire_allocate (type :: rest) sector proof can_seal allocate result st =
  if (Z.land type allocate =? 0)%Z then
    acquire_allocate rest sector proof can_seal allocate result st
  else
    match storageBestAlloc type proof can_seal (index_ st) with
    | index_error code =>
        (failure (IndexError code), called (CallBestAlloc type) st)
    | index_ok infos =>
        match first_local (paths_ st) infos with
        | Some (info, store_path) =>
            acquire_allocate rest sector proof can_seal (Z.lxor allocate type)
              (set_response type (sector_path store_path type sector)
                 (id info) result)
              (called (CallBestAlloc type) st)
        | None =>
            (failure (StoreError NotFoundPath), called (CallBestAlloc type) st)
        end
    end.
Proof.
  simpl. destruct (Z.land type allocate =? 0)%Z; [done|].
  unfold bind, index_best_alloc.
  destruct (storageBestAlloc type proof can_seal (index_ st)); simpl; [|done].
  destruct (first_local (paths_ st) a) as [[info store_path]|]; [|done].
  by rewrite sector_path_not_empty.
Qed.

Lemma acquire_existing_same types sector existing result st :
  same_store st (acquire_existing types sector existing result st).2.
Proof.
  revert existing result st.
  induction types as [|type rest IH]; intros existing result st.
  - apply same_store_refl.
  - rewrite acquire_existing_cons.
    destruct (Z.land type existing =? 0)%Z; [apply IH|].
    destruct (storageFindSector sector type false (index_ st)) as [infos|c].
    + destruct (first_local (paths_ st) infos) as [[info sp]|];
        (eapply same_store_trans; [|apply IH]); apply same_store_called.
    + eapply same_store_trans; [|apply IH].
      eapply same_store_trans; [apply same_store_called|apply same_store_log].
Qed.

Lemma acquire_allocate_same types sector proof can_seal allocate result st :
  same_store st
    (acquire_allocate types sector proof can_seal allocate result st).2.
Proof.
  revert allocate result st.
  induction types as [|type rest IH]; intros allocate result st.
  - apply same_store_refl.
  - rewrite acquire_allocate_cons.
    destruct (Z.land type allocate =? 0)%Z; [apply IH|].
    destruct (storageBestAlloc type proof can_seal (index_ st)) as [infos|c].
    + destruct (first_local (paths_ st) infos) as [[info sp]|].
      * eapply same_store_trans; [|apply IH]. apply same_store_called.
      * apply same_store_called.
    + apply same_store_called.
Qed.


(** The second loop succeeds exactly when every requested type of the list
    can be allocated; when it fails, the error is [NotFoundPath], or the
    error of the index's [storageBestAlloc]. *)
Lemma acquire_allocate_spec types sector proof can_seal :
  disjoint_bits types ->
  forall allocate result st,
    match (acquire_allocate types sector proof can_seal allocate result st).1
    with
    | success _ =>
        forall type, type ∈ types -> Z.land type allocate <> 0%Z ->
                     allocatable proof can_seal type st
    | failure e =>
        exists type,
          type ∈ types /\ Z.land type allocate <> 0%Z
          /\ ~ allocatable proof can_seal type st
          /\ ((e = StoreError NotFoundPath
               /\ exists infos,
                    storageBestAlloc type proof can_seal (index_ st)
                    = index_ok infos
                    /\ first_local (paths_ st) infos = None)
              \/ exists code,
                   storageBestAlloc type proof can_seal (index_ st)
                   = index_error code
                   /\ e = IndexError code)
    end.
Proof.
  induction types as [|t rest IH]; intros Hdis allocate result st.
  - simpl. intros type Hin. by apply elem_of_nil in Hin.
  - destruct Hdis as [Hhead Hrest].
    rewrite acquire_allocate_cons.
    destruct (Z.eqb_spec (Z.land t allocate) 0) as [Hzero|Hset].
    + specialize (IH Hrest allocate result st).
      destruct (acquire_allocate rest _ _ _ _ _ _).1 as [resp|e].
      * intros type Hin Hbit. apply elem_of_cons in Hin as [->|Hin]; [done|].
        by apply IH.
      * destruct IH as (type & Hin & Hbit & Hno & He).
        exists type. split; [by apply elem_of_cons; right|done].
    + destruct (storageBestAlloc t proof can_seal (index_ st))
        as [infos|code] eqn:Hbest.
      * destruct (first_local (paths_ st) infos) as [[info sp]|] eqn:Hloc.
        -- set (st1 := called (CallBestAlloc t) st).
           assert (Hbits : forall type, type ∈ rest ->
                     Z.land type (Z.lxor allocate t) = Z.land type allocate).
           { intros type Hin. rewrite land_lxor_distr.
             rewrite Forall_forall in Hhead.
             rewrite (Hhead type Hin). apply Z.lxor_0_r. }
           specialize (IH Hrest (Z.lxor allocate t)
                         (set_response t (sector_path sp t sector) (id info)
                            result) st1).
           destruct (acquire_allocate rest _ _ _ _ _ _).1 as [resp|e].
           ++ intros type Hin Hbit.
              apply elem_of_cons in Hin as [->|Hin].
              ** by exists infos, info, sp.
              ** apply (allocatable_same _ _ _ st st1);
                   [apply same_store_called|].
                 apply IH; [done|]. by rewrite Hbits.
           ++ destruct IH as (type & Hin & Hbit & Hno & He).
              exists type. split; [by apply elem_of_cons; right|].
              rewrite Hbits in Hbit by done. split; [done|]. split.
              ** intros Hal. apply Hno.
                 by apply (allocatable_same _ _ _ st st1);
                   [apply same_store_called|].
              ** done.
        -- simpl. exists t. split; [by apply elem_of_cons; left|].
           split; [done|]. split; [|left; split; [done|by exists infos]].
           intros (infos' & info & sp & Hb & Hl). congruence.
      * simpl. exists t. split; [by apply elem_of_cons; left|].
        split; [done|]. split; [|right; by exists code].
        intros (infos' & info & sp & Hb & Hl). congruence.
Qed.

(** The first loop leaves alone the entry of a type that nobody holds
    locally. *)
Lemma acquire_existing_keeps type sector st :
  ~ held_locally sector type st ->
  forall types existing result,
    let result' := (acquire_existing types sector existing result st).1.1 in
    getPathByType type (paths result') = getPathByType type (paths result)
    /\ getPathByType type (stores result')
       = getPathByType type (stores result).
Proof.
  intros Hno types. revert st Hno.
  induction types as [|t rest IH]; intros st Hno existing result; [done|].
  cbv zeta. rewrite acquire_existing_cons.
  destruct (Z.land t existing =? 0)%Z; [by apply IH|].
  destruct (storageFindSector sector t false (index_ st)) as [infos|c] eqn:Hf.
  - destruct (first_local (paths_ st) infos) as [[info sp]|] eqn:Hloc.
    + assert (t <> type) as Hne.
      { intros ->. apply Hno. by exists infos, info, sp. }
      edestruct (IH (called (CallFind sector t) st)) as [-> ->].
      { intros Hh. apply Hno.
        eapply held_locally_same; [apply same_store_called|done]. }
      simpl. by rewrite !getPathByType_set_other.
    + apply IH. intros Hh. apply Hno.
      eapply held_locally_same; [apply same_store_called|done].
  - apply IH. intros Hh. apply Hno.
    eapply held_locally_same; [|done].
    eapply same_store_trans; [apply same_store_called|apply same_store_log].
Qed.

(** The second loop leaves alone the entry of a type it was not asked for. *)
Lemma acquire_allocate_keeps type sector proof can_seal types :
  Forall (fun t => t = type \/ Z.land type t = 0%Z) types ->
  forall allocate result st resp,
    Z.land type allocate = 0%Z ->
    (acquire_allocate types sector proof can_seal allocate result st).1
    = success resp ->
    getPathByType type (paths resp) = getPathByType type (paths result)
    /\ getPathByType type (stores resp) = getPathByType type (stores result).
Proof.
  induction types as [|t rest IH]; intros Hap allocate result st resp Hbit.
  - simpl. by intros [= ->].
  - apply Forall_cons in Hap as [Ht Hap].
    rewrite acquire_allocate_cons.
    destruct (Z.eqb_spec (Z.land t allocate) 0) as [Hzero|Hset];
      [by apply IH|].
    destruct (storageBestAlloc t proof can_seal (index_ st)) as [infos|c];
      [|done].
    destruct (first_local (paths_ st) infos) as [[info sp]|]; [|done].
    intros Hrun.
    assert (t <> type) as Hne by (intros ->; done).
    destruct Ht as [?|Ht]; [done|].
    apply IH in Hrun as [-> ->]; [|done|].
    + simpl. by rewrite !getPathByType_set_other.
    + by rewrite land_lxor_distr, Hbit, Ht.
Qed.

(** [acquireSectorWithoutLock] is the second loop run after the first. *)
Lemma acquireSectorWithoutLock_unfold sector proof existing allocate can_seal
    st :
  acquireSectorWithoutLock sector proof existing allocate can_seal st =
  let found :=
    acquire_existing kSectorFileTypes sector existing emptyResponse st in
  acquire_allocate kSectorFileTypes sector proof can_seal allocate
    found.1.1 found.2.
Proof.
  unfold acquireSectorWithoutLock.
  by destruct (acquire_existing _ _ _ _ _) as [[result existing'] st1].
Qed.

Lemma acquireSectorWithoutLock_same sector proof existing allocate can_seal
    st :
  same_store st
    (acquireSectorWithoutLock sector proof existing allocate can_seal st).2.
Proof.
  rewrite acquireSectorWithoutLock_unfold. cbv zeta.
  eapply same_store_trans;
    [apply acquire_existing_same|apply acquire_allocate_same].
Qed.

(** [acquireSectorWithoutLock] itself never answers [FindAndAllocate]. *)
Lemma acquireSectorWithoutLock_error sector proof existing allocate can_seal
    st e :
  (acquireSectorWithoutLock sector proof existing allocate can_seal st).1
  = failure e ->
  e = StoreError NotFoundPath \/ exists code, e = IndexError code.
Proof.
  rewrite acquireSectorWithoutLock_unfold. cbv zeta. intros Hrun.
  pose proof (acquire_allocate_spec kSectorFileTypes sector proof can_seal
                kSectorFileTypes_disjoint allocate
                (acquire_existing kSectorFileTypes sector existing
                   emptyResponse st).1.1
                (acquire_existing kSectorFileTypes sector existing
                   emptyResponse st).2) as Hspec.
  rewrite Hrun in Hspec.
  destruct Hspec as (type & _ & _ & _ & [[-> _]|(code & _ & ->)]); eauto.
Qed.


Lemma acquireSector_disjoint sector proof existing allocate can_seal st :
  Z.land existing allocate = 0%Z ->
  acquireSector sector proof existing allocate can_seal st
  = acquireSectorWithoutLock sector proof existing allocate can_seal st.
Proof.
  intros Hdis. unfold acquireSector.
  by rewrite (proj2 (masks_disjoint_iff existing allocate) Hdis).
Qed.

(** C8. Whenever [existing] and [allocate] share a bit, [acquireSector]
    fails with [FindAndAllocate] and leaves the state as it was: no call on
    the index is made, nothing is looked up or allocated.  When the two masks
    are disjoint the call never fails with [FindAndAllocate]. *)
Theorem acquireSector_find_and_allocate sector proof existing allocate
    can_seal st :
  (Z.land existing allocate <> 0%Z ->
   acquireSector sector proof existing allocate can_seal st
   = (failure (StoreError FindAndAllocate), st))
  /\ (Z.land existing allocate = 0%Z ->
      (acquireSector sector proof existing allocate can_seal st).1
      <> failure (StoreError FindAndAllocate)).
Proof.
  unfold acquireSector.
  destruct (Z.lor existing allocate =? Z.lxor existing allocate)%Z eqn:Htest.
  - apply masks_disjoint_iff in Htest. split; [done|]. intros _ Hrun.
    apply acquireSectorWithoutLock_error in Hrun as [?|[code ?]]; done.
  - split; [done|]. intros Hdis. apply masks_disjoint_iff in Hdis. congruence.
Qed.

(** C10, as the code has it.  With disjoint masks, a bit of [existing] whose
    file no storage registered here holds (the index lookup fails, or none of
    the storages it lists has a path here) does not make [acquireSector]
    fail: the call succeeds exactly when every bit of [allocate] has a
    candidate registered here, and the response then has no path for that
    type.  A failure comes from a bit of [allocate] only: it is
    [NotFoundPath] when the index gave candidates none of which is registered
    here, and the error of the index when [storageBestAlloc] itself
    failed. *)
Theorem acquireSector_missing_existing sector proof existing allocate
    can_seal st :
  Z.land existing allocate = 0%Z ->
  lenient_on_existing sector proof existing allocate can_seal st.
Proof.
  intros Hdis. unfold lenient_on_existing.
  rewrite acquireSector_disjoint, acquireSectorWithoutLock_unfold by done.
  cbv zeta.
  set (found := acquire_existing kSectorFileTypes sector existing
                  emptyResponse st).
  assert (Hsame : same_store st found.2) by apply acquire_existing_same.
  pose proof (acquire_allocate_spec kSectorFileTypes sector proof can_seal
                kSectorFileTypes_disjoint allocate found.1.1 found.2)
    as Hspec.
  split; [|split].
  - destruct (acquire_allocate _ _ _ _ _ _ _).1 as [resp|e]; simpl.
    + split; [|done]. intros _ type Hin Hbit.
      apply allocatable_room_here, (allocatable_same _ _ _ _ _ Hsame).
      by apply Hspec.
    + split; [done|]. intros Hall.
      destruct Hspec as (type & Hin & Hbit & Hno & _). destruct Hno.
      apply (allocatable_same _ _ _ _ _ Hsame), allocatable_room_here.
      by apply Hall.
  - intros e He. rewrite He in Hspec.
    destruct Hspec as (type & Hin & Hbit & _ & Herr).
    exists type. split; [done|]. split; [done|].
    destruct Hsame as (Hi & Hp & _). rewrite Hi, Hp in Herr.
    destruct Herr as [[-> (infos & Hbest & Hnone)] | (code & Hbest & ->)].
    + left. split; [done|]. exists infos. split; [done|].
      by apply first_local_none_registered.
    + right. by exists code.
  - intros type resp Hin Hbit Hno Hrun.
    assert (Z.land type allocate = 0%Z) as Hfree.
    { destruct (kSectorFileTypes_single_bit type existing Hin) as [?|Hex];
        [done|].
      by rewrite <- Hex, <- Z.land_assoc, Hdis, Z.land_0_r. }
    apply (acquire_allocate_keeps type _ _ _ _ (kSectorFileTypes_apart _ Hin))
      in Hrun as [-> ->]; [|done].
    subst found.
    destruct (acquire_existing_keeps type sector st
                (fun H => Hno (proj1 (held_locally_stored_here _ _ _) H))
                kSectorFileTypes existing emptyResponse) as [-> ->].
    apply kSectorFileTypes_cases in Hin. by destruct Hin as [-> | [-> | ->]].
Qed.

End Acquire.


Section OpenPath.

Context {I : Type} {index_impl : SectorIndex I}.

Implicit Types (st : State I) (sector : SectorId) (type : SectorFileType).

Lemma scan_frame_refl st : scan_frame st st.
Proof. by repeat split. Qed.

Lemma scan_frame_trans st1 st2 st3 :
  scan_frame st1 st2 -> scan_frame st2 st3 -> scan_frame st1 st3.
Proof.
  intros (Hp & Hu & Hm & Hd) (Hp' & Hu' & Hm' & Hd').
  repeat split; [congruence..|]. intros dir entries Hdir. by apply Hd', Hd.
Qed.

Lemma index_attach_frame info stat st :
  scan_frame st (index_attach info stat st).2.
Proof.
  unfold index_attach. destruct (storageAttach _ _ _). by repeat split.
Qed.

Lemma index_declare_frame storage sector type st :
  scan_frame st (index_declare storage sector type st).2.
Proof.
  unfold index_declare. destruct (storageDeclareSector _ _ _ _).
  by repeat split.
Qed.

Lemma declare_entry_frame storage type filename st :
  scan_frame st (declare_entry storage type filename st).2.
Proof.
  unfold declare_entry, bind, lift.
  destruct (parseSectorId filename); [apply index_declare_frame|].
  apply scan_frame_refl.
Qed.

Lemma for_each_frame {A} (body : A -> M unit) (l : list A) :
  (forall x st, scan_frame st (body x st).2) ->
  forall st, scan_frame st (for_each body l st).2.
Proof.
  intros Hbody. induction l as [|x rest IH]; intros st.
  - apply scan_frame_refl.
  - simpl. unfold bind. specialize (Hbody x st).
    destruct (body x st) as [[[]|e] st1]; [|done].
    eapply scan_frame_trans; [exact Hbody|apply IH].
Qed.

Lemma scan_type_frame root storage type st :
  scan_frame st (scan_type root storage type st).2.
Proof.
  unfold scan_type.
  destruct (Disk.exists_ _ (disk st)) eqn:Hex; simpl negb; cbv iota.
  - apply for_each_frame. intros. apply declare_entry_frame.
  - unfold Disk.create_directories. rewrite Hex. simpl.
    repeat split. intros dir entries Hdir. simpl.
    rewrite lookup_insert_ne; [done|]. intros <-.
    unfold Disk.exists_ in Hex. apply bool_decide_eq_false in Hex.
    apply Hex. by eexists.
Qed.

(** The two ways a directory scan ends. *)
Lemma for_each_app {A} (body : A -> M unit) (l1 l2 : list A) st :
  for_each body (l1 ++ l2) st =
  match for_each body l1 st with
  | (success _, st1) => for_each body l2 st1
  | (failure e, st1) => (failure e, st1)
  end.
Proof.
  revert st. induction l1 as [|x rest IH]; intros st; [done|].
  simpl. unfold bind. destruct (body x st) as [[[]|e] st1]; [apply IH|done].
Qed.

Lemma for_each_fails {A} (body : A -> M unit) (l : list A) (x : A) :
  x ∈ l ->
  (forall st, has_error (body x st).1 = true) ->
  forall st, has_error (for_each body l st).1 = true.
Proof.
  intros Hin Hbad. induction l as [|y rest IH]; intros st.
  - by apply elem_of_nil in Hin.
  - simpl. unfold bind. apply elem_of_cons in Hin as [<-|Hin].
    + specialize (Hbad st). by destruct (body x st) as [[[]|e] st1].
    + destruct (body y st) as [[[]|e] st1]; [by apply IH|done].
Qed.

(** A name the pattern does not match is refused before anything else is
    done with it. *)
Lemma declare_entry_no_match storage type filename st :
  regex_match filename = None ->
  declare_entry storage type filename st
  = (failure (StoreError InvalidSectorName), st).
Proof.
  intros Hno. unfold declare_entry, bind, lift, parseSectorId.
  by rewrite Hno.
Qed.

(** [openPath] on a storage that is not registered yet. *)
Lemma openPath_fresh path st meta :
  Disk.meta_files (disk st) !! path = Some (Disk.MetaOk meta) ->
  paths_ st !! meta_id meta = None ->
  openPath path st =
  match Disk.getStat path (disk st) with
  | failure e => (failure e, st)
  | success stat =>
      match index_attach {| id := meta_id meta; urls := urls_ st;
                            weight := meta_weight meta;
                            can_seal := meta_can_seal meta;
                            can_store := meta_can_store meta |} stat st with
      | (failure e, st1) => (failure e, st1)
      | (success _, st1) =>
          match for_each (scan_type path (meta_id meta)) kSectorFileTypes st1
          with
          | (failure e, st2) => (failure e, st2)
          | (success _, st2) =>
              (success tt, set_paths (<[meta_id meta := path]> (paths_ st2)) st2)
          end
      end
  end.
Proof.
  intros Hmeta Hfresh. unfold openPath. rewrite Hmeta.
  rewrite bool_decide_eq_false_2 by (rewrite Hfresh; by intros [? ?]).
  unfold bind at 1, lift. destruct (Disk.getStat path (disk st)); [|done].
  unfold bind at 1. destruct (index_attach _ _ st) as [[[]|e] st1]; [|done].
  unfold bind at 1. by destruct (for_each _ _ st1) as [[[]|e] st2].
Qed.

(** When [openPath] succeeds the storage of the metadata file is registered
    under the path, and the metadata file is as it was. *)
Lemma openPath_success path st :
  (openPath path st).1 = success tt ->
  exists meta,
    Disk.meta_files (disk (openPath path st).2) !! path
    = Some (Disk.MetaOk meta)
    /\ paths_ (openPath path st).2 !! meta_id meta = Some path.
Proof.
  destruct (Disk.meta_files (disk st) !! path) as [[|e|meta]|] eqn:Hmeta;
    try (unfold openPath; rewrite Hmeta; discriminate).
  destruct (paths_ st !! meta_id meta) as [p|] eqn:Hreg.
  { unfold openPath. rewrite Hmeta.
    rewrite bool_decide_eq_true_2 by (rewrite Hreg; by eexists). discriminate. }
  rewrite (openPath_fresh path st meta Hmeta Hreg).
  destruct (Disk.getStat path (disk st)) as [stat|e]; [|discriminate].
  pose proof (index_attach_frame
                {| id := meta_id meta; urls := urls_ st;
                   weight := meta_weight meta;
                   can_seal := meta_can_seal meta;
                   can_store := meta_can_store meta |} stat st) as Hattach.
  destruct (index_attach _ stat st) as [[[]|e] st1]; [|discriminate].
  pose proof (for_each_frame (scan_type path (meta_id meta)) kSectorFileTypes
                (fun x st => scan_type_frame path (meta_id meta) x st) st1)
    as Hscan.
  destruct (for_each _ kSectorFileTypes st1) as [[[]|e] st2]; [|discriminate].
  intros _. exists meta. simpl in *.
  destruct Hattach as (_ & _ & Hm1 & _), Hscan as (_ & _ & Hm2 & _).
  split; [by rewrite Hm2, Hm1|]. apply lookup_insert_eq.
Qed.

(** C9. After a call of [openPath] that succeeded, a second call with the
    same path returns [DuplicateStorage], and its final state is the state
    the first call left: registry, index, disk, log and record of index
    calls are all untouched. *)
Theorem openPath_twice path st :
  (openPath path st).1 = success tt ->
  openPath path (openPath path st).2
  = (failure (StoreError DuplicateStorage), (openPath path st).2).
Proof.
  intros Hfirst. apply openPath_success in Hfirst as (meta & Hmeta & Hreg).
  unfold openPath at 1. rewrite Hmeta.
  by rewrite bool_decide_eq_true_2 by (rewrite Hreg; by eexists).
Qed.


Lemma for_each_error {A} (body : A -> M unit) (P : Error -> Prop) :
  (forall x st e, (body x st).1 = failure e -> P e) ->
  forall l st e, (for_each body l st).1 = failure e -> P e.
Proof.
  intros Hbody l. induction l as [|x rest IH]; intros st e; [done|].
  simpl. unfold bind. specialize (Hbody x st).
  destruct (body x st) as [[[]|e'] st1]; [apply IH|].
  simpl. intros [= <-]. by apply Hbody.
Qed.

Lemma parseSectorId_error filename e :
  parseSectorId filename = failure e -> e = StoreError InvalidSectorName.
Proof.
  unfold parseSectorId.
  destruct (regex_match filename) as [[sm1 sm2]|]; [|congruence].
  destruct (lexical_cast sm1), (lexical_cast sm2); congruence.
Qed.

Lemma directory_entries_elem filename dir (d : Disk.t) :
  filename ∈ Disk.directory_entries dir d ->
  exists entries, Disk.dirs d !! dir = Some entries /\ filename ∈ entries.
Proof.
  unfold Disk.directory_entries.
  destruct (Disk.dirs d !! dir) as [entries|]; simpl; [by eexists|].
  intros Hin. by apply elem_of_nil in Hin.
Qed.

(** A scan that meets a name the pattern does not match fails. *)
Lemma scan_fails root storage type filename types :
  type ∈ types -> regex_match filename = None ->
  forall st,
    filename ∈ Disk.directory_entries (Disk.join root (toString type)) (disk st) ->
    has_error (for_each (scan_type root storage) types st).1 = true.
Proof.
  intros Hin Hno. induction types as [|t rest IH]; intros st Hfile.
  - by apply elem_of_nil in Hin.
  - simpl. unfold bind.
    pose proof (scan_type_frame root storage t st) as Hframe.
    destruct (scan_type root storage t st) as [[[]|e] st1] eqn:Hscan; [|done].
    apply directory_entries_elem in Hfile as (entries & Hdir & Hfile).
    apply elem_of_cons in Hin as [<-|Hin].
    + exfalso.
      assert (scan_type root storage type st
              = for_each (declare_entry storage type)
                  (Disk.directory_entries (Disk.join root (toString type))
                     (disk st)) st) as Hexists.
      { unfold scan_type, Disk.exists_.
        by rewrite bool_decide_eq_true_2 by (rewrite Hdir; by eexists). }
      rewrite Hexists in Hscan.
      assert (has_error
                (for_each (declare_entry storage type)
                   (Disk.directory_entries (Disk.join root (toString type))
                      (disk st)) st).1 = true) as Hbad.
      { apply (for_each_fails _ _ filename).
        - unfold Disk.directory_entries. by rewrite Hdir.
        - intros st'. by rewrite declare_entry_no_match. }
      by rewrite Hscan in Hbad.
    + apply IH; [done|]. destruct Hframe as (_ & _ & _ & Hdirs).
      unfold Disk.directory_entries. simpl in Hdirs.
      by rewrite (Hdirs _ _ Hdir).
Qed.

Lemma scan_type_error root storage type st e :
  (forall s sec t i, (storageDeclareSector s sec t i).1 = index_ok tt) ->
  (scan_type root storage type st).1 = failure e ->
  e = StoreError InvalidSectorName.
Proof.
  intros Hdecl. unfold scan_type.
  destruct (Disk.exists_ _ (disk st)) eqn:Hex; simpl negb; cbv iota.
  - intros Hrun.
    apply (for_each_error (declare_entry storage type)
             (fun e => e = StoreError InvalidSectorName)) in Hrun; [done|].
    clear st Hex Hrun. intros filename st e'.
    unfold declare_entry, bind, lift.
    destruct (parseSectorId filename) as [sector|e0] eqn:Hparse.
    + unfold index_declare. specialize (Hdecl storage sector type (index_ st)).
      destruct (storageDeclareSector _ _ _ _) as [r i]. simpl in Hdecl.
      by subst r.
    + simpl. intros [= <-]. by apply parseSectorId_error in Hparse.
  - unfold Disk.create_directories. by rewrite Hex.
Qed.

(** C4, as the code has it.  A file name of a sector-type directory that the
    pattern [s-t0<miner>-<sector>] does not match is never declared: it is
    refused before any call on the index.  It is not skipped: the scan of the
    directory stops at it with [InvalidSectorName], after the names before it
    were handled and before the names after it are looked at; [openPath]
    fails and does not register the path, and the failure is
    [InvalidSectorName] when the index and the disk refuse nothing else. *)
Theorem openPath_invalid_name path st meta type filename :
  Disk.meta_files (disk st) !! path = Some (Disk.MetaOk meta) ->
  paths_ st !! meta_id meta = None ->
  type ∈ kSectorFileTypes ->
  filename
    ∈ Disk.directory_entries (Disk.join path (toString type)) (disk st) ->
  regex_match filename = None ->
  (forall st',
     declare_entry (meta_id meta) type filename st'
     = (failure (StoreError InvalidSectorName), st'))
  /\ (forall before after st',
        (for_each (declare_entry (meta_id meta) type) before st').1
        = success tt ->
        for_each (declare_entry (meta_id meta) type)
          (before ++ filename :: after) st'
        = (failure (StoreError InvalidSectorName),
           (for_each (declare_entry (meta_id meta) type) before st').2))
  /\ has_error (openPath path st).1 = true
  /\ paths_ (openPath path st).2 = paths_ st
  /\ (accepting path st ->
      (openPath path st).1 = failure (StoreError InvalidSectorName)).
Proof.
  intros Hmeta Hfresh Hin Hfile Hno.
  split; [intros; by apply declare_entry_no_match|].
  split.
  { intros before after st' Hbefore. rewrite for_each_app.
    destruct (for_each _ before st') as [[[]|e] st1]; [|done].
    simpl. unfold bind. by rewrite declare_entry_no_match. }
  rewrite (openPath_fresh path st meta Hmeta Hfresh).
  destruct (Disk.getStat path (disk st)) as [stat|e] eqn:Hstat.
  2:{ repeat split; [done..|]. intros ([fs Hfs] & _).
      unfold Disk.getStat in Hstat. by rewrite Hfs in Hstat. }
  pose proof (index_attach_frame
                {| id := meta_id meta; urls := urls_ st;
                   weight := meta_weight meta;
                   can_seal := meta_can_seal meta;
                   can_store := meta_can_store meta |} stat st) as Hattach.
  destruct (index_attach _ stat st) as [[[]|e] st1] eqn:Hatt.
  2:{ simpl in Hattach. destruct Hattach as (Hp & _).
      repeat split; [done..|]. intros (_ & Hacc & _).
      unfold index_attach in Hatt.
      specialize (Hacc {| id := meta_id meta; urls := urls_ st;
                          weight := meta_weight meta;
                          can_seal := meta_can_seal meta;
                          can_store := meta_can_store meta |} stat (index_ st)).
      destruct (storageAttach _ _ _) as [r i]. simpl in Hacc. by subst r. }
  simpl in Hattach.
  pose proof (for_each_frame (scan_type path (meta_id meta)) kSectorFileTypes
                (fun x st => scan_type_frame path (meta_id meta) x st) st1)
    as Hscan.
  pose proof (scan_fails path (meta_id meta) type filename kSectorFileTypes
                Hin Hno st1) as Hbad.
  pose proof (for_each_error (scan_type path (meta_id meta))
                (fun e => (forall s sec t i,
                             (storageDeclareSector s sec t i).1 = index_ok tt)
                          -> e = StoreError InvalidSectorName)
                (fun x st e He Hd => scan_type_error _ _ _ _ _ Hd He)
                kSectorFileTypes st1) as Herr.
  destruct (for_each _ kSectorFileTypes st1) as [[[]|e] st2].
  - exfalso. enough (false = true) by done. apply Hbad.
    apply directory_entries_elem in Hfile as (entries & Hdir & Hfile).
    destruct Hattach as (_ & _ & _ & Hdirs).
    unfold Disk.directory_entries. by rewrite (Hdirs _ _ Hdir).
  - simpl in *. split; [done|]. split.
    + destruct Hattach as (Hp1 & _), Hscan as (Hp2 & _). congruence.
    + intros (_ & _ & Hdecl). f_equal. by apply Herr.
Qed.

End OpenPath.


Section MoveStorage.

Context {I : Type} {index_impl : SectorIndex I}.

Implicit Types (st : State I) (sector : SectorId) (type : SectorFileType).

(** A rename that fails changes nothing on the disk. *)
Lemma rename_failed_unchanged from to (d d' : Disk.t) :
  Disk.rename from to d = (true, d') -> d' = d.
Proof.
  unfold Disk.rename.
  repeat match goal with
         | |- context [match ?x with _ => _ end] => destruct x
         end; congruence.
Qed.

Lemma set_disk_same st : set_disk (disk st) st = st.
Proof. by destruct st. Qed.

(** C5, as the code has it.  For a type bit that [moveStorage] moves (source
    and destination storages differ and the source is not [can_store]) the
    three steps are taken one after the other, not as a transaction: the
    source declaration is dropped first, then the file is renamed, and the
    destination is declared only after a rename that succeeded.  A rename
    that fails returns [CannotMoveSector] at once: the index stays as the
    drop left it, with no declaration made for the destination, and the disk
    is unchanged. *)
Theorem move_type_drop_rename_declare sector types src dest type st
    source_storage_id dest_storage_id sst dst index_dropped
    source_path dest_path :
  Z.land types type <> 0%Z ->
  getPathByType type (stores src) = success source_storage_id ->
  getStorageInfo source_storage_id (index_ st) = index_ok sst ->
  getPathByType type (stores dest) = success dest_storage_id ->
  getStorageInfo dest_storage_id (index_ st) = index_ok dst ->
  id sst <> id dst ->
  can_store sst = false ->
  storageDropSector source_storage_id sector type (index_ st)
  = (index_ok tt, index_dropped) ->
  getPathByType type (paths src) = success source_path ->
  getPathByType type (paths dest) = success dest_path ->
  let dropped :=
    set_index index_dropped
      (called (CallDrop source_storage_id sector type)
         (called (CallGetInfo dest_storage_id)
            (called (CallGetInfo source_storage_id) st))) in
  match Disk.rename source_path dest_path (disk st) with
  | (true, d) =>
      d = disk st
      /\ move_type sector types src dest type st
         = (failure (StoreError CannotMoveSector), dropped)
  | (false, d) =>
      move_type sector types src dest type st
      = index_declare dest_storage_id sector type (set_disk d dropped)
  end.
Proof.
  intros Hbit Hsrc Hsst Hdest Hdst Hids Hstore Hdrop Hsp Hdp dropped.
  assert (move_type sector types src dest type st
          = (TRY_ fs_rename source_path dest_path IN
             index_declare dest_storage_id sector type) dropped) as Hrun.
  { unfold move_type.
    rewrite (proj2 (Z.eqb_neq _ _) Hbit), Hsrc, Hdest, Hsp, Hdp.
    unfold bind at 1, lift. unfold bind at 1, index_get_info at 1.
    rewrite Hsst. simpl from_index. cbv iota.
    unfold bind at 1. unfold bind at 1, index_get_info at 1. simpl index_.
    rewrite Hdst. simpl from_index. cbv iota.
    rewrite bool_decide_eq_false_2, Hstore by done.
    unfold bind at 1, index_drop at 1. simpl index_. rewrite Hdrop.
    simpl from_index. cbv iota.
    unfold bind at 1. unfold bind at 1. done. }
  rewrite Hrun. unfold bind, fs_rename. simpl disk.
  destruct (Disk.rename source_path dest_path (disk st)) as [[|] d] eqn:Hren.
  - apply rename_failed_unchanged in Hren as ->. split; [done|].
    by rewrite <- (set_disk_same dropped) at 2.
  - done.
Qed.

End MoveStorage.

End LocalStoreFacts.
(** ** The local store, run on concrete stores *)

Module LocalStoreRuns.

Import LocalStore LocalStoreFacts Scenario.

Example parseSectorId_sector_file :
  parseSectorId "s-t01000-7" = success sector7.
Proof. reflexivity. Qed.

Example parseSectorId_stray_entry :
  parseSectorId "lost+found" = failure (StoreError InvalidSectorName).
Proof. reflexivity. Qed.

(** The pattern matches, the number does not fit 64 bits. *)
Example parseSectorId_too_large :
  regex_match "s-t01000-18446744073709551616" <> None
  /\ parseSectorId "s-t01000-18446744073709551616"
     = failure (StoreError InvalidSectorName).
Proof. split; [discriminate|reflexivity]. Qed.

Example sectorName_sector7 : sectorName sector7 = "s-t01000-7".
Proof. reflexivity. Qed.

(** The [openPath] scenario of the design document. *)
Example openPath_scan_s1 :
  (openPath "/tmp/s1" (fresh disk_s1)).1 = success tt
  /\ paths_ opened_s1 !! "s1" = Some "/tmp/s1"
  /\ id <$> default [] (match IndexImpl.find sector7 FTSealed false
                                (index_ opened_s1) with
                        | index_ok l => Some l
                        | index_error _ => None
                        end) = ["s1"]
  /\ IndexImpl.holds "s1" sector7 FTUnsealed (index_ opened_s1) = true
  /\ IndexImpl.holds "s1" sector7 FTCache (index_ opened_s1) = true.
Proof. vm_compute. repeat split. Qed.

(** The allocation scenario of the design document. *)
Example acquireSector_all_three :
  (acquireSector sector7 StackedDRG2KiBSeal FTCache
     (Z.lor FTUnsealed FTSealed) true opened_s1).1
  = success
      {| paths :=
           {| paths_id := {| miner := 0; sector := 0 |};
              unsealed := "/tmp/s1/unsealed/s-t01000-7";
              sealed := "/tmp/s1/sealed/s-t01000-7";
              cache := "/tmp/s1/cache/s-t01000-7" |};
         stores :=
           {| paths_id := {| miner := 0; sector := 0 |};
              unsealed := "s1"; sealed := "s1"; cache := "s1" |} |}.
Proof. vm_compute. reflexivity. Qed.

(** Witness of C8: [existing = allocate = unsealed] is refused and nothing is
    touched; [existing = cache], [allocate = unsealed | sealed] is not. *)
Lemma acquireSector_find_and_allocate_witness :
  acquireSector sector7 StackedDRG2KiBSeal FTUnsealed FTUnsealed true opened_s1
  = (failure (StoreError FindAndAllocate), opened_s1)
  /\ (acquireSector sector7 StackedDRG2KiBSeal FTCache
        (Z.lor FTUnsealed FTSealed) true opened_s1).1
     <> failure (StoreError FindAndAllocate).
Proof.
  split.
  - apply (proj1 (acquireSector_find_and_allocate sector7 StackedDRG2KiBSeal
                    FTUnsealed FTUnsealed true opened_s1)).
    vm_compute. discriminate.
  - apply (proj2 (acquireSector_find_and_allocate sector7 StackedDRG2KiBSeal
                    FTCache (Z.lor FTUnsealed FTSealed) true opened_s1)).
    vm_compute. reflexivity.
Defined.

(** Witness of C10: the sealed file of sector 9 is asked for as existing and
    is declared nowhere; the unsealed file is to be allocated. *)
Lemma acquireSector_missing_existing_witness :
  Z.land FTSealed FTUnsealed = 0%Z
  /\ lenient_on_existing sector9 StackedDRG2KiBSeal FTSealed FTUnsealed true
       opened_s1.
Proof.
  split; [reflexivity|].
  apply (acquireSector_missing_existing sector9 StackedDRG2KiBSeal FTSealed
           FTUnsealed true opened_s1).
  reflexivity.
Defined.

(** Counterexample to C10 as stated: the masks are disjoint and the index
    cannot be reached.  The call for an unsealed file to allocate fails, and
    not with [NotFoundPath]: the error of [storageBestAlloc] is returned as
    it is.  The failed lookup of the existing sealed file alone is passed
    over, as the claim says. *)
Lemma acquireSector_index_error_not_NotFoundPath :
  Z.land FTSealed FTUnsealed = 0%Z
  /\ (acquireSector sector9 StackedDRG2KiBSeal FTSealed FTUnsealed true
        MoreScenario.unreachable).1
     = failure (IndexError 7)
  /\ (acquireSector sector9 StackedDRG2KiBSeal FTSealed FTUnsealed true
        MoreScenario.unreachable).1
     <> failure (StoreError NotFoundPath)
  /\ (acquireSector sector9 StackedDRG2KiBSeal FTSealed FTNone true
        MoreScenario.unreachable).1
     = success emptyResponse.
Proof. vm_compute. repeat split. discriminate. Qed.

Example acquireSector_missing_existing_run :
  (acquireSector sector9 StackedDRG2KiBSeal FTSealed FTUnsealed true
     opened_s1).1
  = success
      {| paths :=
           {| paths_id := {| miner := 0; sector := 0 |};
              unsealed := "/tmp/s1/unsealed/s-t01000-9";
              sealed := ""; cache := "" |};
         stores :=
           {| paths_id := {| miner := 0; sector := 0 |};
              unsealed := "s1"; sealed := ""; cache := "" |} |}.
Proof. vm_compute. reflexivity. Qed.

(** Nothing can be allocated on a store without storages. *)
Example acquireSector_not_found_path :
  (acquireSector sector9 StackedDRG2KiBSeal FTSealed FTUnsealed true
     (fresh disk_s1)).1
  = failure (StoreError NotFoundPath).
Proof. vm_compute. reflexivity. Qed.

(** Witness of C9. *)
Lemma openPath_twice_witness :
  (openPath "/tmp/s1" (fresh disk_s1)).1 = success tt
  /\ openPath "/tmp/s1" opened_s1
     = (failure (StoreError DuplicateStorage), opened_s1).
Proof.
  split; [vm_compute; reflexivity|].
  apply (openPath_twice "/tmp/s1" (fresh disk_s1)).
  vm_compute. reflexivity.
Defined.

(** Counterexample to C4 as stated: with [lost+found] between two sector
    files of [sealed/], [openPath] does not succeed; the sector file that
    comes after the stray entry is not declared although its name matches,
    and the storage is not registered. *)
Lemma openPath_stray_entry_fails :
  regex_match "lost+found" = None
  /\ regex_match "s-t01000-8" <> None
  /\ (openPath "/tmp/s1" (fresh disk_stray)).1
     = failure (StoreError InvalidSectorName)
  /\ IndexImpl.holds "s1" sector8 FTSealed
       (index_ (openPath "/tmp/s1" (fresh disk_stray)).2) = false
  /\ IndexImpl.holds "s1" sector7 FTCache
       (index_ (openPath "/tmp/s1" (fresh disk_stray)).2) = false
  /\ paths_ (openPath "/tmp/s1" (fresh disk_stray)).2 !! "s1" = None
  /\ logger_ (openPath "/tmp/s1" (fresh disk_stray)).2 = [].
Proof. vm_compute. repeat split; discriminate. Qed.

(** Witness of the amended C4, on the same disk. *)
Lemma openPath_invalid_name_witness :
  has_error (openPath "/tmp/s1" (fresh disk_stray)).1 = true
  /\ paths_ (openPath "/tmp/s1" (fresh disk_stray)).2
     = paths_ (fresh disk_stray).
Proof.
  pose proof (openPath_invalid_name "/tmp/s1" (fresh disk_stray) meta_s1
                FTSealed "lost+found") as H.
  destruct H as (_ & _ & Hfail & Hpaths & _).
  - vm_compute. reflexivity.
  - vm_compute. reflexivity.
  - unfold kSectorFileTypes. apply elem_of_cons. right.
    apply elem_of_cons. by left.
  - vm_compute. apply elem_of_cons. right. apply elem_of_cons. by left.
  - reflexivity.
  - split; [exact Hfail|exact Hpaths].
Defined.

(** Counterexample to C5 as stated: the rename into the missing directory
    fails; [moveStorage] returns [CannotMoveSector], the file is where it
    was, and the index no longer knows it at the source nor at the
    destination. *)
Lemma moveStorage_failed_rename_loses_sector :
  can_store info_fast = false
  /\ IndexImpl.holds "fast" sector7 FTSealed (index_ two_storages) = true
  /\ (moveStorage sector7 StackedDRG2KiBSeal FTSealed two_storages).1
     = failure (StoreError CannotMoveSector)
  /\ disk (moveStorage sector7 StackedDRG2KiBSeal FTSealed two_storages).2
     = disk two_storages
  /\ IndexImpl.holds "fast" sector7 FTSealed
       (index_ (moveStorage sector7 StackedDRG2KiBSeal FTSealed
                  two_storages).2) = false
  /\ IndexImpl.holds "slow" sector7 FTSealed
       (index_ (moveStorage sector7 StackedDRG2KiBSeal FTSealed
                  two_storages).2) = false.
Proof. vm_compute. repeat split. Qed.

(** When the rename succeeds the sector ends up declared at the
    destination only. *)
Example moveStorage_moves :
  (moveStorage sector7 StackedDRG2KiBSeal FTSealed two_storages_ready).1
  = success tt
  /\ IndexImpl.declared
       (index_ (moveStorage sector7 StackedDRG2KiBSeal FTSealed
                  two_storages_ready).2)
     = [("slow", sector7, FTSealed)]
  /\ Disk.dirs
       (disk (moveStorage sector7 StackedDRG2KiBSeal FTSealed
                two_storages_ready).2) !! "/mnt/slow/sealed"
     = Some ["s-t01000-7"].
Proof. vm_compute. repeat split. Qed.

(** Witness of the amended C5: the loop body on the sealed file, with the
    responses [moveStorage] computes for [two_storages]. *)
Lemma move_type_drop_rename_declare_witness :
  move_type sector7 FTSealed
    (set_response FTSealed "/mnt/fast/sealed/s-t01000-7" "fast" emptyResponse)
    (set_response FTSealed "/mnt/slow/sealed/s-t01000-7" "slow" emptyResponse)
    FTSealed two_storages
  = (failure (StoreError CannotMoveSector),
     set_index
       {| IndexImpl.storages := IndexImpl.storages (index_ two_storages);
          IndexImpl.declared := [] |}
       (called (CallDrop "fast" sector7 FTSealed)
          (called (CallGetInfo "slow")
             (called (CallGetInfo "fast") two_storages)))).
Proof.
  pose proof (move_type_drop_rename_declare sector7 FTSealed
                (set_response FTSealed "/mnt/fast/sealed/s-t01000-7" "fast"
                   emptyResponse)
                (set_response FTSealed "/mnt/slow/sealed/s-t01000-7" "slow"
                   emptyResponse)
                FTSealed two_storages "fast" "slow" info_fast info_slow
                {| IndexImpl.storages :=
                     IndexImpl.storages (index_ two_storages);
                   IndexImpl.declared := [] |}
                "/mnt/fast/sealed/s-t01000-7" "/mnt/slow/sealed/s-t01000-7")
    as H.
  cbv zeta in H.
  replace (Disk.rename "/mnt/fast/sealed/s-t01000-7"
             "/mnt/slow/sealed/s-t01000-7" (disk two_storages))
    with (true, disk two_storages) in H by (vm_compute; reflexivity).
  apply H; try reflexivity; discriminate.
Defined.

End LocalStoreRuns.
(** ** The provider and its deal FSM *)

Module ProviderFacts.

Import Provider.

Section Table.

Context (api_ : Api).

(** The from-set of every transition of the table, [fromAny] included, is
    free of terminal states. *)
Lemma from_states_not_terminal :
  Forall (fun tr => Forall (fun s => is_terminal s = false) (from_states tr))
    (makeFSMTransitions api_).
Proof.
  unfold makeFSMTransitions.
  repeat (apply Forall_cons_2 || apply Forall_nil_2);
    vm_compute; repeat constructor.
Qed.

Lemma fsm_transition_not_terminal e s tr :
  fsm_transition api_ e s = Some tr -> is_terminal s = false.
Proof.
  unfold fsm_transition.
  destruct (List.find _ _) as [tr'|] eqn:Hfind; [|done].
  destruct (bool_decide (s ∈ from_states tr')) eqn:Hfrom; [|done].
  intros _. apply bool_decide_eq_true in Hfrom.
  apply find_some in Hfind as [Hin _].
  pose proof from_states_not_terminal as Hall.
  rewrite Forall_forall in Hall.
  specialize (Hall tr' (proj2 (list_elem_of_In _ _) Hin)).
  rewrite Forall_forall in Hall. by apply Hall.
Qed.

(** C7. No transition of the provider's table leaves a terminal state: the
    from-set of every transition holds no terminal state ([completed],
    [error], [expired], [slashed], [rejected]), [fromAny] standing for the
    non-terminal states only; so whatever event is dispatched for a deal in a
    terminal state, the provider is left as it was. *)
Theorem terminal_states_are_final :
  Forall (fun tr => Forall (fun s => is_terminal s = false) (from_states tr))
    (makeFSMTransitions api_)
  /\ Forall (fun s => is_terminal s = false) fromAny
  /\ forall deal e p s,
       fsm_states p !! deal = Some s -> is_terminal s = true ->
       fsm_dispatch api_ deal e p = p.
Proof.
  split; [apply from_states_not_terminal|]. split.
  - vm_compute. repeat constructor.
  - intros deal e p s Hs Hterm. unfold fsm_dispatch. rewrite Hs.
    destruct (fsm_transition api_ e s) as [tr|] eqn:Htr; [|done].
    apply fsm_transition_not_terminal in Htr. congruence.
Qed.

(** The handler of [ProviderEventOpen] looks at nothing of the deal. *)
Lemma onProviderEventOpen_accepts deal e from to p :
  onProviderEventOpen deal e from to p = send deal ProviderEventDealAccepted p.
Proof. reflexivity. Qed.

Lemma fsm_step_head deal e rest p :
  fsm_queue p = (deal, e) :: rest ->
  fsm_step api_ p = fsm_dispatch api_ deal e (set_queue rest p).
Proof. unfold fsm_step. by intros ->. Qed.

Lemma fsm_dispatch_fires deal e p s tr :
  fsm_states p !! deal = Some s ->
  fsm_transition api_ e s = Some tr ->
  fsm_dispatch api_ deal e p
  = enter deal (to_state tr) (action tr deal e s (to_state tr) p).
Proof. unfold fsm_dispatch. by intros -> ->. Qed.

(** [onProviderEventDealAccepted] changes the queue only. *)
Lemma onProviderEventDealAccepted_frame deal e from to p :
  let p' := onProviderEventDealAccepted deal e from to p in
  local_deals_ p' = local_deals_ p /\ entered p' = entered p.
Proof.
  cbv zeta. unfold onProviderEventDealAccepted.
  destruct (local_deals_ p !! deal); [|done]. by destruct (bool_decide _).
Qed.

(** C1, what the code does.  Whatever the inbound proposal says (piece size,
    provider address, signature), the FSM takes the deal from [validating] to
    [proposal_accepted]: the handler of [ProviderEventOpen] validates
    nothing and sends [ProviderEventDealAccepted]. *)
Theorem inbound_proposal_is_accepted_unvalidated prop cid miner peer :
  let p := fsm_step api_
             (fsm_step api_ (handleDealStream prop cid miner peer empty)) in
  deal_state cid p = Some STORAGE_DEAL_PROPOSAL_ACCEPTED
  /\ states_entered cid p
     = [STORAGE_DEAL_VALIDATING; STORAGE_DEAL_PROPOSAL_ACCEPTED].
Proof.
  cbv zeta. set (p0 := handleDealStream prop cid miner peer empty).
  rewrite (fsm_step_head cid ProviderEventOpen [] p0) by reflexivity.
  rewrite (fsm_dispatch_fires cid ProviderEventOpen _ STORAGE_DEAL_UNKNOWN
             {| event := ProviderEventOpen;
                from_states := from STORAGE_DEAL_UNKNOWN;
                to_state := STORAGE_DEAL_VALIDATING;
                action := CALLBACK_ACTION "onProviderEventOpen"
                            onProviderEventOpen |});
    [|apply lookup_insert_eq|reflexivity].
  cbn [action to_state].
  set (p1 := enter cid STORAGE_DEAL_VALIDATING _).
  rewrite (fsm_step_head cid ProviderEventDealAccepted [] p1) by reflexivity.
  rewrite (fsm_dispatch_fires cid ProviderEventDealAccepted _
             STORAGE_DEAL_VALIDATING
             {| event := ProviderEventDealAccepted;
                from_states := from STORAGE_DEAL_VALIDATING;
                to_state := STORAGE_DEAL_PROPOSAL_ACCEPTED;
                action := CALLBACK_ACTION "onProviderEventDealAccepted"
                            onProviderEventDealAccepted |});
    [|apply lookup_insert_eq|reflexivity].
  cbn [action to_state].
  set (q := debug ("Provider FSM " +:+ "onProviderEventDealAccepted")
              (set_queue [] p1)).
  destruct (onProviderEventDealAccepted_frame cid ProviderEventDealAccepted
              STORAGE_DEAL_VALIDATING STORAGE_DEAL_PROPOSAL_ACCEPTED q)
    as [Hdeals Hentered].
  cbv zeta in Hdeals, Hentered.
  unfold deal_state, states_entered, CALLBACK_ACTION, enter, update_deal,
    set_deals.
  fold q. cbn [local_deals_ entered]. rewrite Hdeals, Hentered.
  split.
  - rewrite lookup_alter_eq. subst q p1 p0.
    unfold enter, CALLBACK_ACTION, update_deal, set_deals, handleDealStream.
    cbn [local_deals_ debug set_queue onProviderEventOpen send begin].
    unfold set_deals. cbn [local_deals_].
    by rewrite lookup_alter_eq, lookup_insert_eq.
  - subst q p1 p0. cbn [entered debug set_queue enter CALLBACK_ACTION
                          update_deal set_deals onProviderEventOpen send
                          handleDealStream begin empty app].
    rewrite !filter_cons, filter_nil. cbn [fst].
    by rewrite !decide_True by done.
Qed.

(** What [onProviderEventVerifiedData] sends, by the answer of
    [ensureFunds]: [ProviderEventFundingInitiated] with and without a funding
    message. *)
Lemma onProviderEventVerifiedData_sends deal e from to p d :
  local_deals_ p !! deal = Some d ->
  onProviderEventVerifiedData api_ deal e from to p =
  match ensureFunds api_ d with
  | failure _ => send deal ProviderEventNodeErrored p
  | success (Some cid) =>
      send deal ProviderEventFundingInitiated
        (update_deal deal (MinerDeal.set_add_funds_cid (Some cid)) p)
  | success None => send deal ProviderEventFundingInitiated p
  end.
Proof. intros Hd. unfold onProviderEventVerifiedData. by rewrite Hd. Qed.

End Table.

Section ImportData.

Context (piece_io_ : PieceIO) (registered_proof_ : RegisteredProof).

(** C2, as the code has it.  When the commitment computed from the imported
    bytes differs from the [piece_cid] of the proposal, [importDataForDeal]
    returns [PIECE_CID_DOESNT_MATCH] to its caller and leaves the provider as
    it was: no event is sent to the FSM, the deal stays in the state it was
    in and its record is not changed. *)
Theorem importDataForDeal_mismatch proposal_cid data p deal commitment size :
  local_deals_ p !! proposal_cid = Some deal ->
  generatePieceCommitment piece_io_ registered_proof_ data
  = success (commitment, size) ->
  commitment
  <> DealProposal.piece_cid
       (ClientDealProposal.proposal (MinerDeal.client_deal_proposal deal)) ->
  importDataForDeal piece_io_ registered_proof_ proposal_cid data p
  = (failure (ProviderError PIECE_CID_DOESNT_MATCH), p).
Proof.
  intros Hdeal Hcommit Hneq. unfold importDataForDeal, getDeal.
  rewrite Hcommit, Hdeal. simpl. by rewrite bool_decide_eq_true_2.
Qed.

End ImportData.

End ProviderFacts.

Module ProviderRuns.

Import Provider ProviderFacts ProviderScenario.

(** Witness of C7: [ProviderEventNodeErrored], the [fromAny] event, on a
    completed deal. *)
Lemma terminal_states_are_final_witness :
  fsm_dispatch api_funded proposal_cid ProviderEventNodeErrored completed
  = completed.
Proof.
  apply (proj2 (proj2 (terminal_states_are_final api_funded)) proposal_cid
           ProviderEventNodeErrored completed STORAGE_DEAL_COMPLETED).
  - vm_compute. reflexivity.
  - reflexivity.
Defined.

(** A proposal for a piece of 4096 bytes, twice the size of a sector of the
    2 KiB proof, runs through validation and is parked for its data. *)
Example oversized_piece_run :
  let p := fsm_run api_funded 10
             (handleDealStream (proposal 4096%N 1000%N) proposal_cid "miner-peer"
                "client-peer" Provider.empty) in
  (IndexImpl.sector_size StackedDRG2KiBSeal < 4096)%N
  /\ fsm_queue p = []
  /\ deal_state proposal_cid p = Some STORAGE_DEAL_WAITING_FOR_DATA
  /\ states_entered proposal_cid p
     = [STORAGE_DEAL_VALIDATING; STORAGE_DEAL_PROPOSAL_ACCEPTED;
        STORAGE_DEAL_WAITING_FOR_DATA].
Proof. vm_compute. repeat split. Qed.

(** So does a proposal addressed to another miner. *)
Example wrong_miner_run :
  let p := fsm_run api_funded 10
             (handleDealStream (proposal 2048%N 2000%N) proposal_cid "miner-peer"
                "client-peer" Provider.empty) in
  deal_state proposal_cid p = Some STORAGE_DEAL_WAITING_FOR_DATA.
Proof. vm_compute. reflexivity. Qed.

(** Counterexample to C2 as stated: 2048 zero bytes, whose commitment is not
    the [piece_cid] of the proposal, are imported for a deal in
    [waiting_for_data].  The call returns the error; the deal is still in
    [waiting_for_data] after the FSM has run, it never entered [failing],
    and its message is empty. *)
Lemma importDataForDeal_mismatch_stays_waiting :
  let before := waiting api_funded in
  let out :=
    importDataForDeal piece_io StackedDRG2KiBSeal proposal_cid (zeros 2048)
      before in
  let after := fsm_run api_funded 20 out.2 in
  deal_state proposal_cid before = Some STORAGE_DEAL_WAITING_FOR_DATA
  /\ out.1 = failure (ProviderError PIECE_CID_DOESNT_MATCH)
  /\ deal_state proposal_cid after = Some STORAGE_DEAL_WAITING_FOR_DATA
  /\ deal_state proposal_cid after <> Some STORAGE_DEAL_FAILING
  /\ states_entered proposal_cid after = states_entered proposal_cid before
  /\ deal_message proposal_cid after = Some EmptyString.
Proof. vm_compute. repeat split. discriminate. Qed.

(** Witness of the amended C2, on the same import. *)
Lemma importDataForDeal_mismatch_witness :
  importDataForDeal piece_io StackedDRG2KiBSeal proposal_cid (zeros 2048)
    (waiting api_funded)
  = (failure (ProviderError PIECE_CID_DOESNT_MATCH), waiting api_funded).
Proof.
  eapply (importDataForDeal_mismatch piece_io StackedDRG2KiBSeal proposal_cid
            (zeros 2048) (waiting api_funded)).
  - vm_compute. reflexivity.
  - vm_compute. reflexivity.
  - discriminate.
Defined.

(** C3, what the code does when [MarketEnsureAvailable] returns no CID: the
    data of the deal is imported and verified, no funding message is sent
    ([add_funds_cid] stays empty), and the deal still goes through
    [provider_funding] on its way to [publish]. *)
Theorem no_funding_message_still_enters_provider_funding :
  let out :=
    importDataForDeal piece_io StackedDRG2KiBSeal proposal_cid [Byte.x01]
      (waiting api_funded) in
  let p := fsm_run api_funded 20 out.2 in
  MarketEnsureAvailable api_funded 1000%N 1001%N 10%Z ["bafy-head"]
  = success None
  /\ out.1 = success tt
  /\ MinerDeal.add_funds_cid <$> local_deals_ p !! proposal_cid = Some None
  /\ states_entered proposal_cid p
     = [STORAGE_DEAL_VALIDATING; STORAGE_DEAL_PROPOSAL_ACCEPTED;
        STORAGE_DEAL_WAITING_FOR_DATA; STORAGE_DEAL_ENSURE_PROVIDER_FUNDS;
        STORAGE_DEAL_PROVIDER_FUNDING; STORAGE_DEAL_PUBLISH;
        STORAGE_DEAL_PUBLISHING; STORAGE_DEAL_STAGED; STORAGE_DEAL_SEALING;
        STORAGE_DEAL_ACTIVE; STORAGE_DEAL_COMPLETED].
Proof. vm_compute. repeat split. Qed.

(** With a funding message the CID is recorded and the deal enters
    [provider_funding]. *)
Example funding_message_run :
  let out :=
    importDataForDeal piece_io StackedDRG2KiBSeal proposal_cid [Byte.x01]
      (waiting api_funding) in
  let p := fsm_run api_funding 2 out.2 in
  MinerDeal.add_funds_cid <$> local_deals_ p !! proposal_cid
  = Some (Some "bafy-add-funds")
  /\ deal_state proposal_cid p = Some STORAGE_DEAL_PROVIDER_FUNDING.
Proof. vm_compute. repeat split. Qed.

End ProviderRuns.
(** ** The chain-event watcher *)

Module EventsFacts.

Import Events.

Lemma run_snoc steps s : run (steps ++ [s]) = step (run steps) s.
Proof. unfold run. by rewrite fold_left_app. Qed.

Lemma watch_ok_more steps s w : watch_ok steps w -> watch_ok (steps ++ [s]) w.
Proof.
  intros (Hsec & Hok & Herr). repeat split.
  - intros n Hn. destruct (Hsec n Hn) as (i & m & Hi & Hm).
    exists i, m. split; [by apply lookup_app_l_Some|done].
  - intros Hr. destruct (Hok Hr) as (i & j & m1 & m2 & n & ? & ? & ? & ? & ?).
    exists i, j, m1, m2, n. split; [done|].
    split; [by apply lookup_app_l_Some|]. split; [done|].
    split; [by apply lookup_app_l_Some|done].
  - intros e He. apply elem_of_app. left. by apply (Herr e).
Qed.

Lemma last_step steps (s : Step) : (steps ++ [s]) !! length steps = Some s.
Proof. by rewrite list_lookup_middle. Qed.

Lemma record_precommit_ok steps m info w :
  UnsignedMessage.method m = PreCommitSector_Number ->
  decodePreCommitInfo (UnsignedMessage.params m) = Some info ->
  watch_ok steps w ->
  watch_ok (steps ++ [Applied m])
    (record_precommit (UnsignedMessage.to m) info w).
Proof.
  intros Hmethod Hdecode Hw. apply (watch_ok_more _ (Applied m)) in Hw.
  unfold record_precommit.
  destruct (pending w) eqn:Hp; [|done].
  destruct (bool_decide (provider w = _)) eqn:Hto; [|done].
  destruct (bool_decide (deal_id w ∈ _)) eqn:Hdeal; [|done].
  apply bool_decide_eq_true in Hto, Hdeal. simpl.
  destruct Hw as (Hsec & Hok & Herr). repeat split; simpl; [|done..].
  intros s [= <-]. exists (length steps), m.
  split; [apply last_step|]. repeat split; [done..|]. by exists info.
Qed.

Lemma resolve_committed_ok steps m params w :
  UnsignedMessage.method m = ProveCommitSector_Number ->
  decodeProveCommitParams (UnsignedMessage.params m) = Some params ->
  watch_ok steps w ->
  watch_ok (steps ++ [Applied m])
    (resolve_committed (UnsignedMessage.to m)
       (ProveCommitSector.sector params) w).
Proof.
  intros Hmethod Hdecode Hw.
  pose proof (watch_ok_more _ (Applied m) _ Hw) as Hw'.
  unfold resolve_committed.
  destruct (pending w) eqn:Hp; [|done].
  destruct (bool_decide (provider w = _)) eqn:Hto; [|done].
  destruct (bool_decide (sector_number w = _)) eqn:Hsector; [|done].
  apply bool_decide_eq_true in Hp, Hto, Hsector. simpl.
  destruct Hw as (Hsec & _ & _), Hw' as (Hsec' & _ & _).
  rewrite Hp. repeat split; simpl; [done| |done].
  intros _. destruct (Hsec _ Hsector) as (i & m1 & Hi & Hm1).
  exists i, (length steps), m1, m, (ProveCommitSector.sector params).
  split; [by apply lookup_lt_Some in Hi|].
  split; [by apply lookup_app_l_Some|]. split; [done|].
  split; [apply last_step|]. repeat split; [done..|]. by exists params.
Qed.

Lemma forget_precommit_ok steps m info w :
  watch_ok steps w ->
  watch_ok (steps ++ [Reverted m])
    (forget_precommit (UnsignedMessage.to m) info w).
Proof.
  intros Hw. apply (watch_ok_more _ (Reverted m)) in Hw.
  unfold forget_precommit.
  destruct (_ && _ && _); [|done].
  destruct Hw as (_ & Hok & Herr). by repeat split.
Qed.

(** The invariant of the watcher. *)
Lemma run_invariant steps : Forall (watch_ok steps) (run steps).
Proof.
  induction steps as [|s steps IH] using rev_ind; [by constructor|].
  rewrite run_snoc. destruct s as [p d|m|m|]; simpl.
  - apply Forall_app. split.
    + eapply Forall_impl; [exact IH|]. intros w. apply watch_ok_more.
    + repeat constructor; simpl; done.
  - unfold apply_message.
    destruct (N.eqb_spec (UnsignedMessage.method m) PreCommitSector_Number)
      as [Hpre|_].
    { destruct (decodePreCommitInfo _) as [info|] eqn:Hdecode.
      - apply Forall_fmap. eapply Forall_impl; [exact IH|].
        intros w. by apply record_precommit_ok.
      - eapply Forall_impl; [exact IH|]. intros w. apply watch_ok_more. }
    destruct (N.eqb_spec (UnsignedMessage.method m) ProveCommitSector_Number)
      as [Hprove|_].
    { destruct (decodeProveCommitParams _) as [params|] eqn:Hdecode.
      - apply Forall_fmap. eapply Forall_impl; [exact IH|].
        intros w. by apply resolve_committed_ok.
      - eapply Forall_impl; [exact IH|]. intros w. apply watch_ok_more. }
    eapply Forall_impl; [exact IH|]. intros w. apply watch_ok_more.
  - unfold revert_message.
    destruct (UnsignedMessage.method m =? PreCommitSector_Number)%N.
    + destruct (decodePreCommitInfo _) as [info|].
      * apply Forall_fmap. eapply Forall_impl; [exact IH|].
        intros w. apply forget_precommit_ok.
      * eapply Forall_impl; [exact IH|]. intros w. apply watch_ok_more.
    + eapply Forall_impl; [exact IH|]. intros w. apply watch_ok_more.
  - unfold stop. apply Forall_fmap. eapply Forall_impl; [exact IH|].
    intros w Hw. apply (watch_ok_more _ Stopped) in Hw.
    destruct Hw as (Hsec & Hok & Herr). repeat split; simpl; [done| |].
    + intros Hr. apply Hok. by destruct (result w).
    + intros e _. apply elem_of_app. right. by apply list_elem_of_singleton.
Qed.

(** A watch stays where it is and keeps its provider and its deal. *)
Lemma step_keeps_watch ws s f w :
  ws !! f = Some w ->
  exists w',
    step ws s !! f = Some w'
    /\ provider w' = provider w /\ deal_id w' = deal_id w.
Proof.
  intros Hf. destruct s as [p d|m|m|]; simpl.
  - exists w. split; [by apply lookup_app_l_Some|done].
  - unfold apply_message.
    destruct (_ =? _)%N.
    { destruct (decodePreCommitInfo _) as [info|]; [|by exists w].
      exists (record_precommit (UnsignedMessage.to m) info w).
      split; [by rewrite list_lookup_fmap, Hf|].
      unfold record_precommit. by destruct (_ && _ && _). }
    destruct (_ =? _)%N; [|by exists w].
    destruct (decodeProveCommitParams _) as [params|]; [|by exists w].
    exists (resolve_committed (UnsignedMessage.to m)
              (ProveCommitSector.sector params) w).
    split; [by rewrite list_lookup_fmap, Hf|].
    unfold resolve_committed. by destruct (_ && _ && _).
  - unfold revert_message.
    destruct (_ =? _)%N; [|by exists w].
    destruct (decodePreCommitInfo _) as [info|]; [|by exists w].
    exists (forget_precommit (UnsignedMessage.to m) info w).
    split; [by rewrite list_lookup_fmap, Hf|].
    unfold forget_precommit. by destruct (_ && _ && _).
  - unfold stop. eexists. split; [by rewrite list_lookup_fmap, Hf|done].
Qed.

Lemma run_keeps_watch pre post f w :
  run pre !! f = Some w ->
  exists w',
    run (pre ++ post) !! f = Some w'
    /\ provider w' = provider w /\ deal_id w' = deal_id w.
Proof.
  intros Hf. induction post as [|s post IH] using rev_ind.
  - rewrite app_nil_r. by exists w.
  - destruct IH as (w1 & Hw1 & Hp & Hd).
    rewrite app_assoc, run_snoc.
    destruct (step_keeps_watch _ s _ _ Hw1) as (w2 & Hw2 & Hp2 & Hd2).
    exists w2. split; [done|]. split; congruence.
Qed.

(** C6. Take the promise that [onDealSectorCommitted(provider, deal_id)]
    returns at some point of a run of the watcher.  If it is set to success
    at the end of the run, then a [PreCommitSector] message to the provider
    listing the deal was applied, and after it a [ProveCommitSector] message
    to the provider for the sector of that pre-commit.  If no such
    pre-commit was applied (and the watcher was not stopped), the promise is
    not set, whatever [ProveCommitSector] messages were applied. *)
Theorem commit_promise_needs_precommit pre post p d :
  let f := (onDealSectorCommitted p d (run pre)).1 in
  let steps := pre ++ Subscribed p d :: post in
  exists w,
    run steps !! f = Some w
    /\ provider w = p /\ deal_id w = d
    /\ (result w = Some (success tt) -> observed_commit steps p d)
    /\ (no_precommit steps p d -> Stopped ∉ steps -> result w = None).
Proof.
  cbv zeta. simpl.
  destruct (run_keeps_watch (pre ++ [Subscribed p d]) post (length (run pre))
              {| provider := p; deal_id := d; sector_number := None;
                 result := None |}) as (w & Hw & Hp & Hd).
  { rewrite run_snoc. simpl. by rewrite list_lookup_middle. }
  rewrite <- app_assoc in Hw. simpl in Hw, Hp, Hd.
  exists w. split; [done|]. split; [done|]. split; [done|].
  pose proof (run_invariant (pre ++ Subscribed p d :: post)) as Hinv.
  rewrite Forall_forall in Hinv.
  destruct (Hinv w) as (_ & Hok & Herr).
  { eapply list_elem_of_lookup_2. exact Hw. }
  rewrite Hp, Hd in Hok. split; [done|].
  intros Hnone Hrunning.
  destruct (result w) as [[[]|e]|] eqn:Hr; [| |done].
  - destruct Hok as (i & j & m1 & m2 & s & _ & Hi & Hm1 & _); [done|].
    by destruct (Hnone i m1 s).
  - destruct Hrunning. by apply (Herr e).
Qed.

(** The first test of [events_test.cpp]: the pre-commit and then the
    prove-commit in one applied tipset; the promise is set to success. *)
Example CommitSector :
  let steps :=
    Subscribed test_provider test_deal_id
    :: head_change_steps
         {| type := APPLY;
            value := tipset_of [pre_commit_message; prove_commit_message] |} in
  result <$> run steps !! 0 = Some (Some (success tt)).
Proof. reflexivity. Qed.

(** The second test: nothing is applied; the promise is not set. *)
Example WaitCommitSector :
  result <$> run [Subscribed test_provider test_deal_id] !! 0 = Some None.
Proof. reflexivity. Qed.

(** The scenario of the design document: only the prove-commit of sector 13
    is applied; the promise is not set. *)
Example prove_commit_alone :
  let steps :=
    Subscribed test_provider test_deal_id
    :: head_change_steps
         {| type := APPLY; value := tipset_of [prove_commit_message] |} in
  result <$> run steps !! 0 = Some None.
Proof. reflexivity. Qed.

(** The prove-commit before the pre-commit: not set either. *)
Example prove_commit_first :
  let steps :=
    Subscribed test_provider test_deal_id
    :: head_change_steps
         {| type := APPLY;
            value := tipset_of [prove_commit_message; pre_commit_message] |} in
  result <$> run steps !! 0 = Some None.
Proof. reflexivity. Qed.

(** The two tables of the design document along a run: the watch is in
    [pending_precommit] from the subscription on, in [precommitted] once the
    pre-commit is applied, and in neither once the prove-commit is. *)
Example tables_along_a_run :
  let subscribed := [Subscribed test_provider test_deal_id] in
  let pre_committed := subscribed ++ [Applied pre_commit_message] in
  let committed := pre_committed ++ [Applied prove_commit_message] in
  pending_precommit (run subscribed) = [(test_provider, test_deal_id)]
  /\ precommitted (run subscribed) = []
  /\ pending_precommit (run pre_committed) = [(test_provider, test_deal_id)]
  /\ precommitted (run pre_committed)
     = [(test_provider, test_deal_id, test_sector_number)]
  /\ pending_precommit (run committed) = []
  /\ precommitted (run committed) = [].
Proof. vm_compute. repeat split. Qed.

(** A reverted pre-commit does not count. *)
Example pre_commit_reverted :
  let steps :=
    [Subscribed test_provider test_deal_id;
     Applied pre_commit_message;
     Reverted pre_commit_message;
     Applied prove_commit_message] in
  result <$> run steps !! 0 = Some None.
Proof. reflexivity. Qed.

End EventsFacts.
(** ** Sector file names *)

Module SectorNameFacts.

Lemma append_cons (c : ascii) (s t : string) :
  String c s +:+ t = String c (s +:+ t).
Proof. reflexivity. Qed.

Lemma append_nil_l (t : string) : "" +:+ t = t.
Proof. reflexivity. Qed.

Lemma append_list_snoc (ds : list ascii) (c : ascii) (s : string) :
  string_of_list_ascii (ds ++ [c]) +:+ s
  = string_of_list_ascii ds +:+ String c s.
Proof.
  induction ds as [|d ds IH]; [done|].
  cbn [app string_of_list_ascii]. by rewrite !append_cons, IH.
Qed.

Lemma append_list_app (ds1 ds2 : list ascii) :
  string_of_list_ascii (ds1 ++ ds2)
  = string_of_list_ascii ds1 +:+ string_of_list_ascii ds2.
Proof.
  induction ds1 as [|d ds IH]; [done|].
  cbn [app string_of_list_ascii]. by rewrite append_cons, IH.
Qed.

Lemma append_empty_r (s : string) : s +:+ "" = s.
Proof. induction s as [|c s IH]; [done|]. by rewrite append_cons, IH. Qed.

Lemma decimal_value_snoc (ds : list ascii) (c : ascii) :
  decimal_value (ds ++ [c]) = (10 * decimal_value ds + digit_value c)%N.
Proof. unfold decimal_value. by rewrite fold_left_app. Qed.

(** The character of a decimal digit is a digit, of that value. *)
Lemma pretty_N_char_digit (r : N) :
  (r < 10)%N ->
  is_digit (pretty_N_char r) = true /\ digit_value (pretty_N_char r) = r.
Proof.
  intros Hr.
  assert (r = 0 \/ r = 1 \/ r = 2 \/ r = 3 \/ r = 4 \/ r = 5 \/ r = 6
          \/ r = 7 \/ r = 8 \/ r = 9)%N as Hcases by lia.
  repeat (destruct Hcases as [->|Hcases]; [by vm_compute|]).
  subst r. by vm_compute.
Qed.

(** What [pretty_N_go] puts in front of its accumulator: the decimal digits
    of the number. *)
Lemma pretty_N_go_digits (x : N) :
  exists ds,
    (forall s, pretty_N_go x s = string_of_list_ascii ds +:+ s)
    /\ forallb is_digit ds = true
    /\ decimal_value ds = x
    /\ ((0 < x)%N -> ds <> []).
Proof.
  induction (N.lt_wf_0 x) as [x _ IH].
  destruct (decide (0 < x)%N) as [Hpos|Hzero].
  - destruct (IH (x `div` 10)%N) as (ds & Hgo & Hdigits & Hvalue & _).
    { by apply N.div_lt. }
    destruct (pretty_N_char_digit (x `mod` 10)%N) as [Hchar Hdv].
    { by apply N.mod_upper_bound. }
    exists (ds ++ [pretty_N_char (x `mod` 10)]). repeat split.
    + intros s. by rewrite pretty_N_go_step, Hgo, append_list_snoc.
    + rewrite forallb_app, Hdigits. simpl. by rewrite Hchar.
    + rewrite decimal_value_snoc, Hvalue, Hdv.
      symmetry. apply N.div_mod'.
    + intros _. by destruct ds.
  - assert (x = 0%N) as -> by lia. exists [].
    split; [intros s; by rewrite pretty_N_go_0|].
    split; [done|]. split; [done|]. lia.
Qed.

Lemma pretty_digits (x : N) :
  exists ds,
    pretty x = string_of_list_ascii ds
    /\ forallb is_digit ds = true
    /\ decimal_value ds = x
    /\ ds <> [].
Proof.
  unfold pretty, pretty_N. destruct (decide (x = 0%N)) as [->|Hne].
  - by exists ["0"%char].
  - destruct (pretty_N_go_digits x) as (ds & Hgo & Hdigits & Hvalue & Hnil).
    exists ds. rewrite Hgo, append_empty_r. repeat split; [done..|].
    apply Hnil. lia.
Qed.

(** [span_digits] splits a run of digits from what follows it, when that
    does not start with a digit. *)
Lemma span_digits_app (ds : list ascii) (rest : string) :
  forallb is_digit ds = true ->
  match rest with String c _ => is_digit c = false | EmptyString => True end ->
  span_digits (string_of_list_ascii ds +:+ rest) = (ds, rest).
Proof.
  intros Hdigits Hrest. induction ds as [|d ds IH].
  - cbn [string_of_list_ascii]. rewrite append_nil_l.
    destruct rest as [|c rest]; [done|]. cbn [span_digits]. by rewrite Hrest.
  - cbn [forallb] in Hdigits. apply andb_true_iff in Hdigits as [Hd Hds].
    cbn [string_of_list_ascii]. rewrite append_cons. cbn [span_digits].
    by rewrite Hd, IH.
Qed.

Lemma span_digits_spec (s : string) :
  s = string_of_list_ascii (span_digits s).1 +:+ (span_digits s).2
  /\ forallb is_digit (span_digits s).1 = true.
Proof.
  induction s as [|c s [IHs IHd]]; [done|].
  cbn [span_digits]. destruct (is_digit c) eqn:Hc; [|done].
  destruct (span_digits s) as [ds tl].
  cbn [fst snd string_of_list_ascii forallb] in *.
  rewrite append_cons, Hc, IHd, <- IHs. done.
Qed.

Lemma strip_prefix_app (p s : string) : strip_prefix p (p +:+ s) = Some s.
Proof.
  induction p as [|c p IH]; [done|].
  rewrite append_cons. cbn [strip_prefix]. by rewrite Ascii.eqb_refl.
Qed.

Lemma strip_prefix_Some (p s r : string) :
  strip_prefix p s = Some r -> s = p +:+ r.
Proof.
  revert s. induction p as [|c p IH]; intros s; [by intros [= ->]|].
  destruct s as [|b s]; [done|]. cbn [strip_prefix].
  destruct (Ascii.eqb_spec c b) as [->|]; [|done].
  intros Hs. by rewrite append_cons, (IH _ Hs).
Qed.

Lemma regex_match_digits (ds1 ds2 : list ascii) :
  ds1 <> [] -> ds2 <> [] ->
  forallb is_digit ds1 = true -> forallb is_digit ds2 = true ->
  regex_match ("s-t0" +:+ string_of_list_ascii ds1
                      +:+ "-" +:+ string_of_list_ascii ds2)
  = Some (ds1, ds2).
Proof.
  intros Hn1 Hn2 Hd1 Hd2.
  unfold regex_match. rewrite strip_prefix_app.
  rewrite (span_digits_app ds1) by done.
  destruct ds1 as [|d1 ds1]; [done|].
  rewrite (append_cons "-" "" _), append_nil_l. cbv beta iota.
  rewrite <- (append_empty_r (string_of_list_ascii ds2)).
  rewrite (span_digits_app ds2) by done.
  by destruct ds2.
Qed.

Lemma parseSectorId_digits (ds1 ds2 : list ascii) :
  ds1 <> [] -> ds2 <> [] ->
  forallb is_digit ds1 = true -> forallb is_digit ds2 = true ->
  (decimal_value ds1 <= uint64_max)%N ->
  (decimal_value ds2 <= uint64_max)%N ->
  parseSectorId ("s-t0" +:+ string_of_list_ascii ds1
                        +:+ "-" +:+ string_of_list_ascii ds2)
  = success {| miner := decimal_value ds1; sector := decimal_value ds2 |}.
Proof.
  intros Hn1 Hn2 Hd1 Hd2 Hb1 Hb2. unfold parseSectorId.
  rewrite regex_match_digits by done. unfold lexical_cast.
  by rewrite (proj2 (N.leb_le _ _) Hb1), (proj2 (N.leb_le _ _) Hb2).
Qed.

(** X1. The names [parseSectorId] accepts, and what it reads from them: exactly
    [s-t0], a non-empty run of decimal digits, a dash and a second non-empty
    run of digits, both numbers fitting 64 bits.  Leading zeros are
    accepted. *)
Theorem parseSectorId_accepts (filename : string) (s : SectorId) :
  parseSectorId filename = success s
  <-> exists ds1 ds2,
        filename
        = "s-t0" +:+ string_of_list_ascii ds1
                 +:+ "-" +:+ string_of_list_ascii ds2
        /\ ds1 <> [] /\ ds2 <> []
        /\ forallb is_digit ds1 = true /\ forallb is_digit ds2 = true
        /\ miner s = decimal_value ds1 /\ sector s = decimal_value ds2
        /\ (miner s <= uint64_max)%N /\ (sector s <= uint64_max)%N.
Proof.
  split.
  - unfold parseSectorId, regex_match.
    destruct (strip_prefix "s-t0" filename) as [rest|] eqn:Hprefix; [|done].
    apply strip_prefix_Some in Hprefix.
    destruct (span_digits_spec rest) as [Hrest Hd1].
    destruct (span_digits rest) as [ds1 tl1]. simpl in Hrest, Hd1.
    destruct ds1 as [|d1 ds1]; [done|].
    destruct tl1 as [|c tl1]; [done|].
    destruct (Ascii.eqb_spec c "-") as [->|Hc].
    2:{ destruct c as [[] [] [] [] [] [] [] []]; done. }
    destruct (span_digits_spec tl1) as [Htl1 Hd2].
    destruct (span_digits tl1) as [ds2 tl2]. simpl in Htl1, Hd2.
    destruct ds2 as [|d2 ds2]; [done|].
    destruct tl2 as [|c2 tl2]; [|done].
    unfold lexical_cast.
    destruct (N.leb_spec (decimal_value (d1 :: ds1)) uint64_max); [|done].
    destruct (N.leb_spec (decimal_value (d2 :: ds2)) uint64_max); [|done].
    intros [= <-]. exists (d1 :: ds1), (d2 :: ds2). simpl miner. simpl sector.
    repeat split; try done.
    rewrite Hprefix, Hrest, Htl1. by rewrite append_empty_r.
  - intros (ds1 & ds2 & -> & Hn1 & Hn2 & Hd1 & Hd2 & Hm & Hs & Hbm & Hbs).
    rewrite parseSectorId_digits by (done || by rewrite <- ?Hm, <- ?Hs).
    rewrite <- Hm, <- Hs. by destruct s.
Qed.

(** X2. [parseSectorId] reads back the name [sectorName] gives a sector: the
    round trip, for identifiers that fit 64 bits. *)
Theorem parseSectorId_sectorName (s : SectorId) :
  (miner s <= uint64_max)%N -> (sector s <= uint64_max)%N ->
  parseSectorId (sectorName s) = success s.
Proof.
  intros Hm Hs.
  destruct (pretty_digits (miner s)) as (ds1 & Hp1 & Hd1 & Hv1 & Hn1).
  destruct (pretty_digits (sector s)) as (ds2 & Hp2 & Hd2 & Hv2 & Hn2).
  unfold sectorName. rewrite Hp1, Hp2.
  rewrite parseSectorId_digits by (done || by rewrite ?Hv1, ?Hv2).
  rewrite Hv1, Hv2. by destruct s.
Qed.

(** X3. A number too large for 64 bits makes the name invalid, although the
    pattern matches. *)
Theorem parseSectorId_overflow (ds1 ds2 : list ascii) :
  ds1 <> [] -> ds2 <> [] ->
  forallb is_digit ds1 = true -> forallb is_digit ds2 = true ->
  (uint64_max < decimal_value ds1 \/ uint64_max < decimal_value ds2)%N ->
  regex_match ("s-t0" +:+ string_of_list_ascii ds1
                      +:+ "-" +:+ string_of_list_ascii ds2)
  = Some (ds1, ds2)
  /\ parseSectorId ("s-t0" +:+ string_of_list_ascii ds1
                           +:+ "-" +:+ string_of_list_ascii ds2)
     = failure (StoreError InvalidSectorName).
Proof.
  intros Hn1 Hn2 Hd1 Hd2 Hbig.
  pose proof (regex_match_digits ds1 ds2 Hn1 Hn2 Hd1 Hd2) as Hmatch.
  split; [done|]. unfold parseSectorId. rewrite Hmatch. unfold lexical_cast.
  destruct Hbig as [Hbig|Hbig].
  - by rewrite (proj2 (N.leb_gt _ _) Hbig).
  - rewrite (proj2 (N.leb_gt _ _) Hbig). by destruct (_ <=? _)%N.
Qed.

Lemma parseSectorId_sectorName_witness :
  parseSectorId (sectorName Scenario.sector7) = success Scenario.sector7.
Proof.
  apply (parseSectorId_sectorName Scenario.sector7); vm_compute; discriminate.
Defined.

Lemma parseSectorId_overflow_witness :
  parseSectorId "s-t01000-18446744073709551616"
  = failure (StoreError InvalidSectorName).
Proof.
  apply (parseSectorId_overflow
           (list_ascii_of_string "1000")
           (list_ascii_of_string "18446744073709551616"));
    [discriminate|discriminate|reflexivity|reflexivity|].
  right. vm_compute. reflexivity.
Defined.

End SectorNameFacts.
(** ** What [acquireSector] puts in its response *)

Module AcquireFacts.

Import LocalStore LocalStoreFacts.

Lemma getPathByType_set_same (type : SectorFileType) path p :
  type ∈ kSectorFileTypes ->
  getPathByType type (setPathByType type path p) = success path.
Proof.
  intros Hin. apply kSectorFileTypes_cases in Hin.
  by destruct Hin as [-> | [-> | ->]].
Qed.

Lemma disjoint_bits_apart (type : SectorFileType) types :
  Forall (fun u => Z.land u type = 0%Z) types ->
  Forall (fun t => t = type \/ Z.land type t = 0%Z) types.
Proof.
  intros H. eapply Forall_impl; [exact H|].
  intros t Ht. right. by rewrite Z.land_comm.
Qed.

Lemma disjoint_bits_elem (type t : SectorFileType) types :
  disjoint_bits (t :: types) -> type ∈ types -> Z.land type t = 0%Z.
Proof.
  intros [Hhead _] Hin. rewrite Forall_forall in Hhead. by apply Hhead.
Qed.

Lemma string_append_assoc (a b c : string) :
  (a +:+ b) +:+ c = a +:+ b +:+ c.
Proof.
  induction a as [|x a IH]; [done|].
  change ((String x a +:+ b) +:+ c) with (String x ((a +:+ b) +:+ c)).
  by rewrite IH.
Qed.

Lemma ends_with_separator_app (a b : string) :
  b <> "" ->
  Disk.ends_with_separator (a +:+ b) = Disk.ends_with_separator b.
Proof.
  intros Hb. induction a as [|x a IH]; [done|].
  change (String x a +:+ b) with (String x (a +:+ b)).
  cbn [Disk.ends_with_separator].
  destruct (a +:+ b) eqn:Hab; [|done].
  by destruct (append_not_empty a b Hb).
Qed.

(** The path of a sector file, spelled out: one separator between the root
    and the directory of the type, none added to a root that ends with
    one. *)
Lemma sector_path_spelling (root : string) (type : SectorFileType)
    (sector : SectorId) :
  type ∈ kSectorFileTypes -> root <> "" ->
  sector_path root type sector
  = root +:+ (if Disk.ends_with_separator root then "" else "/")
         +:+ toString type +:+ "/" +:+ sectorName sector.
Proof.
  intros Hin Hroot. unfold sector_path, sectorName.
  assert (exists c b,
            toString type = String c b /\ Disk.is_separator c = false
            /\ Disk.ends_with_separator (String c b) = false)
    as (c & b & -> & Hc & Hend).
  { apply kSectorFileTypes_cases in Hin.
    destruct Hin as [-> | [-> | ->]]; by eexists _, _. }
  change ("s-t0" +:+ ?x) with (String "s" ("-t0" +:+ x)).
  set (name := String "s" _). set (dir := String c b) in *.
  assert (Disk.join root dir
          = root +:+ (if Disk.ends_with_separator root then "" else "/")
                 +:+ dir) as ->.
  { unfold Disk.join, dir. rewrite bool_decide_eq_false_2, Hc by done.
    by destruct (Disk.ends_with_separator root). }
  unfold Disk.join, name.
  rewrite bool_decide_eq_false_2
    by (apply append_not_empty, append_not_empty; done).
  rewrite !ends_with_separator_app, Hend
    by (done || by apply append_not_empty).
  cbn [Disk.is_separator Ascii.eqb orb]. cbv beta iota.
  by rewrite !string_append_assoc.
Qed.

Section Response.

Context {I : Type} {index_impl : SectorIndex I}.

Implicit Types (st : State I) (sector : SectorId) (type : SectorFileType).

(** The storage [first_local] picks is one of the list, and it is registered
    with a path that is not empty. *)
Lemma first_local_Some (registry : gmap StorageID string) infos info p :
  first_local registry infos = Some (info, p) ->
  info ∈ infos /\ registry !! id info = Some p /\ p <> EmptyString.
Proof.
  induction infos as [|i rest IH]; [done|]. simpl.
  destruct (registry !! id i) as [q|] eqn:Hreg.
  - destruct (bool_decide (q = "")) eqn:Hq.
    + intros H. destruct (IH H) as (? & ? & ?).
      split; [by apply elem_of_cons; right|done].
    + intros [= -> ->]. apply bool_decide_eq_false in Hq.
      split; [by apply elem_of_cons; left|done].
  - intros H. destruct (IH H) as (? & ? & ?).
    split; [by apply elem_of_cons; right|done].
Qed.

(** The first loop leaves alone the entry of a type it was not asked for. *)
Lemma acquire_existing_skips type sector types :
  Forall (fun t => t = type \/ Z.land type t = 0%Z) types ->
  forall existing result st,
    Z.land type existing = 0%Z ->
    let result' := (acquire_existing types sector existing result st).1.1 in
    getPathByType type (paths result') = getPathByType type (paths result)
    /\ getPathByType type (stores result')
       = getPathByType type (stores result).
Proof.
  induction types as [|t rest IH]; intros Hap existing result st Hbit;
    [done|].
  apply Forall_cons in Hap as [Ht Hap]. cbv zeta.
  rewrite acquire_existing_cons.
  destruct (Z.eqb_spec (Z.land t existing) 0) as [Hzero|Hset];
    [by apply IH|].
  assert (t <> type) as Hne by (intros ->; done).
  destruct Ht as [?|Ht]; [done|].
  destruct (storageFindSector sector t false (index_ st)) as [infos|c];
    [|by apply IH].
  destruct (first_local (paths_ st) infos) as [[info sp]|]; [|by apply IH].
  edestruct (IH Hap (Z.lxor existing t)) as [-> ->].
  { by rewrite land_lxor_distr, Hbit, Ht. }
  simpl. by rewrite !getPathByType_set_other.
Qed.

(** The first loop gives a type that is asked for and held locally the path
    of the first local holder. *)
Lemma acquire_existing_finds type sector types :
  type ∈ kSectorFileTypes ->
  disjoint_bits types ->
  type ∈ types ->
  forall existing result st infos info p,
    Z.land type existing <> 0%Z ->
    storageFindSector sector type false (index_ st) = index_ok infos ->
    first_local (paths_ st) infos = Some (info, p) ->
    let result' := (acquire_existing types sector existing result st).1.1 in
    getPathByType type (paths result')
    = success (sector_path p type sector)
    /\ getPathByType type (stores result') = success (id info).
Proof.
  intros Hvalid. induction types as [|t rest IH];
    intros Hdis Hin existing result st infos info p Hbit Hfind Hloc.
  { by apply elem_of_nil in Hin. }
  cbv zeta. rewrite acquire_existing_cons.
  destruct (decide (t = type)) as [->|Hne].
  - rewrite (proj2 (Z.eqb_neq _ _) Hbit), Hfind, Hloc.
    destruct Hdis as [Hhead Hrest].
    edestruct (acquire_existing_skips type sector rest
                 (disjoint_bits_apart _ _ Hhead)) as [-> ->].
    { destruct (kSectorFileTypes_single_bit type existing Hvalid)
        as [?|Hex]; [done|].
      rewrite land_lxor_distr, Hex, Z.land_diag. apply Z.lxor_nilpotent. }
    simpl. by rewrite !getPathByType_set_same.
  - apply elem_of_cons in Hin as [?|Hin]; [done|].
    pose proof (disjoint_bits_elem _ _ _ Hdis Hin) as Hapart.
    destruct Hdis as [_ Hrest].
    destruct (Z.land t existing =? 0)%Z; [by eapply IH|].
    destruct (storageFindSector sector t false (index_ st)) as [infos'|c].
    + destruct (first_local (paths_ st) infos') as [[info' sp]|];
        [|by eapply IH].
      eapply IH; [done..| | |]; [|done..].
      by rewrite land_lxor_distr, Hapart, Z.lxor_0_r.
    + by eapply IH.
Qed.

(** The second loop, when it succeeds, gives every type asked for the path
    of the first local candidate of [storageBestAlloc]. *)
Lemma acquire_allocate_sets type sector proof can_seal types :
  type ∈ kSectorFileTypes ->
  disjoint_bits types ->
  type ∈ types ->
  forall allocate result st resp,
    Z.land type allocate <> 0%Z ->
    (acquire_allocate types sector proof can_seal allocate result st).1
    = success resp ->
    exists infos info p,
      storageBestAlloc type proof can_seal (index_ st) = index_ok infos
      /\ first_local (paths_ st) infos = Some (info, p)
      /\ getPathByType type (paths resp)
         = success (sector_path p type sector)
      /\ getPathByType type (stores resp) = success (id info).
Proof.
  intros Hvalid. induction types as [|t rest IH];
    intros Hdis Hin allocate result st resp Hbit.
  { by apply elem_of_nil in Hin. }
  rewrite acquire_allocate_cons.
  destruct (decide (t = type)) as [->|Hne].
  - rewrite (proj2 (Z.eqb_neq _ _) Hbit).
    destruct (storageBestAlloc type proof can_seal (index_ st))
      as [infos|c]; [|done].
    destruct (first_local (paths_ st) infos) as [[info p]|] eqn:Hloc;
      [|done].
    intros Hrun. exists infos, info, p. split; [done|]. split; [done|].
    destruct Hdis as [Hhead _].
    eapply (acquire_allocate_keeps type) in Hrun as [-> ->].
    + simpl. by rewrite !getPathByType_set_same.
    + by apply disjoint_bits_apart.
    + destruct (kSectorFileTypes_single_bit type allocate Hvalid)
        as [?|Hex]; [done|].
      rewrite land_lxor_distr, Hex, Z.land_diag. apply Z.lxor_nilpotent.
  - apply elem_of_cons in Hin as [?|Hin]; [done|].
    pose proof (disjoint_bits_elem _ _ _ Hdis Hin) as Hapart.
    destruct Hdis as [_ Hrest].
    destruct (Z.land t allocate =? 0)%Z; [by eapply IH|].
    destruct (storageBestAlloc t proof can_seal (index_ st)) as [infos'|c];
      [|done].
    destruct (first_local (paths_ st) infos') as [[info' sp]|]; [|done].
    intros Hrun. eapply IH in Hrun; [exact Hrun|done..|].
    by rewrite land_lxor_distr, Hapart, Z.lxor_0_r.
Qed.


(** A call that succeeds had disjoint masks and ran both loops. *)
Lemma acquireSector_success sector proof existing allocate can_seal st resp :
  (acquireSector sector proof existing allocate can_seal st).1 = success resp ->
  Z.land existing allocate = 0%Z
  /\ (acquire_allocate kSectorFileTypes sector proof can_seal allocate
        (acquire_existing kSectorFileTypes sector existing emptyResponse
           st).1.1
        (acquire_existing kSectorFileTypes sector existing emptyResponse
           st).2).1 = success resp.
Proof.
  destruct (decide (Z.land existing allocate = 0%Z)) as [Hdis|Hov].
  - rewrite acquireSector_disjoint, acquireSectorWithoutLock_unfold by done.
    by intros.
  - unfold acquireSector.
    destruct (Z.lor existing allocate =? Z.lxor existing allocate)%Z
      eqn:Htest; [|done].
    by apply masks_disjoint_iff in Htest.
Qed.

(** X4. Every file type asked for in [allocate] gets, in a response, the path
    [<root>/<type>/<sector name>] under the root of the first storage in the
    answer of [storageBestAlloc] that is registered here with a path (no
    storage before it in the answer is), and that storage's id. *)
Theorem acquireSector_allocated sector proof existing allocate can_seal st
    resp type :
  (acquireSector sector proof existing allocate can_seal st).1 = success resp ->
  type ∈ kSectorFileTypes ->
  Z.land type allocate <> 0%Z ->
  exists infos info root,
    storageBestAlloc type proof can_seal (index_ st) = index_ok infos
    /\ first_registered (paths_ st) infos info root
    /\ getPathByType type (paths resp)
       = success (sector_path root type sector)
    /\ sector_path root type sector
       = root +:+ (if Disk.ends_with_separator root then "" else "/")
              +:+ toString type +:+ "/" +:+ sectorName sector
    /\ getPathByType type (stores resp) = success (id info).
Proof.
  intros Hrun Hin Hbit. apply acquireSector_success in Hrun as [_ Hrun].
  set (found := acquire_existing kSectorFileTypes sector existing
                  emptyResponse st) in *.
  assert (Hsame : same_store st found.2) by apply acquire_existing_same.
  destruct Hsame as (Hindex & Hpaths & _).
  eapply (acquire_allocate_sets type) in Hrun
    as (infos & info & root & Hbest & Hloc & Hp & Hs);
    [|done|apply kSectorFileTypes_disjoint|done|done].
  rewrite Hindex in Hbest. rewrite Hpaths in Hloc.
  apply first_local_first_registered in Hloc.
  destruct (first_registered_elem _ _ _ _ Hloc) as (_ & _ & Hroot).
  exists infos, info, root.
  split; [done|]. split; [done|]. split; [done|].
  split; [by apply sector_path_spelling|done].
Qed.

(** X5. Every file type asked for in [existing] that a storage registered
    here holds gets, in a response, the path under the root of the first
    storage in the answer of [storageFindSector] that is registered here (no
    storage before it in the answer is), and that storage's id. *)
Theorem acquireSector_existing sector proof existing allocate can_seal st
    resp type infos info root :
  (acquireSector sector proof existing allocate can_seal st).1 = success resp ->
  type ∈ kSectorFileTypes ->
  Z.land type existing <> 0%Z ->
  storageFindSector sector type false (index_ st) = index_ok infos ->
  first_registered (paths_ st) infos info root ->
  getPathByType type (paths resp) = success (sector_path root type sector)
  /\ sector_path root type sector
     = root +:+ (if Disk.ends_with_separator root then "" else "/")
            +:+ toString type +:+ "/" +:+ sectorName sector
  /\ getPathByType type (stores resp) = success (id info).
Proof.
  intros Hrun Hin Hbit Hfind Hfirst.
  destruct (first_registered_elem _ _ _ _ Hfirst) as (_ & _ & Hroot).
  apply first_local_first_registered in Hfirst.
  apply acquireSector_success in Hrun as [Hdis Hrun].
  assert (Z.land type allocate = 0%Z) as Hfree.
  { destruct (kSectorFileTypes_single_bit type existing Hin) as [?|Hex];
      [done|].
    by rewrite <- Hex, <- Z.land_assoc, Hdis, Z.land_0_r. }
  apply (acquire_allocate_keeps type _ _ _ _ (kSectorFileTypes_apart _ Hin))
    in Hrun as [-> ->]; [|done].
  destruct (acquire_existing_finds type sector kSectorFileTypes Hin
              kSectorFileTypes_disjoint Hin existing emptyResponse st
              infos info root Hbit Hfind Hfirst) as [-> ->].
  split; [done|]. split; [by apply sector_path_spelling|done].
Qed.

(** X6. A response has no path and no storage for a file type that is neither in
    [existing] nor in [allocate]. *)
Theorem acquireSector_no_stray_path sector proof existing allocate can_seal
    st resp type :
  (acquireSector sector proof existing allocate can_seal st).1 = success resp ->
  type ∈ kSectorFileTypes ->
  Z.land type (Z.lor existing allocate) = 0%Z ->
  getPathByType type (paths resp) = success EmptyString
  /\ getPathByType type (stores resp) = success EmptyString.
Proof.
  intros Hrun Hin Hbit. apply acquireSector_success in Hrun as [_ Hrun].
  rewrite Z.land_lor_distr_r in Hbit. apply Z.lor_eq_0_iff in Hbit as [He Ha].
  apply (acquire_allocate_keeps type _ _ _ _ (kSectorFileTypes_apart _ Hin))
    in Hrun as [-> ->]; [|done].
  destruct (acquire_existing_skips type sector kSectorFileTypes
              (kSectorFileTypes_apart _ Hin) existing emptyResponse st He)
    as [-> ->].
  apply kSectorFileTypes_cases in Hin. by destruct Hin as [-> | [-> | ->]].
Qed.

(** X7. [acquireSector] only reads: whether it succeeds or not, the index, the
    path registry and the disk are as before. *)
Theorem acquireSector_reads_only sector proof existing allocate can_seal st :
  let st' := (acquireSector sector proof existing allocate can_seal st).2 in
  index_ st' = index_ st /\ paths_ st' = paths_ st /\ disk st' = disk st.
Proof.
  cbv zeta. unfold acquireSector.
  destruct (negb _); [done|].
  destruct (acquireSectorWithoutLock_same sector proof existing allocate
              can_seal st) as (? & ? & ? & _). done.
Qed.

End Response.

End AcquireFacts.

Module AcquireRuns.

Import LocalStore AcquireFacts Scenario MoreScenario.

(** The candidates for a sealed file, best first: [remote], which is not
    registered here, then [trail], whose root ends with a separator. *)
Lemma acquireSector_allocated_witness :
  exists infos info root,
    storageBestAlloc FTSealed StackedDRG2KiBSeal true (index_ mixed)
    = index_ok infos
    /\ first_registered (paths_ mixed) infos info root
    /\ getPathByType FTSealed
         (paths (set_response FTSealed "/mnt/trail/sealed/s-t01000-9" "trail"
                   emptyResponse))
       = success (sector_path root FTSealed sector9)
    /\ sector_path root FTSealed sector9
       = root +:+ (if Disk.ends_with_separator root then "" else "/")
              +:+ toString FTSealed +:+ "/" +:+ sectorName sector9
    /\ getPathByType FTSealed
         (stores (set_response FTSealed "/mnt/trail/sealed/s-t01000-9"
                    "trail" emptyResponse))
       = success (id info).
Proof.
  apply (acquireSector_allocated sector9 StackedDRG2KiBSeal FTNone FTSealed
           true mixed).
  - vm_compute. reflexivity.
  - apply elem_of_cons. right. apply elem_of_cons. by left.
  - vm_compute. discriminate.
Defined.

(** The holders of the sealed file of sector 7, best first: [remote],
    [trail], [slow]; the second is the first that is registered here. *)
Lemma acquireSector_existing_witness :
  getPathByType FTSealed
    (paths (set_response FTSealed "/mnt/trail/sealed/s-t01000-7" "trail"
              emptyResponse))
  = success (sector_path "/mnt/trail/" FTSealed sector7)
  /\ sector_path "/mnt/trail/" FTSealed sector7
     = "/mnt/trail/"
         +:+ (if Disk.ends_with_separator "/mnt/trail/" then "" else "/")
         +:+ toString FTSealed +:+ "/" +:+ sectorName sector7
  /\ getPathByType FTSealed
       (stores (set_response FTSealed "/mnt/trail/sealed/s-t01000-7" "trail"
                  emptyResponse))
     = success "trail".
Proof.
  apply (acquireSector_existing sector7 StackedDRG2KiBSeal FTSealed FTNone
           true mixed _ FTSealed [info_remote; info_trail; info_slow]
           info_trail "/mnt/trail/").
  - vm_compute. reflexivity.
  - apply elem_of_cons. right. apply elem_of_cons. by left.
  - vm_compute. discriminate.
  - vm_compute. reflexivity.
  - exists [info_remote], [info_slow]. split; [reflexivity|].
    split; [split; [vm_compute; reflexivity|discriminate]|].
    intros other r Hin [Hreg _].
    apply elem_of_cons in Hin as [-> | Hin]; [|by apply elem_of_nil in Hin].
    vm_compute in Hreg. discriminate.
Defined.

(** The same two calls, as they run. *)
Example acquireSector_first_registered_run :
  (acquireSector sector7 StackedDRG2KiBSeal FTSealed FTUnsealed false
     mixed).1
  = success
      {| paths :=
           {| paths_id := {| miner := 0; sector := 0 |};
              unsealed := "/mnt/trail/unsealed/s-t01000-7";
              sealed := "/mnt/trail/sealed/s-t01000-7"; cache := "" |};
         stores :=
           {| paths_id := {| miner := 0; sector := 0 |};
              unsealed := "trail"; sealed := "trail"; cache := "" |} |}.
Proof. vm_compute. reflexivity. Qed.

Lemma acquireSector_no_stray_path_witness :
  getPathByType FTCache
    (paths (set_response FTUnsealed "/tmp/s1/unsealed/s-t01000-9" "s1"
              emptyResponse))
  = success EmptyString
  /\ getPathByType FTCache
       (stores (set_response FTUnsealed "/tmp/s1/unsealed/s-t01000-9" "s1"
                  emptyResponse))
     = success EmptyString.
Proof.
  apply (acquireSector_no_stray_path sector9 StackedDRG2KiBSeal FTSealed
           FTUnsealed true opened_s1).
  - vm_compute. reflexivity.
  - apply elem_of_cons. right. apply elem_of_cons. right.
    apply elem_of_cons. by left.
  - vm_compute. reflexivity.
Defined.

End AcquireRuns.
(** ** More on [openPath], [getFsStat] and [newLocalStore] *)

Module OpenPathFacts.

Import LocalStore LocalStoreMore LocalStoreFacts.

Section Open.

Context {I : Type} {index_impl : SectorIndex I}.

Implicit Types (st : State I) (sector : SectorId) (type : SectorFileType).

(** The record of index calls only grows, and [getStat] keeps its answers,
    through the steps of a scan. *)
Lemma index_attach_calls info stat st :
  calls (index_attach info stat st).2 = calls st ++ [CallAttach (id info)]
  /\ disk (index_attach info stat st).2 = disk st.
Proof. unfold index_attach. by destruct (storageAttach _ _ _). Qed.

Lemma index_declare_calls storage sector type st :
  calls (index_declare storage sector type st).2
  = calls st ++ [CallDeclare storage sector type]
  /\ disk (index_declare storage sector type st).2 = disk st.
Proof. unfold index_declare. by destruct (storageDeclareSector _ _ _ _). Qed.

Lemma declare_entry_kept storage type filename st :
  calls st ⊆ calls (declare_entry storage type filename st).2
  /\ disk (declare_entry storage type filename st).2 = disk st.
Proof.
  unfold declare_entry, bind, lift.
  destruct (parseSectorId filename) as [sector|e]; [|done].
  destruct (index_declare_calls storage sector type st) as [-> ->].
  split; [|done]. intros c Hc. apply elem_of_app. by left.
Qed.

Lemma for_each_declare_kept storage type names st :
  calls st ⊆ calls (for_each (declare_entry storage type) names st).2
  /\ disk (for_each (declare_entry storage type) names st).2 = disk st.
Proof.
  revert st. induction names as [|n rest IH]; intros st; [done|].
  simpl. unfold bind.
  destruct (declare_entry_kept storage type n st) as [Hc Hd].
  destruct (declare_entry storage type n st) as [[[]|e] st1]; [|done].
  destruct (IH st1) as [Hc' Hd']. simpl in Hc, Hd.
  split; [by etrans|congruence].
Qed.

Lemma scan_type_kept root storage type st :
  calls st ⊆ calls (scan_type root storage type st).2
  /\ Disk.stats (disk (scan_type root storage type st).2)
     = Disk.stats (disk st).
Proof.
  unfold scan_type.
  destruct (Disk.exists_ _ (disk st)) eqn:Hex; simpl negb; cbv iota.
  - destruct (for_each_declare_kept storage type
                (Disk.directory_entries (Disk.join root (toString type))
                   (disk st)) st) as [Hc ->]. done.
  - unfold Disk.create_directories. by rewrite Hex.
Qed.

Lemma for_each_scan_kept root storage types st :
  calls st ⊆ calls (for_each (scan_type root storage) types st).2
  /\ Disk.stats (disk (for_each (scan_type root storage) types st).2)
     = Disk.stats (disk st).
Proof.
  revert st. induction types as [|t rest IH]; intros st; [done|].
  simpl. unfold bind.
  destruct (scan_type_kept root storage t st) as [Hc Hd].
  destruct (scan_type root storage t st) as [[[]|e] st1]; [|done].
  destruct (IH st1) as [Hc' Hd']. simpl in Hc, Hd.
  split; [by etrans|congruence].
Qed.

(** A directory scan that succeeds declared every name of the list. *)
Lemma for_each_declare_success storage type names st :
  (for_each (declare_entry storage type) names st).1 = success tt ->
  forall filename, filename ∈ names ->
    exists sector,
      parseSectorId filename = success sector
      /\ CallDeclare storage sector type
         ∈ calls (for_each (declare_entry storage type) names st).2.
Proof.
  revert st. induction names as [|n rest IH]; intros st Hrun filename Hin.
  { by apply elem_of_nil in Hin. }
  simpl in *. unfold bind in *.
  destruct (declare_entry storage type n st) as [[[]|e] st1] eqn:Hn;
    [|done].
  apply elem_of_cons in Hin as [->|Hin]; [|by apply IH].
  unfold declare_entry, bind, lift in Hn.
  destruct (parseSectorId n) as [sector|e]; [|done].
  exists sector. split; [done|].
  destruct (for_each_declare_kept storage type rest st1) as [Hkept _].
  apply Hkept.
  destruct (index_declare_calls storage sector type st) as [Hc _].
  rewrite Hn in Hc. simpl in Hc. rewrite Hc.
  apply elem_of_app. right. by apply list_elem_of_singleton.
Qed.

(** After a scan of a type that succeeds the directory of the type exists. *)
Lemma scan_type_exists root storage type st :
  (scan_type root storage type st).1 = success tt ->
  Disk.exists_ (Disk.join root (toString type))
    (disk (scan_type root storage type st).2) = true.
Proof.
  unfold scan_type.
  destruct (Disk.exists_ _ (disk st)) eqn:Hex; simpl negb; cbv iota.
  - intros _.
    destruct (for_each_declare_kept storage type
                (Disk.directory_entries (Disk.join root (toString type))
                   (disk st)) st) as [_ ->]. done.
  - unfold Disk.create_directories. rewrite Hex. simpl. intros _.
    unfold Disk.exists_. simpl. apply bool_decide_eq_true.
    rewrite lookup_insert_eq. by eexists.
Qed.

Lemma exists_kept st st' dir :
  scan_frame st st' ->
  Disk.exists_ dir (disk st) = true -> Disk.exists_ dir (disk st') = true.
Proof.
  intros (_ & _ & _ & Hdirs). unfold Disk.exists_.
  rewrite !bool_decide_eq_true. intros [entries Hdir].
  exists entries. by apply Hdirs.
Qed.

(** A scan of the types that succeeds: every directory exists in the end,
    and every name that was in one of them at the start was declared. *)
Lemma for_each_scan_success root storage types st :
  (for_each (scan_type root storage) types st).1 = success tt ->
  forall type, type ∈ types ->
    Disk.exists_ (Disk.join root (toString type))
      (disk (for_each (scan_type root storage) types st).2) = true
    /\ forall filename,
         filename
           ∈ Disk.directory_entries (Disk.join root (toString type)) (disk st)
         ->
         exists sector,
           parseSectorId filename = success sector
           /\ CallDeclare storage sector type
              ∈ calls (for_each (scan_type root storage) types st).2.
Proof.
  revert st. induction types as [|t rest IH]; intros st Hrun type Hin.
  { by apply elem_of_nil in Hin. }
  simpl in *. unfold bind in *.
  pose proof (scan_type_frame root storage t st) as Hframe.
  pose proof (scan_type_exists root storage t st) as Hexists.
  destruct (scan_type root storage t st) as [[[]|e] st1] eqn:Hscan; [|done].
  simpl in Hframe, Hexists.
  pose proof (for_each_frame (scan_type root storage) rest
                (fun x st => scan_type_frame root storage x st) st1)
    as Hrest.
  destruct (for_each_scan_kept root storage rest st1) as [Hkept _].
  apply elem_of_cons in Hin as [->|Hin].
  - split; [by eapply exists_kept; [exact Hrest|apply Hexists]|].
    intros filename Hfile.
    apply directory_entries_elem in Hfile as (entries & Hdir & Hfile).
    assert (scan_type root storage t st
            = for_each (declare_entry storage t)
                (Disk.directory_entries (Disk.join root (toString t))
                   (disk st)) st) as Hdeclare.
    { unfold scan_type, Disk.exists_.
      by rewrite bool_decide_eq_true_2 by (rewrite Hdir; by eexists). }
    destruct (for_each_declare_success storage t
                (Disk.directory_entries (Disk.join root (toString t))
                   (disk st)) st) with (filename := filename)
      as (sector & Hparse & Hcall).
    + by rewrite <- Hdeclare, Hscan.
    + unfold Disk.directory_entries. by rewrite Hdir.
    + exists sector. split; [done|]. apply Hkept.
      by rewrite <- Hdeclare, Hscan in Hcall.
  - destruct (IH st1 Hrun type Hin) as [Hex Hfiles]. split; [done|].
    intros filename Hfile. apply Hfiles.
    apply directory_entries_elem in Hfile as (entries & Hdir & Hfile).
    destruct Hframe as (_ & _ & _ & Hdirs).
    unfold Disk.directory_entries. by rewrite (Hdirs _ _ Hdir).
Qed.

(** What a call of [openPath] that succeeds has done. *)
Lemma openPath_success_parts path st :
  (openPath path st).1 = success tt ->
  exists meta stat st1 st2,
    Disk.meta_files (disk st) !! path = Some (Disk.MetaOk meta)
    /\ paths_ st !! meta_id meta = None
    /\ Disk.getStat path (disk st) = success stat
    /\ index_attach {| id := meta_id meta; urls := urls_ st;
                       weight := meta_weight meta;
                       can_seal := meta_can_seal meta;
                       can_store := meta_can_store meta |} stat st
       = (success tt, st1)
    /\ for_each (scan_type path (meta_id meta)) kSectorFileTypes st1
       = (success tt, st2)
    /\ (openPath path st).2
       = set_paths (<[meta_id meta := path]> (paths_ st2)) st2.
Proof.
  destruct (Disk.meta_files (disk st) !! path) as [[|e|meta]|] eqn:Hmeta;
    try (unfold openPath; rewrite Hmeta; discriminate).
  destruct (paths_ st !! meta_id meta) as [p|] eqn:Hreg.
  { unfold openPath. rewrite Hmeta.
    rewrite bool_decide_eq_true_2 by (rewrite Hreg; by eexists). discriminate. }
  rewrite (openPath_fresh path st meta Hmeta Hreg).
  destruct (Disk.getStat path (disk st)) as [stat|e]; [|discriminate].
  destruct (index_attach _ stat st) as [[[]|e] st1] eqn:Hattach;
    [|discriminate].
  destruct (for_each _ kSectorFileTypes st1) as [[[]|e] st2] eqn:Hscan;
    [|discriminate].
  intros _. by exists meta, stat, st1, st2.
Qed.

(** X8. When [openPath] succeeds: the metadata file named a storage that was not
    registered, and it is registered now under the path, next to what was
    registered before; the storage was attached to the index; the directory
    of every file type exists; and every file name found in one of these
    directories is the name of a sector, which was declared for the storage
    under that type. *)
Theorem openPath_success_effects path st :
  (openPath path st).1 = success tt ->
  exists meta,
    Disk.meta_files (disk st) !! path = Some (Disk.MetaOk meta)
    /\ paths_ st !! meta_id meta = None
    /\ paths_ (openPath path st).2 = <[meta_id meta := path]> (paths_ st)
    /\ CallAttach (meta_id meta) ∈ calls (openPath path st).2
    /\ forall type, type ∈ kSectorFileTypes ->
         Disk.exists_ (Disk.join path (toString type))
           (disk (openPath path st).2) = true
         /\ forall filename,
              filename
                ∈ Disk.directory_entries (Disk.join path (toString type))
                    (disk st) ->
              exists sector,
                parseSectorId filename = success sector
                /\ CallDeclare (meta_id meta) sector type
                   ∈ calls (openPath path st).2.
Proof.
  intros Hrun.
  destruct (openPath_success_parts path st Hrun)
    as (meta & stat & st1 & st2 & Hmeta & Hfresh & _ & Hattach & Hscan & ->).
  exists meta. split; [done|]. split; [done|].
  pose proof (index_attach_frame
                {| id := meta_id meta; urls := urls_ st;
                   weight := meta_weight meta;
                   can_seal := meta_can_seal meta;
                   can_store := meta_can_store meta |} stat st) as Hf1.
  destruct (index_attach_calls
              {| id := meta_id meta; urls := urls_ st;
                 weight := meta_weight meta;
                 can_seal := meta_can_seal meta;
                 can_store := meta_can_store meta |} stat st) as [Hc1 Hd1].
  rewrite Hattach in Hf1, Hc1, Hd1. simpl in Hf1, Hc1, Hd1.
  pose proof (for_each_frame (scan_type path (meta_id meta)) kSectorFileTypes
                (fun x st => scan_type_frame path (meta_id meta) x st) st1)
    as Hf2.
  destruct (for_each_scan_kept path (meta_id meta) kSectorFileTypes st1)
    as [Hkept _].
  pose proof (for_each_scan_success path (meta_id meta) kSectorFileTypes st1)
    as Hsucc.
  rewrite Hscan in Hf2, Hkept, Hsucc. simpl in Hf2, Hkept, Hsucc.
  simpl. split.
  { destruct Hf1 as (Hp1 & _), Hf2 as (Hp2 & _). by rewrite Hp2, Hp1. }
  split.
  { apply Hkept. rewrite Hc1. apply elem_of_app. right.
    by apply list_elem_of_singleton. }
  intros type Hin. destruct (Hsucc eq_refl type Hin) as [Hex Hfiles].
  split; [done|]. intros filename Hfile. apply Hfiles. by rewrite Hd1.
Qed.

(** X9. A call of [openPath] that fails registers nothing: the path registry is
    as before (the index may have been changed already), and [getFsStat]
    answers for every storage as it did before the call. *)
Theorem openPath_failure_keeps_registry path st :
  has_error (openPath path st).1 = true ->
  paths_ (openPath path st).2 = paths_ st
  /\ forall storage,
       getFsStat storage (openPath path st).2 = getFsStat storage st.
Proof.
  intros Hfail.
  enough (paths_ (openPath path st).2 = paths_ st
          /\ Disk.stats (disk (openPath path st).2) = Disk.stats (disk st))
    as [Hp Hs].
  { split; [done|]. intros storage. unfold getFsStat, Disk.getStat.
    by rewrite Hp, Hs. }
  revert Hfail.
  destruct (Disk.meta_files (disk st) !! path) as [[|e|meta]|] eqn:Hmeta;
    try (unfold openPath; by rewrite Hmeta).
  destruct (paths_ st !! meta_id meta) as [p|] eqn:Hreg.
  { unfold openPath. rewrite Hmeta.
    by rewrite bool_decide_eq_true_2 by (rewrite Hreg; by eexists). }
  rewrite (openPath_fresh path st meta Hmeta Hreg).
  destruct (Disk.getStat path (disk st)) as [stat|e]; [|done].
  pose proof (index_attach_frame
                {| id := meta_id meta; urls := urls_ st;
                   weight := meta_weight meta;
                   can_seal := meta_can_seal meta;
                   can_store := meta_can_store meta |} stat st) as Hf1.
  destruct (index_attach_calls
              {| id := meta_id meta; urls := urls_ st;
                 weight := meta_weight meta;
                 can_seal := meta_can_seal meta;
                 can_store := meta_can_store meta |} stat st) as [_ Hd1].
  destruct (index_attach _ stat st) as [[[]|e] st1].
  2:{ simpl in *. destruct Hf1 as (? & _). by rewrite Hd1. }
  pose proof (for_each_frame (scan_type path (meta_id meta)) kSectorFileTypes
                (fun x st => scan_type_frame path (meta_id meta) x st) st1)
    as Hf2.
  destruct (for_each_scan_kept path (meta_id meta) kSectorFileTypes st1)
    as [_ Hd2].
  destruct (for_each _ kSectorFileTypes st1) as [[[]|e] st2]; [done|].
  intros _. destruct Hf1 as (Hp1 & _), Hf2 as (Hp2 & _). simpl in *.
  split; congruence.
Qed.

(** X10. Two storage roots whose metadata files carry the same id: once the first
    is open, opening the second returns [DuplicateStorage] and changes
    nothing. *)
Theorem openPath_same_id path1 path2 st meta1 meta2 :
  (openPath path1 st).1 = success tt ->
  Disk.meta_files (disk st) !! path1 = Some (Disk.MetaOk meta1) ->
  Disk.meta_files (disk st) !! path2 = Some (Disk.MetaOk meta2) ->
  meta_id meta2 = meta_id meta1 ->
  openPath path2 (openPath path1 st).2
  = (failure (StoreError DuplicateStorage), (openPath path1 st).2).
Proof.
  intros Hrun Hm1 Hm2 Hid.
  destruct (openPath_success_parts path1 st Hrun)
    as (meta & stat & st1 & st2 & Hmeta & Hfresh & _ & Hattach & Hscan & ->).
  assert (meta = meta1) as -> by congruence.
  pose proof (index_attach_frame
                {| id := meta_id meta1; urls := urls_ st;
                   weight := meta_weight meta1;
                   can_seal := meta_can_seal meta1;
                   can_store := meta_can_store meta1 |} stat st) as Hf1.
  pose proof (for_each_frame (scan_type path1 (meta_id meta1))
                kSectorFileTypes
                (fun x st => scan_type_frame path1 (meta_id meta1) x st) st1)
    as Hf2.
  rewrite Hattach in Hf1. rewrite Hscan in Hf2. simpl in Hf1, Hf2.
  destruct Hf1 as (_ & _ & Hmf1 & _), Hf2 as (_ & _ & Hmf2 & _).
  unfold openPath at 1. simpl disk. rewrite Hmf2, Hmf1, Hm2. simpl paths_.
  rewrite Hid. by rewrite bool_decide_eq_true_2
    by (rewrite lookup_insert_eq; by eexists).
Qed.


(** A run of [openPath] over a list of paths that succeeds. *)
Lemma for_each_openPath_success store_paths st :
  (for_each openPath store_paths st).1 = success tt ->
  let st' := (for_each openPath store_paths st).2 in
  (forall k v, paths_ st !! k = Some v -> paths_ st' !! k = Some v)
  /\ Disk.meta_files (disk st') = Disk.meta_files (disk st)
  /\ NoDup store_paths
  /\ forall p, p ∈ store_paths ->
       exists meta,
         Disk.meta_files (disk st) !! p = Some (Disk.MetaOk meta)
         /\ paths_ st !! meta_id meta = None
         /\ paths_ st' !! meta_id meta = Some p.
Proof.
  revert st. induction store_paths as [|p rest IH]; intros st Hrun.
  { cbv zeta. simpl. split; [done|]. split; [done|].
    split; [constructor|]. intros p Hp. by apply elem_of_nil in Hp. }
  cbv zeta. simpl in *. unfold bind in *.
  pose proof (openPath_success_parts p st) as Hparts.
  destruct (openPath p st) as [[[]|e] st1] eqn:Hopen; [|done].
  destruct (Hparts eq_refl)
    as (meta & stat & sa & sb & Hmeta & Hfresh & _ & Hattach & Hscan & Hst1).
  simpl in Hst1.
  pose proof (index_attach_frame
                {| id := meta_id meta; urls := urls_ st;
                   weight := meta_weight meta;
                   can_seal := meta_can_seal meta;
                   can_store := meta_can_store meta |} stat st) as Hf1.
  pose proof (for_each_frame (scan_type p (meta_id meta)) kSectorFileTypes
                (fun x st => scan_type_frame p (meta_id meta) x st) sa) as Hf2.
  rewrite Hattach in Hf1. rewrite Hscan in Hf2. simpl in Hf1, Hf2.
  destruct Hf1 as (Hp1 & _ & Hm1 & _), Hf2 as (Hp2 & _ & Hm2 & _).
  assert (paths_ st1 = <[meta_id meta := p]> (paths_ st)) as Hreg.
  { rewrite Hst1. simpl. by rewrite Hp2, Hp1. }
  assert (Disk.meta_files (disk st1) = Disk.meta_files (disk st)) as Hmf.
  { rewrite Hst1. simpl. by rewrite Hm2, Hm1. }
  destruct (IH st1 Hrun) as (Hkeep & Hmeta' & Hnodup & Hall).
  split; [|split; [congruence|split]].
  - intros k v Hk. apply Hkeep. rewrite Hreg.
    rewrite lookup_insert_ne; [done|]. intros <-. congruence.
  - constructor; [|done]. intros Hin.
    destruct (Hall p Hin) as (meta' & Hm' & Hnone & _).
    rewrite Hmf, Hmeta in Hm'. injection Hm' as <-.
    by rewrite Hreg, lookup_insert_eq in Hnone.
  - intros q Hq. apply elem_of_cons in Hq as [->|Hq].
    + exists meta. split; [done|]. split; [done|].
      apply Hkeep. by rewrite Hreg, lookup_insert_eq.
    + destruct (Hall q Hq) as (meta' & Hm' & Hnone & Hsome).
      exists meta'. rewrite Hmf in Hm'. split; [done|]. split; [|done].
      rewrite Hreg in Hnone. by apply lookup_insert_None in Hnone as [? _].
Qed.

(** X12. [newLocalStore] succeeds only when the paths of the list are pairwise
    different and each has a metadata file; every path is then registered
    under the id of its metadata file. *)
Theorem newLocalStore_registers store_paths (index : I) urls (d : Disk.t) :
  (newLocalStore (success store_paths) index urls d).1 = success tt ->
  NoDup store_paths
  /\ forall p, p ∈ store_paths ->
       exists meta,
         Disk.meta_files d !! p = Some (Disk.MetaOk meta)
         /\ paths_ (newLocalStore (success store_paths) index urls d).2
              !! meta_id meta = Some p.
Proof.
  unfold newLocalStore. intros Hrun.
  destruct (for_each_openPath_success _ _ Hrun) as (_ & _ & Hnodup & Hall).
  split; [done|]. intros p Hp.
  destruct (Hall p Hp) as (meta & Hmeta & _ & Hreg). by exists meta.
Qed.

End Open.

End OpenPathFacts.

Module OpenPathRuns.

Import LocalStore LocalStoreMore OpenPathFacts Scenario MoreScenario.

Lemma openPath_success_effects_witness :
  exists meta,
    Disk.meta_files (disk (fresh disk_s1)) !! "/tmp/s1"
    = Some (Disk.MetaOk meta)
    /\ paths_ (fresh disk_s1) !! meta_id meta = None
    /\ paths_ opened_s1 = <[meta_id meta := "/tmp/s1"]> (paths_ (fresh disk_s1))
    /\ CallAttach (meta_id meta) ∈ calls opened_s1
    /\ forall type, type ∈ kSectorFileTypes ->
         Disk.exists_ (Disk.join "/tmp/s1" (toString type)) (disk opened_s1)
         = true
         /\ forall filename,
              filename
                ∈ Disk.directory_entries (Disk.join "/tmp/s1" (toString type))
                    (disk (fresh disk_s1)) ->
              exists sector,
                parseSectorId filename = success sector
                /\ CallDeclare (meta_id meta) sector type ∈ calls opened_s1.
Proof.
  apply (openPath_success_effects "/tmp/s1" (fresh disk_s1)).
  vm_compute. reflexivity.
Defined.

Lemma openPath_failure_keeps_registry_witness :
  paths_ (openPath "/tmp/s1" (fresh disk_stray)).2 = paths_ (fresh disk_stray)
  /\ forall storage,
       getFsStat storage (openPath "/tmp/s1" (fresh disk_stray)).2
       = getFsStat storage (fresh disk_stray).
Proof.
  apply (openPath_failure_keeps_registry "/tmp/s1" (fresh disk_stray)).
  vm_compute. reflexivity.
Defined.

Lemma openPath_same_id_witness :
  openPath "/tmp/s1-copy" (openPath "/tmp/s1" (fresh disk_twins)).2
  = (failure (StoreError DuplicateStorage),
     (openPath "/tmp/s1" (fresh disk_twins)).2).
Proof.
  apply (openPath_same_id "/tmp/s1" "/tmp/s1-copy" (fresh disk_twins)
           meta_s1 meta_s1);
    vm_compute; reflexivity.
Defined.


Lemma newLocalStore_registers_witness :
  NoDup ["/tmp/s1"; "/tmp/s2"]
  /\ forall p, p ∈ ["/tmp/s1"; "/tmp/s2"] ->
       exists meta,
         Disk.meta_files disk_pair !! p = Some (Disk.MetaOk meta)
         /\ paths_ (newLocalStore (success ["/tmp/s1"; "/tmp/s2"])
                      IndexImpl.empty [] disk_pair).2
              !! meta_id meta = Some p.
Proof.
  apply (newLocalStore_registers ["/tmp/s1"; "/tmp/s2"] IndexImpl.empty []
           disk_pair).
  vm_compute. reflexivity.
Defined.

(** The same path twice in the list: the second [openPath] stops
    [newLocalStore]. *)
Example newLocalStore_duplicate :
  (newLocalStore (success ["/tmp/s1"; "/tmp/s1"]) IndexImpl.empty []
     disk_pair).1
  = failure (StoreError DuplicateStorage).
Proof. vm_compute. reflexivity. Qed.

End OpenPathRuns.
(** ** More on [moveStorage], and [remove] *)

Module MoveRemoveFacts.

Import LocalStore LocalStoreMore LocalStoreFacts.

(** The test of [remove] lets through exactly the masks of one bit. *)
Lemma single_bit_test (x : Z) :
  (x =? 0)%Z || negb (Z.land x (x - 1) =? 0)%Z = false
  <-> exists k, (0 <= k)%Z /\ x = (2 ^ k)%Z.
Proof.
  rewrite orb_false_iff, negb_false_iff, Z.eqb_neq, Z.eqb_eq. split.
  - intros [Hne Hland].
    destruct (Z.lt_trichotomy x 0) as [Hneg|[?|Hpos]]; [|done|].
    { assert (Z.land x (x - 1) < 0)%Z by (apply Z.land_neg; lia). lia. }
    exists (Z.log2 x). split; [apply Z.log2_nonneg|].
    destruct (Z.log2_spec x Hpos) as [Hlow Hhigh].
    destruct (decide (x = 2 ^ Z.log2 x)%Z) as [|Hmore]; [done|].
    exfalso.
    assert (0 < 2 ^ Z.log2 x)%Z as Hpow
      by (apply Z.pow_pos_nonneg; [lia|apply Z.log2_nonneg]).
    assert (Z.log2 (x - 1) = Z.log2 x) as Hlog.
    { apply Z.log2_unique; [apply Z.log2_nonneg|]. lia. }
    assert (Z.testbit (Z.land x (x - 1)) (Z.log2 x) = true) as Hbit.
    { rewrite Z.land_spec, Z.bit_log2 by done.
      rewrite <- Hlog. rewrite Z.bit_log2; [done|]. lia. }
    rewrite Hland, Z.bits_0 in Hbit. done.
  - intros (k & Hk & ->). split.
    + apply Z.pow_nonzero; lia.
    + replace (2 ^ k - 1)%Z with (Z.ones k)
        by (rewrite Z.ones_equiv; lia).
      rewrite Z.land_ones by done. apply Z.mod_same. apply Z.pow_nonzero; lia.
Qed.

Lemma minus_one_wraps (x : Z) : is_int64 x -> minus_one x = wrap64 (x - 1).
Proof.
  unfold is_int64, minus_one, wrap64, int64_min, int64_max.
  change (2 ^ 63)%Z with 9223372036854775808%Z.
  change (2 ^ 64)%Z with 18446744073709551616%Z.
  intros Hx. destruct (x =? _)%Z eqn:Hmin.
  - apply Z.eqb_eq in Hmin as ->. reflexivity.
  - apply Z.eqb_neq in Hmin. rewrite Z.mod_small by lia. lia.
Qed.

Lemma minus_one_positive (x : Z) : (0 < x)%Z -> minus_one x = (x - 1)%Z.
Proof.
  intros Hx. unfold minus_one, int64_min.
  destruct (Z.eqb_spec x (- 2 ^ 63)) as [->|]; [|done].
  by vm_compute in Hx.
Qed.

(** Among the 64-bit values, the powers of two with a bit below 63 and the
    least value are the ones with one bit set. *)
Lemma one_bit_of_64_cases (x : Z) :
  is_int64 x ->
  one_bit_of_64 x
  <-> x = int64_min \/ exists k, (0 <= k)%Z /\ x = (2 ^ k)%Z.
Proof.
  unfold is_int64, one_bit_of_64, int64_min, int64_max.
  change (2 ^ 63)%Z with 9223372036854775808%Z.
  change (2 ^ 64)%Z with 18446744073709551616%Z.
  intros Hx. split.
  - intros (k & Hk & Hmod).
    assert (2 ^ k <= 2 ^ 63)%Z as Hle by (apply Z.pow_le_mono_r; lia).
    assert (0 < 2 ^ k)%Z as Hpos by (apply Z.pow_pos_nonneg; lia).
    change (2 ^ 63)%Z with 9223372036854775808%Z in Hle.
    destruct (Z.neg_nonneg_cases x) as [Hneg|Hnn].
    + left.
      rewrite <- (Z.mod_add x 1 18446744073709551616) in Hmod by lia.
      rewrite Z.mod_small in Hmod by lia. lia.
    + right. exists k. split; [lia|].
      rewrite Z.mod_small in Hmod by lia. done.
  - intros [-> | (k & Hk & ->)].
    + exists 63%Z. split; [lia|]. reflexivity.
    + assert (k < 63)%Z as Hlt.
      { apply (Z.pow_lt_mono_r_iff 2); [lia|lia|].
        change (2 ^ 63)%Z with 9223372036854775808%Z. lia. }
      exists k. split; [lia|]. apply Z.mod_small.
      split; [apply Z.pow_nonneg; lia|lia].
Qed.

(** The test of [remove], on 64-bit values, lets through exactly those with
    one bit set. *)
Lemma one_bit_of_64_test (x : Z) :
  is_int64 x ->
  (x =? 0)%Z || negb (Z.land x (minus_one x) =? 0)%Z = false
  <-> one_bit_of_64 x.
Proof.
  intros Hx. rewrite (one_bit_of_64_cases x Hx).
  destruct (decide (x = int64_min)) as [->|Hne].
  - split; [by left|]. intros _. reflexivity.
  - unfold minus_one. rewrite (proj2 (Z.eqb_neq _ _) Hne).
    rewrite single_bit_test. split; [by right|]. by intros [?|?].
Qed.

Section Move.

Context {I : Type} {index_impl : SectorIndex I}.

Implicit Types (st : State I) (sector : SectorId) (type : SectorFileType).

(** X13. A type bit whose file sits on a storage that is [can_store], or on the
    storage that was picked as destination, is not moved: after the two
    look-ups nothing is dropped, renamed or declared. *)
Theorem move_type_skips sector types src dest type st
    source_storage_id dest_storage_id sst dst :
  Z.land types type <> 0%Z ->
  getPathByType type (stores src) = success source_storage_id ->
  getStorageInfo source_storage_id (index_ st) = index_ok sst ->
  getPathByType type (stores dest) = success dest_storage_id ->
  getStorageInfo dest_storage_id (index_ st) = index_ok dst ->
  id sst = id dst \/ can_store sst = true ->
  move_type sector types src dest type st
  = (success tt,
     called (CallGetInfo dest_storage_id)
       (called (CallGetInfo source_storage_id) st)).
Proof.
  intros Hbit Hsrc Hsst Hdest Hdst Hskip. unfold move_type.
  rewrite (proj2 (Z.eqb_neq _ _) Hbit), Hsrc, Hdest.
  unfold bind at 1, lift. unfold bind at 1, index_get_info at 1.
  rewrite Hsst. simpl from_index. cbv iota.
  unfold bind at 1. unfold bind at 1, index_get_info at 1. simpl index_.
  rewrite Hdst. simpl from_index. cbv iota.
  destruct Hskip as [Hid|Hstore].
  - by rewrite bool_decide_eq_true_2.
  - destruct (bool_decide (id sst = id dst)); [done|]. by rewrite Hstore.
Qed.

(** The two acquisitions of [moveStorage] for a mask without a file-type
    bit find and allocate nothing, and make no call. *)
Lemma acquire_nothing sector proof (types : SectorFileType) st :
  (forall type, type ∈ kSectorFileTypes -> Z.land types type = 0%Z) ->
  acquireSectorWithoutLock sector proof FTNone types false st
  = (success emptyResponse, st)
  /\ acquireSectorWithoutLock sector proof types FTNone false st
     = (success emptyResponse, st).
Proof.
  intros Hnone.
  assert (forall type, type ∈ kSectorFileTypes ->
                       (Z.land type types =? 0)%Z = true) as Hoff.
  { intros type Hin. rewrite Z.land_comm. apply Z.eqb_eq. by apply Hnone. }
  assert (FTUnsealed ∈ kSectorFileTypes) as H1
    by (apply elem_of_cons; by left).
  assert (FTSealed ∈ kSectorFileTypes) as H2
    by (apply elem_of_cons; right; apply elem_of_cons; by left).
  assert (FTCache ∈ kSectorFileTypes) as H3
    by (do 2 (apply elem_of_cons; right); apply elem_of_cons; by left).
  split; rewrite acquireSectorWithoutLock_unfold; cbv zeta;
    unfold kSectorFileTypes;
    rewrite !acquire_existing_cons, ?(Hoff _ H1), ?(Hoff _ H2), ?(Hoff _ H3);
    simpl acquire_existing; cbn [fst snd];
    rewrite !acquire_allocate_cons, ?(Hoff _ H1), ?(Hoff _ H2), ?(Hoff _ H3);
    done.
Qed.

(** X14. [moveStorage] for a mask without a file-type bit succeeds and does
    nothing: no call on the index, no change of the state. *)
Theorem moveStorage_no_types sector proof (types : SectorFileType) st :
  (forall type, type ∈ kSectorFileTypes -> Z.land types type = 0%Z) ->
  moveStorage sector proof types st = (success tt, st).
Proof.
  intros Hnone. destruct (acquire_nothing sector proof types st Hnone)
    as [Hdest Hsrc].
  unfold moveStorage. unfold bind at 1. rewrite Hdest.
  unfold bind at 1. rewrite Hsrc.
  assert (forall type, type ∈ kSectorFileTypes ->
                       (Z.land types type =? 0)%Z = true) as Hoff.
  { intros type Hin. apply Z.eqb_eq. by apply Hnone. }
  unfold kSectorFileTypes. simpl for_each. unfold bind, move_type, ret.
  rewrite !Hoff; [done|..].
  - do 2 (apply elem_of_cons; right). apply elem_of_cons. by left.
  - apply elem_of_cons. right. apply elem_of_cons. by left.
  - apply elem_of_cons. by left.
Qed.

(** Steps that leave the path registry alone compose. *)
Lemma bind_keeps_paths {A B} (c : M A) (k : A -> M B) st :
  paths_ (c st).2 = paths_ st ->
  (forall a st1, paths_ (k a st1).2 = paths_ st1) ->
  paths_ (bind c k st).2 = paths_ st.
Proof.
  intros Hc Hk. unfold bind. destruct (c st) as [[a|e] st1]; [|done].
  simpl in Hc. by rewrite Hk.
Qed.

Lemma for_each_keeps_paths {A} (body : A -> M unit) (l : list A) :
  (forall x st, paths_ (body x st).2 = paths_ st) ->
  forall st, paths_ (for_each body l st).2 = paths_ st.
Proof.
  intros Hbody. induction l as [|x rest IH]; intros st; [done|].
  simpl. apply bind_keeps_paths; [apply Hbody|]. intros _ st1. apply IH.
Qed.

Lemma move_type_keeps_paths sector types src dest type st :
  paths_ (move_type sector types src dest type st).2 = paths_ st.
Proof.
  unfold move_type. destruct (Z.land types type =? 0)%Z; [done|].
  apply bind_keeps_paths; [done|]. intros sid st1.
  apply bind_keeps_paths; [done|]. intros sst st2.
  apply bind_keeps_paths; [done|]. intros did st3.
  apply bind_keeps_paths; [done|]. intros dst st4.
  destruct (bool_decide _); [done|]. destruct (can_store sst); [done|].
  apply bind_keeps_paths.
  { unfold index_drop. by destruct (storageDropSector _ _ _ _). }
  intros _ st5.
  apply bind_keeps_paths; [done|]. intros sp st6.
  apply bind_keeps_paths; [done|]. intros dp st7.
  apply bind_keeps_paths.
  { unfold fs_rename. destruct (Disk.rename _ _ _) as [[] d]; done. }
  intros _ st8. unfold index_declare.
  by destruct (storageDeclareSector _ _ _ _).
Qed.

(** X15. [moveStorage] never changes the path registry; and when a file type of
    the mask has no local storage to go to, it fails before anything is
    touched: the index and the disk are as before. *)
Theorem moveStorage_needs_destination sector proof types st :
  paths_ (moveStorage sector proof types st).2 = paths_ st
  /\ forall type,
       type ∈ kSectorFileTypes -> Z.land type types <> 0%Z ->
       ~ allocatable proof false type st ->
       has_error (moveStorage sector proof types st).1 = true
       /\ index_ (moveStorage sector proof types st).2 = index_ st
       /\ disk (moveStorage sector proof types st).2 = disk st.
Proof.
  split.
  - unfold moveStorage.
    apply bind_keeps_paths.
    { by destruct (acquireSectorWithoutLock_same sector proof FTNone types
                     false st) as (_ & ? & _). }
    intros dest st1. apply bind_keeps_paths.
    { by destruct (acquireSectorWithoutLock_same sector proof types FTNone
                     false st1) as (_ & ? & _). }
    intros src st2. apply for_each_keeps_paths.
    intros. apply move_type_keeps_paths.
  - intros type Hin Hbit Hno.
    assert (exists e st1,
              acquireSectorWithoutLock sector proof FTNone types false st
              = (failure e, st1)
              /\ index_ st1 = index_ st /\ disk st1 = disk st)
      as (e & st1 & Hacq & Hi & Hd).
    { pose proof (acquireSectorWithoutLock_same sector proof FTNone types
                    false st) as (Hi & _ & Hd & _).
      rewrite acquireSectorWithoutLock_unfold in *. cbv zeta in *.
      pose proof (acquire_allocate_spec kSectorFileTypes sector proof false
                    kSectorFileTypes_disjoint types
                    (acquire_existing kSectorFileTypes sector FTNone
                       emptyResponse st).1.1
                    (acquire_existing kSectorFileTypes sector FTNone
                       emptyResponse st).2) as Hspec.
      pose proof (acquire_existing_same kSectorFileTypes sector FTNone
                    emptyResponse st) as Hsame.
      destruct (acquire_allocate _ _ _ _ _ _ _) as [[resp|e] st1];
        [|by exists e, st1].
      exfalso. apply Hno. simpl in Hspec.
      apply (allocatable_same _ _ _ _ _ Hsame). by apply Hspec. }
    unfold moveStorage, bind. by rewrite Hacq.
Qed.

End Move.

Section Remove.

Context {I : Type} {index_impl : SectorIndex I}.

Variable remove_all : string -> Disk.t -> option string * Disk.t.

Implicit Types (st : State I) (sector : SectorId) (type : SectorFileType).

Lemma remove_single_bit sector type st :
  (exists k, (0 <= k)%Z /\ type = (2 ^ k)%Z) ->
  remove remove_all sector type st =
  match storageFindSector sector type false (index_ st) with
  | index_error code =>
      (failure (IndexError code), called (CallFind sector type) st)
  | index_ok [] =>
      (failure (StoreError NotFoundSector), called (CallFind sector type) st)
  | index_ok (info :: infos) =>
      for_each (remove_from remove_all sector type) (info :: infos)
        (called (CallFind sector type) st)
  end.
Proof.
  intros Hbit.
  assert (minus_one type = (type - 1)%Z) as Hminus.
  { destruct Hbit as (k & Hk & ->).
    apply minus_one_positive, Z.pow_pos_nonneg; lia. }
  apply single_bit_test in Hbit. unfold remove, FTNone.
  rewrite Hminus, Hbit. unfold bind, index_find.
  destruct (storageFindSector sector type false (index_ st)) as [[|i l]|c];
    done.
Qed.

Lemma remove_from_error sector type info st e :
  (remove_from remove_all sector type info st).1 = failure e ->
  e = StoreError CannotRemoveSector \/ exists code, e = IndexError code.
Proof.
  unfold remove_from. destruct (paths_ st !! id info) as [root|]; [|done].
  destruct (bool_decide (root = "")); [done|].
  unfold bind, index_drop.
  destruct (storageDropSector _ _ _ _) as [[[]|code] i]; simpl.
  - destruct (remove_all _ _) as [[msg|] d]; [|done].
    simpl. intros [= <-]. by left.
  - intros [= <-]. right. by eexists.
Qed.

(** X16. [remove] takes the masks with exactly one of their 64 bits set: any
    other mask, [FTNone] included, is refused with [RemoveSeveralFileTypes]
    before anything is looked up, and a mask of one bit is never refused with
    that error.  The test is the machine's: [type - 1] wraps, so that the
    mask of bit 63 alone, the least value, passes like the other masks of one
    bit. *)
Theorem remove_several_file_types sector type st :
  is_int64 type ->
  minus_one type = wrap64 (type - 1)
  /\ (~ one_bit_of_64 type ->
      remove remove_all sector type st
      = (failure (StoreError RemoveSeveralFileTypes), st))
  /\ (one_bit_of_64 type ->
      (remove remove_all sector type st).1
      <> failure (StoreError RemoveSeveralFileTypes)).
Proof.
  intros Hint. split; [by apply minus_one_wraps|]. split.
  - intros Hnot. unfold remove, FTNone.
    destruct ((type =? 0)%Z || negb (Z.land type (minus_one type) =? 0)%Z)
      eqn:Htest; [done|].
    by apply one_bit_of_64_test in Htest.
  - intros Hbit. apply one_bit_of_64_test in Hbit; [|done].
    unfold remove, FTNone. rewrite Hbit. unfold bind, index_find.
    destruct (storageFindSector sector type false (index_ st))
      as [[|info infos]|c]; [done| |done].
    cbn [from_index]. intros Hrun.
    apply (for_each_error (remove_from remove_all sector type)
             (fun e => e = StoreError CannotRemoveSector
                       \/ exists code, e = IndexError code)) in Hrun.
    + by destruct Hrun as [?|[code ?]].
    + intros x st' e. apply remove_from_error.
Qed.

(** X17. A file the index knows on no storage: [NotFoundSector], and nothing is
    changed. *)
Theorem remove_not_found sector type st :
  (exists k, (0 <= k)%Z /\ type = (2 ^ k)%Z) ->
  storageFindSector sector type false (index_ st) = index_ok [] ->
  remove remove_all sector type st
  = (failure (StoreError NotFoundSector), called (CallFind sector type) st).
Proof.
  intros Hbit Hfind. by rewrite (remove_single_bit sector type st Hbit), Hfind.
Qed.

Lemma for_each_remove_nothing sector type infos st :
  first_local (paths_ st) infos = None ->
  for_each (remove_from remove_all sector type) infos st = (success tt, st).
Proof.
  induction infos as [|info rest IH]; [done|]. simpl.
  unfold bind, remove_from.
  destruct (paths_ st !! id info) as [root|]; [|done].
  destruct (bool_decide (root = "")); [done|]. done.
Qed.

(** X18. A file that only storages without a local path hold: [remove] returns
    success although it has dropped no declaration and deleted no file. *)
Theorem remove_remote_only sector type st infos :
  (exists k, (0 <= k)%Z /\ type = (2 ^ k)%Z) ->
  storageFindSector sector type false (index_ st) = index_ok infos ->
  infos <> [] ->
  first_local (paths_ st) infos = None ->
  remove remove_all sector type st
  = (success tt, called (CallFind sector type) st).
Proof.
  intros Hbit Hfind Hsome Hremote.
  rewrite (remove_single_bit sector type st Hbit), Hfind.
  destruct infos as [|info rest]; [done|].
  by apply for_each_remove_nothing.
Qed.

(** X19. The file held by one local storage: the declaration is dropped from the
    index first and the file deleted after.  When the deletion fails,
    [remove] returns [CannotRemoveSector] and the index stays without the
    declaration. *)
Theorem remove_drops_then_deletes sector type st info root index_dropped :
  (exists k, (0 <= k)%Z /\ type = (2 ^ k)%Z) ->
  storageFindSector sector type false (index_ st) = index_ok [info] ->
  paths_ st !! id info = Some root ->
  root <> EmptyString ->
  storageDropSector (id info) sector type (index_ st)
  = (index_ok tt, index_dropped) ->
  let file := sector_path root type sector in
  let dropped :=
    log Info ("Remove " +:+ file)
      (set_index index_dropped
         (called (CallDrop (id info) sector type)
            (called (CallFind sector type) st))) in
  remove remove_all sector type st =
  match remove_all file (disk st) with
  | (Some message, d) =>
      (failure (StoreError CannotRemoveSector),
       log Err message (set_disk d dropped))
  | (None, d) => (success tt, set_disk d dropped)
  end.
Proof.
  intros Hbit Hfind Hroot Hne Hdrop file dropped.
  rewrite (remove_single_bit sector type st Hbit), Hfind.
  simpl for_each. unfold bind at 1, remove_from. simpl paths_.
  rewrite Hroot, bool_decide_eq_false_2 by done.
  unfold bind, index_drop. simpl index_. rewrite Hdrop.
  cbn [from_index]. cbv beta iota zeta.
  change (Disk.join (Disk.join root (toString type)) (sectorName sector))
    with file.
  change (disk (log Info ("Remove " +:+ file)
                  (set_index index_dropped
                     (called (CallDrop (id info) sector type)
                        (called (CallFind sector type) st)))))
    with (disk st).
  fold dropped.
  destruct (remove_all file (disk st)) as [[msg|] d]; done.
Qed.

End Remove.

End MoveRemoveFacts.

Module MoveRemoveRuns.

Import LocalStore LocalStoreMore MoveRemoveFacts Scenario MoreScenario.

Lemma one_bit (k : Z) (x : Z) :
  (0 <= k)%Z -> x = (2 ^ k)%Z -> exists k, (0 <= k)%Z /\ x = (2 ^ k)%Z.
Proof. intros. by exists k. Qed.

(** The destination picked is the storage the file is on already. *)
Lemma move_type_skips_witness :
  move_type sector7 FTSealed
    (set_response FTSealed "/mnt/slow/sealed/s-t01000-7" "slow" emptyResponse)
    (set_response FTSealed "/mnt/slow/sealed/s-t01000-7" "slow" emptyResponse)
    FTSealed two_storages
  = (success tt,
     called (CallGetInfo "slow") (called (CallGetInfo "slow") two_storages)).
Proof.
  apply (move_type_skips sector7 FTSealed _ _ FTSealed two_storages
           "slow" "slow" info_slow info_slow).
  - vm_compute. discriminate.
  - reflexivity.
  - vm_compute. reflexivity.
  - reflexivity.
  - vm_compute. reflexivity.
  - by left.
Defined.

(** A mask with bit 3 only: no file type. *)
Lemma moveStorage_no_types_witness :
  moveStorage sector7 StackedDRG2KiBSeal 8%Z two_storages
  = (success tt, two_storages).
Proof.
  apply (moveStorage_no_types sector7 StackedDRG2KiBSeal 8%Z two_storages).
  intros type Hin. apply LocalStoreFacts.kSectorFileTypes_cases in Hin.
  by destruct Hin as [-> | [-> | ->]].
Defined.

(** A store without storages: nothing can be allocated. *)
Lemma moveStorage_needs_destination_witness :
  has_error (moveStorage sector7 StackedDRG2KiBSeal FTSealed
               (fresh disk_s1)).1 = true
  /\ index_ (moveStorage sector7 StackedDRG2KiBSeal FTSealed
              (fresh disk_s1)).2 = index_ (fresh disk_s1)
  /\ disk (moveStorage sector7 StackedDRG2KiBSeal FTSealed
             (fresh disk_s1)).2 = disk (fresh disk_s1).
Proof.
  apply (proj2 (moveStorage_needs_destination sector7 StackedDRG2KiBSeal
                  FTSealed (fresh disk_s1)) FTSealed).
  - apply elem_of_cons. right. apply elem_of_cons. by left.
  - vm_compute. discriminate.
  - intros (infos & info & root & Hbest & Hlocal).
    vm_compute in Hbest. injection Hbest as <-. discriminate.
Defined.

(** The masks of two bits and of none are refused; the sealed bit passes, and
    so does bit 63, the least of the 64-bit values: no storage holds a file
    of that type, which [remove] then finds out from the index. *)
Lemma remove_several_file_types_witness :
  remove remove_entry sector7 (Z.lor FTUnsealed FTSealed) opened_s1
  = (failure (StoreError RemoveSeveralFileTypes), opened_s1)
  /\ remove remove_entry sector7 FTNone opened_s1
     = (failure (StoreError RemoveSeveralFileTypes), opened_s1)
  /\ (remove remove_entry sector7 FTSealed opened_s1).1
     <> failure (StoreError RemoveSeveralFileTypes)
  /\ (remove remove_entry sector7 int64_min opened_s1).1
     <> failure (StoreError RemoveSeveralFileTypes).
Proof.
  assert (Hint : forall x, (int64_min <=? x)%Z && (x <=? int64_max)%Z = true ->
                           is_int64 x).
  { intros x Hx. apply andb_true_iff in Hx as [H1 H2].
    apply Z.leb_le in H1, H2. by split. }
  assert (Hnot : forall x,
            is_int64 x ->
            (x =? 0)%Z || negb (Z.land x (minus_one x) =? 0)%Z = true ->
            ~ one_bit_of_64 x).
  { intros x Hx Htest Hbit. apply one_bit_of_64_test in Hbit; [|done].
    congruence. }
  split; [|split; [|split]].
  - apply (remove_several_file_types remove_entry sector7
             (Z.lor FTUnsealed FTSealed) opened_s1); [by apply Hint|].
    apply Hnot; [by apply Hint|reflexivity].
  - apply (remove_several_file_types remove_entry sector7 FTNone opened_s1);
      [by apply Hint|].
    apply Hnot; [by apply Hint|reflexivity].
  - apply (remove_several_file_types remove_entry sector7 FTSealed
             opened_s1); [by apply Hint|].
    exists 1%Z. split; [lia|reflexivity].
  - apply (remove_several_file_types remove_entry sector7 int64_min
             opened_s1); [by apply Hint|].
    exists 63%Z. split; [lia|reflexivity].
Defined.

(** Bit 63 alone passes the test and is looked up. *)
Example remove_bit_63 :
  (remove remove_entry sector7 int64_min opened_s1).1
  = failure (StoreError NotFoundSector).
Proof. vm_compute. reflexivity. Qed.

Lemma remove_not_found_witness :
  remove remove_entry sector9 FTSealed opened_s1
  = (failure (StoreError NotFoundSector),
     called (CallFind sector9 FTSealed) opened_s1).
Proof.
  apply (remove_not_found remove_entry sector9 FTSealed opened_s1).
  - apply (one_bit 1); [lia|reflexivity].
  - vm_compute. reflexivity.
Defined.

Lemma remove_remote_only_witness :
  remove remove_entry sector7 FTSealed remote_only
  = (success tt, called (CallFind sector7 FTSealed) remote_only).
Proof.
  apply (remove_remote_only remove_entry sector7 FTSealed remote_only
           [info_slow]).
  - apply (one_bit 1); [lia|reflexivity].
  - vm_compute. reflexivity.
  - discriminate.
  - vm_compute. reflexivity.
Defined.

(** The deletion is refused: the sealed file of sector 7 is still in its
    directory, and the index has lost its declaration. *)
Lemma remove_drops_then_deletes_witness :
  (remove remove_denied sector7 FTSealed opened_s1).1
  = failure (StoreError CannotRemoveSector)
  /\ IndexImpl.holds "s1" sector7 FTSealed (index_ opened_s1) = true
  /\ IndexImpl.holds "s1" sector7 FTSealed
       (index_ (remove remove_denied sector7 FTSealed opened_s1).2) = false
  /\ disk (remove remove_denied sector7 FTSealed opened_s1).2
     = disk opened_s1.
Proof.
  pose proof (remove_drops_then_deletes remove_denied sector7 FTSealed
                opened_s1
                {| id := "s1"; urls := ["http://localhost/remote"];
                   weight := 10; can_seal := true; can_store := true |}
                "/tmp/s1"
                {| IndexImpl.storages := IndexImpl.storages (index_ opened_s1);
                   IndexImpl.declared :=
                     [("s1", sector7, FTUnsealed); ("s1", sector7, FTCache)]
                |}) as H.
  cbv zeta in H. rewrite H.
  - vm_compute. repeat split.
  - apply (one_bit 1); [lia|reflexivity].
  - vm_compute. reflexivity.
  - vm_compute. reflexivity.
  - discriminate.
  - vm_compute. reflexivity.
Defined.

(** With a deletion that works the file is gone from the directory and from
    the index. *)
Example remove_deletes :
  (remove remove_entry sector7 FTSealed opened_s1).1 = success tt
  /\ IndexImpl.holds "s1" sector7 FTSealed
       (index_ (remove remove_entry sector7 FTSealed opened_s1).2) = false
  /\ Disk.dirs (disk (remove remove_entry sector7 FTSealed opened_s1).2)
       !! "/tmp/s1/sealed" = Some [].
Proof. vm_compute. repeat split. Qed.

(** [rename] as [rename(2)] has it: a sector's cache directory is not moved
    onto one that holds files, and is moved, with its listing, onto an empty
    one. *)
Example rename_onto_full_directory :
  let d :=
    {| Disk.meta_files := ∅;
       Disk.dirs :=
         {[ "/mnt/a/cache" := ["s-t01000-7"];
            "/mnt/a/cache/s-t01000-7" := ["p_aux"];
            "/mnt/b/cache" := ["s-t01000-7"];
            "/mnt/b/cache/s-t01000-7" := ["t_aux"] ]};
       Disk.stats := ∅ |} in
  Disk.rename "/mnt/a/cache/s-t01000-7" "/mnt/b/cache/s-t01000-7" d
  = (true, d).
Proof. vm_compute. reflexivity. Qed.

Example rename_onto_empty_directory :
  let d :=
    {| Disk.meta_files := ∅;
       Disk.dirs :=
         {[ "/mnt/a/cache" := ["s-t01000-7"];
            "/mnt/a/cache/s-t01000-7" := ["p_aux"];
            "/mnt/b/cache" := ["s-t01000-7"];
            "/mnt/b/cache/s-t01000-7" := [] ]};
       Disk.stats := ∅ |} in
  let out :=
    Disk.rename "/mnt/a/cache/s-t01000-7" "/mnt/b/cache/s-t01000-7" d in
  out.1 = false
  /\ Disk.dirs out.2 !! "/mnt/a/cache" = Some []
  /\ Disk.dirs out.2 !! "/mnt/a/cache/s-t01000-7" = None
  /\ Disk.dirs out.2 !! "/mnt/b/cache" = Some ["s-t01000-7"]
  /\ Disk.dirs out.2 !! "/mnt/b/cache/s-t01000-7" = Some ["p_aux"].
Proof. vm_compute. repeat split. Qed.

(** A root written with a trailing separator gets no second one. *)
Example join_trailing_separator :
  Disk.join "/tmp/s1/" "sealed" = "/tmp/s1/sealed"
  /\ Disk.join "/tmp/s1" "sealed" = "/tmp/s1/sealed"
  /\ sector_path "/tmp/s1/" FTSealed sector7 = "/tmp/s1/sealed/s-t01000-7".
Proof. vm_compute. repeat split. Qed.

End MoveRemoveRuns.

(** ** The provider: handlers, table and runs *)

Module ProviderMoreFacts.

Import Provider ProviderMore.

Lemma NoDup_fmap_eq {A B} (f : A -> B) (l : list A) x y :
  NoDup (f <$> l) -> x ∈ l -> y ∈ l -> f x = f y -> x = y.
Proof.
  induction l as [|a l IH]; intros Hnd Hx Hy Hf.
  - by apply elem_of_nil in Hx.
  - rewrite fmap_cons in Hnd. apply NoDup_cons in Hnd as [Ha Hnd].
    apply elem_of_cons in Hx as [-> | Hx];
      apply elem_of_cons in Hy as [-> | Hy]; try done.
    + exfalso. apply Ha. rewrite Hf. by apply list_elem_of_fmap_2.
    + exfalso. apply Ha. rewrite <- Hf. by apply list_elem_of_fmap_2.
    + by apply IH.
Qed.

Lemma pending_work_app q1 q2 :
  pending_work (q1 ++ q2) = pending_work q1 + pending_work q2.
Proof.
  induction q1 as [|x q1 IH]; [done|].
  cbn [app pending_work foldr]. fold (pending_work (q1 ++ q2)).
  fold (pending_work q1). lia.
Qed.

Lemma chain_length_pos e : 1 <= chain_length e.
Proof. destruct e; cbn; lia. Qed.

Lemma chain_length_bound e : chain_length e <= 8.
Proof. destruct e; cbn; lia. Qed.

Lemma pending_work_bound q : pending_work q <= 8 * length q.
Proof.
  induction q as [|x q IH]; [done|].
  cbn [pending_work foldr length]. fold (pending_work q).
  pose proof (chain_length_bound x.2). lia.
Qed.

Section Handlers.

Context (api_ : Api).

Ltac handler_cases :=
  unfold CALLBACK_ACTION, onProviderEventOpen, onProviderEventNodeErrored,
    onProviderEventDealRejected, onProviderEventDealAccepted,
    onProviderEventWaitingForManualData, onProviderEventFundingInitiated,
    onProviderEventFunded, onProviderEventDataTransferFailed,
    onProviderEventDataTransferInitiated,
    onProviderEventDataTransferCompleted,
    onProviderEventGeneratePieceCIDFailed, onProviderEventVerifiedData,
    onProviderEventSendResponseFailed, onProviderEventDealPublishInitiated,
    onProviderEventDealPublished, onProviderEventDealPublishError,
    onProviderEventFileStoreErrored, onProviderEventDealHandoffFailed,
    onProviderEventDealHandedOff, onProviderEventDealActivationFailed,
    onProviderEventUnableToLocatePiece, onProviderEventDealActivated,
    onProviderEventPieceStoreErrored, onProviderEventReadMetadataErrored,
    onProviderEventDealCompleted, onProviderEventFailed, no_action;
  cbn [local_deals_ fsm_states fsm_queue entered debug];
  repeat match goal with
  | |- context [match local_deals_ ?q !! ?d with _ => _ end] =>
      destruct (local_deals_ q !! d)
  | |- context [bool_decide ?P] => destruct (bool_decide P)
  | |- context [ensureFunds ?a ?d] => destruct (ensureFunds a d) as [[?|]|?]
  end;
  cbn [local_deals_ fsm_states fsm_queue entered debug update_deal set_deals
         send set_queue].

(** What an action of the table does to the provider: it rewrites the record
    of its deal, and queues at most one event. *)
Lemma action_effect tr deal e from to p :
  tr ∈ makeFSMTransitions api_ ->
  (exists f,
     local_deals_ (action tr deal e from to p)
     = alter f deal (local_deals_ p)
     /\ forall d,
          f d = MinerDeal.set_state to d
          \/ exists cid,
               f d = MinerDeal.set_state to
                       (MinerDeal.set_add_funds_cid (Some cid) d))
  /\ fsm_states (action tr deal e from to p) = fsm_states p
  /\ entered (action tr deal e from to p) = entered p
  /\ (fsm_queue (action tr deal e from to p) = fsm_queue p
      \/ exists e',
           fsm_queue (action tr deal e from to p)
           = fsm_queue p ++ [(deal, e')]
           /\ chain_length e' < chain_length (event tr)
           /\ fsm_transition api_ e' (to_state tr) <> None).
Proof.
  intros Hin. unfold makeFSMTransitions in Hin.
  repeat (apply elem_of_cons in Hin as [-> | Hin]);
    [..|by apply elem_of_nil in Hin];
    cbn [action event to_state]; handler_cases;
    (split;
     [first
        [ eexists; split; [reflexivity|]; intros d; left; reflexivity
        | eexists (_ ∘ _); split; [apply alter_alter_eq|];
          intros d; right; eexists; reflexivity ]
     |split; [reflexivity|]; split; [reflexivity|];
      first
        [ left; reflexivity
        | right; eexists; split; [reflexivity|];
          split; [cbn; lia | vm_compute; discriminate] ]]).
Qed.

Lemma fsm_transition_Some e s tr :
  fsm_transition api_ e s = Some tr ->
  tr ∈ makeFSMTransitions api_ /\ event tr = e /\ s ∈ from_states tr.
Proof.
  unfold fsm_transition.
  destruct (List.find _ _) as [tr'|] eqn:Hfind; [|done].
  destruct (bool_decide (s ∈ from_states tr')) eqn:Hfrom; [|done].
  intros [= <-]. apply bool_decide_eq_true in Hfrom.
  apply find_some in Hfind as [Hin Hev].
  apply bool_decide_eq_true in Hev.
  split; [by apply list_elem_of_In|done].
Qed.

Lemma events_NoDup : NoDup (event <$> makeFSMTransitions api_).
Proof. apply (bool_decide_unpack _). vm_compute. exact I. Qed.

(** X20. No two transitions of [makeFSMTransitions] are for the same event, so
    the transition the FSM takes for an event does not depend on the order
    of the table; it is the one transition of that event, when the state of
    the deal is in its from-set.  Two events have a handler and no
    transition: [ProviderEventInsufficientFunds] and
    [ProviderEventManualDataReceived]. *)
Theorem one_transition_per_event :
  (forall tr1 tr2,
     tr1 ∈ makeFSMTransitions api_ -> tr2 ∈ makeFSMTransitions api_ ->
     event tr1 = event tr2 -> tr1 = tr2)
  /\ (forall e s tr,
        fsm_transition api_ e s = Some tr
        <-> tr ∈ makeFSMTransitions api_ /\ event tr = e
            /\ s ∈ from_states tr)
  /\ (forall e,
        e ∉ event <$> makeFSMTransitions api_
        <-> e = ProviderEventInsufficientFunds
            \/ e = ProviderEventManualDataReceived).
Proof.
  assert (Huniq : forall tr1 tr2,
            tr1 ∈ makeFSMTransitions api_ -> tr2 ∈ makeFSMTransitions api_ ->
            event tr1 = event tr2 -> tr1 = tr2).
  { intros tr1 tr2 H1 H2 He.
    by apply (NoDup_fmap_eq event (makeFSMTransitions api_)),
      He; [apply events_NoDup| |]. }
  split; [exact Huniq|]. split.
  - intros e s tr. split; [apply fsm_transition_Some|].
    intros (Hin & He & Hs). unfold fsm_transition.
    destruct (List.find _ _) as [tr'|] eqn:Hfind.
    + apply find_some in Hfind as [Hin' Hev].
      apply bool_decide_eq_true in Hev. apply list_elem_of_In in Hin'.
      assert (tr' = tr) as -> by (apply Huniq; congruence).
      by rewrite bool_decide_eq_true_2.
    + exfalso. apply list_elem_of_In in Hin.
      pose proof (find_none _ _ Hfind tr Hin) as Hno. cbv beta in Hno.
      by rewrite bool_decide_eq_true_2 in Hno.
  - intros e. split.
    + intros Hnot. destruct e; try (by left); try (by right);
        exfalso; apply Hnot; apply (bool_decide_unpack _); vm_compute;
        exact I.
    + intros [-> | ->]; apply (bool_decide_unpack _); vm_compute; exact I.
Qed.

(** X21. [CALLBACK_ACTION] and the handlers: whatever transition of the table
    fires for a deal the provider holds, the record of the deal has the
    target state afterwards and the proposal and data reference it was
    created with; the records of the other deals and the states the FSM
    keeps are as before. *)
Theorem action_sets_deal_state tr deal e from to p d :
  tr ∈ makeFSMTransitions api_ ->
  local_deals_ p !! deal = Some d ->
  let p' := action tr deal e from to p in
  (exists d',
     local_deals_ p' !! deal = Some d'
     /\ MinerDeal.state d' = to
     /\ MinerDeal.client_deal_proposal d' = MinerDeal.client_deal_proposal d
     /\ MinerDeal.proposal_cid d' = MinerDeal.proposal_cid d
     /\ MinerDeal.ref d' = MinerDeal.ref d
     /\ MinerDeal.client d' = MinerDeal.client d)
  /\ (forall other,
        other <> deal -> local_deals_ p' !! other = local_deals_ p !! other)
  /\ fsm_states p' = fsm_states p.
Proof.
  intros Hin Hd. cbv zeta.
  destruct (action_effect tr deal e from to p Hin)
    as ((f & Hdeals & Hf) & Hstates & _ & _).
  rewrite Hdeals. split; [|split]; [| |done].
  - exists (f d). rewrite lookup_alter_eq, Hd. split; [done|].
    by destruct (Hf d) as [-> | (cid & ->)].
  - intros other Hne. by rewrite lookup_alter_ne.
Qed.

(** X22. A handler sends at most one event, for the deal it was called on, and
    the table has a transition for that event from the state the deal is
    entering: no event a handler sends is dropped. *)
Theorem action_sends_one_followed_event tr deal e from to p :
  tr ∈ makeFSMTransitions api_ ->
  let p' := action tr deal e from to p in
  fsm_queue p' = fsm_queue p
  \/ exists e' tr',
       fsm_queue p' = fsm_queue p ++ [(deal, e')]
       /\ fsm_transition api_ e' (to_state tr) = Some tr'.
Proof.
  intros Hin. cbv zeta.
  destruct (action_effect tr deal e from to p Hin)
    as (_ & _ & _ & [Hq | (e' & Hq & _ & Hnext)]); [by left|].
  right. exists e'.
  destruct (fsm_transition api_ e' (to_state tr)) as [tr'|]; [|done].
  by exists tr'.
Qed.

Lemma fsm_dispatch_in_sync deal e p :
  in_sync p -> in_sync (fsm_dispatch api_ deal e p).
Proof.
  intros Hsync. unfold fsm_dispatch.
  destruct (fsm_states p !! deal) as [s|] eqn:Hs; [|done].
  destruct (fsm_transition api_ e s) as [tr|] eqn:Htr; [|done].
  apply fsm_transition_Some in Htr as (Hin & _ & _).
  destruct (action_effect tr deal e s (to_state tr) p Hin)
    as ((f & Hdeals & Hf) & Hstates & _ & _).
  pose proof (Hsync deal s Hs) as Hrec. unfold deal_state in Hrec.
  destruct (local_deals_ p !! deal) as [d|] eqn:Hd; [|done].
  intros k sk Hk. unfold enter in Hk. cbn [fsm_states] in Hk.
  unfold deal_state, enter. cbn [local_deals_]. rewrite Hdeals.
  apply lookup_insert_Some in Hk as [[<- <-] | [Hne Hk]].
  - rewrite lookup_alter_eq, Hd. cbn.
    by destruct (Hf d) as [-> | (cid & ->)].
  - rewrite lookup_alter_ne by done. rewrite Hstates in Hk.
    by apply Hsync.
Qed.

Lemma fsm_step_in_sync p : in_sync p -> in_sync (fsm_step api_ p).
Proof.
  intros Hsync. unfold fsm_step.
  destruct (fsm_queue p) as [|[deal e] rest]; [done|].
  by apply fsm_dispatch_in_sync.
Qed.

Lemma fsm_run_in_sync n p : in_sync p -> in_sync (fsm_run api_ n p).
Proof.
  revert p. induction n as [|n IH]; intros p Hsync; [done|].
  cbn [fsm_run]. destruct (fsm_queue p) eqn:Hq; [done|].
  apply IH, fsm_step_in_sync, Hsync.
Qed.

Lemma handleDealStream_in_sync prop cid miner peer p :
  in_sync p -> in_sync (handleDealStream prop cid miner peer p).
Proof.
  intros Hsync k sk Hk.
  unfold handleDealStream, deal_state in *.
  cbn [fsm_states local_deals_ send set_queue begin set_deals] in *.
  apply lookup_insert_Some in Hk as [[<- <-] | [Hne Hk]].
  - by rewrite lookup_insert_eq.
  - rewrite lookup_insert_ne by done. by apply Hsync.
Qed.

Lemma fsm_run_empty n p : fsm_queue p = [] -> fsm_run api_ n p = p.
Proof. intros Hq. destruct n; [done|]. cbn [fsm_run]. by rewrite Hq. Qed.

Lemma fsm_run_more n k p :
  fsm_queue (fsm_run api_ n p) = [] ->
  fsm_run api_ (n + k) p = fsm_run api_ n p.
Proof.
  revert p. induction n as [|n IH]; intros p Hq.
  - cbn [fsm_run] in *. by apply fsm_run_empty.
  - cbn [fsm_run Nat.add] in *.
    destruct (fsm_queue p) eqn:Hp; [done|]. by apply IH.
Qed.

Lemma fsm_step_decreases p deal e rest :
  fsm_queue p = (deal, e) :: rest ->
  pending_work (fsm_queue (fsm_step api_ p)) < pending_work (fsm_queue p).
Proof.
  intros Hq. unfold fsm_step. rewrite Hq.
  cbn [pending_work foldr snd]. fold (pending_work rest).
  pose proof (chain_length_pos e) as Hpos.
  assert (Hrest : fsm_queue (set_queue rest p) = rest) by reflexivity.
  assert (Hstates : fsm_states (set_queue rest p) = fsm_states p)
    by reflexivity.
  revert Hrest Hstates. generalize (set_queue rest p). intros q Hrest Hstates.
  unfold fsm_dispatch. rewrite Hstates.
  destruct (fsm_states p !! deal) as [s|]; [|rewrite Hrest; lia].
  destruct (fsm_transition api_ e s) as [tr|] eqn:Htr; [|rewrite Hrest; lia].
  apply fsm_transition_Some in Htr as (Hin & <- & _).
  cbn [fsm_queue enter].
  destruct (action_effect tr deal (event tr) s (to_state tr) q Hin)
    as (_ & _ & _ & [Hsame | (e' & Hsent & Hless & _)]).
  - rewrite Hsame, Hrest. lia.
  - rewrite Hsent, pending_work_app, Hrest.
    cbn [pending_work foldr snd]. lia.
Qed.

Lemma fsm_run_enough n p :
  pending_work (fsm_queue p) <= n -> fsm_queue (fsm_run api_ n p) = [].
Proof.
  revert p. induction n as [|n IH]; intros p Hle.
  - cbn [fsm_run]. destruct (fsm_queue p) as [|[deal e] rest]; [done|].
    cbn [pending_work foldr snd] in Hle.
    pose proof (chain_length_pos e). lia.
  - cbn [fsm_run]. destruct (fsm_queue p) as [|[deal e] rest] eqn:Hq; [done|].
    apply IH. pose proof (fsm_step_decreases p deal e rest Hq) as Hlt.
    rewrite Hq in Hlt. lia.
Qed.

(** X24. The FSM comes to rest: whatever the provider holds, after at most eight
    dispatches for every event of the queue the queue is empty, the handlers
    and the events they send notwithstanding; more turns change nothing. *)
Theorem fsm_run_quiesces p n :
  8 * length (fsm_queue p) <= n ->
  fsm_queue (fsm_run api_ n p) = []
  /\ fsm_run api_ n p = fsm_run api_ (8 * length (fsm_queue p)) p.
Proof.
  intros Hn.
  assert (Hrest : fsm_queue (fsm_run api_ (8 * length (fsm_queue p)) p) = [])
    by apply fsm_run_enough, pending_work_bound.
  replace n with (8 * length (fsm_queue p) + (n - 8 * length (fsm_queue p)))
    by lia.
  rewrite fsm_run_more by done. by split.
Qed.

End Handlers.

Section Entry.

Context (api_ : Api) (piece_io_ : PieceIO)
        (registered_proof_ : RegisteredProof).

(** X23. The state in a deal's record is the state the FSM has for the deal: this
    holds for the provider without deals and is kept by every inbound
    proposal, every import of data and every turn of the FSM. *)
Theorem deal_state_mirrors_fsm :
  in_sync Provider.empty
  /\ (forall prop cid miner peer p,
        in_sync p -> in_sync (handleDealStream prop cid miner peer p))
  /\ (forall cid data p,
        in_sync p ->
        in_sync (importDataForDeal piece_io_ registered_proof_ cid data p).2)
  /\ (forall n p, in_sync p -> in_sync (fsm_run api_ n p)).
Proof.
  split; [|split; [|split]].
  - apply map_Forall_empty.
  - intros. by apply handleDealStream_in_sync.
  - intros cid data p Hsync. unfold importDataForDeal.
    destruct (generatePieceCommitment _ _ _) as [c|]; [|done].
    destruct (getDeal cid p) as [d|]; [|done].
    by destruct (bool_decide _).
  - intros. by apply fsm_run_in_sync.
Qed.


(** X26. A deal [handleDealStream] has registered is what [getDeal] returns for
    its proposal CID: the record built from the proposal, in state
    [unknown], whatever record the CID had before; the FSM tracks it as
    [unknown] and has one more event, [ProviderEventOpen], at the end of its
    queue.  Other CIDs are answered as before. *)
Theorem handleDealStream_getDeal prop cid miner peer p :
  let p' := handleDealStream prop cid miner peer p in
  getDeal cid p' = success (new_deal prop cid miner peer)
  /\ fsm_states p' !! cid = Some STORAGE_DEAL_UNKNOWN
  /\ fsm_queue p' = fsm_queue p ++ [(cid, ProviderEventOpen)]
  /\ forall other, other <> cid -> getDeal other p' = getDeal other p.
Proof.
  cbv zeta. unfold getDeal, handleDealStream.
  cbn [local_deals_ fsm_states fsm_queue send set_queue begin set_deals].
  rewrite !lookup_insert_eq. repeat split.
  intros other Hne. by rewrite lookup_insert_ne.
Qed.

End Entry.

Section Paths.

Context (api_ : Api) (piece_io_ : PieceIO)
        (registered_proof_ : RegisteredProof).

Lemma fsm_run_fires n p deal e rest s tr :
  fsm_transition api_ e s = Some tr ->
  fsm_queue p = (deal, e) :: rest ->
  fsm_states p !! deal = Some s ->
  fsm_run api_ (S n) p
  = fsm_run api_ n
      (enter deal (to_state tr)
         (action tr deal e s (to_state tr) (set_queue rest p))).
Proof.
  intros Htr Hq Hs. cbn [fsm_run]. rewrite Hq.
  unfold fsm_step. rewrite Hq. unfold fsm_dispatch.
  cbn [fsm_states set_queue]. by rewrite Hs, Htr.
Qed.

Lemma onProviderEventDealAccepted_eq deal e from to p d :
  local_deals_ p !! deal = Some d ->
  onProviderEventDealAccepted deal e from to p
  = if bool_decide (DataRef.transfer_type (MinerDeal.ref d)
                    = kTransferTypeManual)
    then send deal ProviderEventWaitingForManualData p else p.
Proof. intros Hd. unfold onProviderEventDealAccepted. by rewrite Hd. Qed.

Ltac fire E S :=
  let tr := fresh "tr" in
  let Htr := fresh "Htr" in
  evar (tr : ProviderTransition);
  assert (Htr : fsm_transition api_ E S = Some tr) by (subst tr; reflexivity);
  subst tr;
  erewrite (fsm_run_fires _ _ _ _ _ _ _ Htr);
  [clear Htr; cbn [action to_state]
  |reflexivity
  |first [apply lookup_insert_eq | eassumption]].

Lemma onProviderEventVerifiedData_eq deal e from to p d :
  local_deals_ p !! deal = Some d ->
  onProviderEventVerifiedData api_ deal e from to p
  = match ensureFunds api_ d with
    | failure _ => send deal ProviderEventNodeErrored p
    | success (Some cid) =>
        send deal ProviderEventFundingInitiated
          (update_deal deal (MinerDeal.set_add_funds_cid (Some cid)) p)
    | success None => send deal ProviderEventFundingInitiated p
    end.
Proof. intros Hd. unfold onProviderEventVerifiedData. by rewrite Hd. Qed.

Lemma importDataForDeal_sends cid data p d size :
  local_deals_ p !! cid = Some d ->
  generatePieceCommitment piece_io_ registered_proof_ data
  = success
      (DealProposal.piece_cid
         (ClientDealProposal.proposal (MinerDeal.client_deal_proposal d)),
       size) ->
  importDataForDeal piece_io_ registered_proof_ cid data p
  = (success tt, send cid ProviderEventVerifiedData p).
Proof.
  intros Hd Hgen. unfold importDataForDeal, getDeal. rewrite Hgen, Hd.
  cbn [fst]. by rewrite bool_decide_eq_false_2 by (intros H; by apply H).
Qed.

Ltac entered_list :=
  unfold states_entered, CALLBACK_ACTION;
  cbn [entered debug set_queue enter update_deal set_deals send
         handleDealStream begin
         onProviderEventOpen onProviderEventWaitingForManualData
         onProviderEventNodeErrored onProviderEventFundingInitiated
         onProviderEventFunded onProviderEventDealPublishInitiated
         onProviderEventDealPublished onProviderEventDealHandedOff
         onProviderEventDealActivated onProviderEventDealCompleted
         no_action];
  rewrite ?filter_app, ?fmap_app, ?filter_cons, ?filter_nil; cbn [fst];
  rewrite ?decide_True by done; cbn [fmap list_fmap snd];
  rewrite <- ?app_assoc; reflexivity.

Ltac deals_lookup :=
  unfold CALLBACK_ACTION;
  cbn [local_deals_ debug set_queue enter update_deal set_deals send
         handleDealStream begin
         onProviderEventOpen onProviderEventWaitingForManualData
         onProviderEventNodeErrored onProviderEventFundingInitiated
         onProviderEventFunded onProviderEventDealPublishInitiated
         onProviderEventDealPublished onProviderEventDealHandedOff
         onProviderEventDealActivated onProviderEventDealCompleted
         no_action];
  rewrite ?lookup_alter_eq, ?lookup_insert_eq.

(** X27. An inbound proposal, from [handleDealStream] on: with the FSM idle
    before, three turns bring the queue to rest.  A proposal for manual
    transfer is then in [waiting_for_data]; any other proposal stays in
    [proposal_accepted], as [onProviderEventDealAccepted] sends nothing for
    it, and no further turn moves it. *)
Theorem handleDealStream_run prop cid miner peer p n :
  fsm_queue p = [] ->
  3 <= n ->
  let manual :=
    bool_decide (DataRef.transfer_type (Proposal.piece prop)
                 = kTransferTypeManual) in
  let final :=
    if manual then STORAGE_DEAL_WAITING_FOR_DATA
    else STORAGE_DEAL_PROPOSAL_ACCEPTED in
  let p' := fsm_run api_ n (handleDealStream prop cid miner peer p) in
  fsm_queue p' = []
  /\ fsm_states p' !! cid = Some final
  /\ deal_state cid p' = Some final
  /\ states_entered cid p'
     = states_entered cid p
       ++ [STORAGE_DEAL_VALIDATING; STORAGE_DEAL_PROPOSAL_ACCEPTED]
       ++ (if manual then [STORAGE_DEAL_WAITING_FOR_DATA] else []).
Proof.
  intros Hq Hn. cbv zeta.
  destruct n as [|[|[|n]]]; try lia. clear Hn.
  destruct p as [deals states queue logger ent]. cbn [fsm_queue] in Hq.
  subst queue.
  fire ProviderEventOpen STORAGE_DEAL_UNKNOWN.
  fire ProviderEventDealAccepted STORAGE_DEAL_VALIDATING.
  unfold CALLBACK_ACTION.
  rewrite (onProviderEventDealAccepted_eq _ _ _ _ _
             (MinerDeal.set_state STORAGE_DEAL_VALIDATING
                (new_deal prop cid miner peer)))
    by (by deals_lookup).
  cbn [MinerDeal.ref MinerDeal.set_state new_deal].
  destruct (bool_decide _).
  - fire ProviderEventWaitingForManualData STORAGE_DEAL_PROPOSAL_ACCEPTED.
    rewrite fsm_run_empty by reflexivity.
    split; [reflexivity|]. split; [apply lookup_insert_eq|].
    split; [unfold deal_state; by deals_lookup|entered_list].
  - rewrite fsm_run_empty by reflexivity.
    split; [reflexivity|]. split; [apply lookup_insert_eq|].
    split; [unfold deal_state; by deals_lookup|entered_list].
Qed.

(** X28. Data imported for a deal that waits for it (or is in [verify_data]),
    when [ensureFunds] fails: the import itself succeeds, the deal enters
    [ensure_provider_funds], [onProviderEventVerifiedData] sends
    [ProviderEventNodeErrored], and the deal is left in [failing] with an
    empty queue; its record is changed in its state only. *)
Theorem import_with_node_error_fails_deal cid data p d size s err n :
  fsm_queue p = [] ->
  local_deals_ p !! cid = Some d ->
  fsm_states p !! cid = Some s ->
  s = STORAGE_DEAL_WAITING_FOR_DATA \/ s = STORAGE_DEAL_VERIFY_DATA ->
  generatePieceCommitment piece_io_ registered_proof_ data
  = success
      (DealProposal.piece_cid
         (ClientDealProposal.proposal (MinerDeal.client_deal_proposal d)),
       size) ->
  ensureFunds api_ d = failure err ->
  2 <= n ->
  let out := importDataForDeal piece_io_ registered_proof_ cid data p in
  let p' := fsm_run api_ n out.2 in
  out.1 = success tt
  /\ fsm_queue p' = []
  /\ fsm_states p' !! cid = Some STORAGE_DEAL_FAILING
  /\ local_deals_ p' !! cid = Some (MinerDeal.set_state STORAGE_DEAL_FAILING d)
  /\ states_entered cid p'
     = states_entered cid p
       ++ [STORAGE_DEAL_ENSURE_PROVIDER_FUNDS; STORAGE_DEAL_FAILING].
Proof.
  intros Hq Hd Hs Hfrom Hgen Hfunds Hn. cbv zeta.
  rewrite (importDataForDeal_sends cid data p d size Hd Hgen). cbn [fst snd].
  split; [done|].
  destruct n as [|[|n]]; try lia. clear Hn.
  destruct p as [deals states queue logger ent].
  cbn [fsm_queue local_deals_ fsm_states] in Hq, Hd, Hs. subst queue.
  destruct Hfrom as [-> | ->].
  - fire ProviderEventVerifiedData STORAGE_DEAL_WAITING_FOR_DATA.
    unfold CALLBACK_ACTION.
    rewrite (onProviderEventVerifiedData_eq _ _ _ _ _ d) by exact Hd.
    rewrite Hfunds.
    fire ProviderEventNodeErrored STORAGE_DEAL_ENSURE_PROVIDER_FUNDS.
    rewrite fsm_run_empty by reflexivity.
    split; [reflexivity|]. split; [apply lookup_insert_eq|].
    split; [deals_lookup; by rewrite Hd|entered_list].
  - fire ProviderEventVerifiedData STORAGE_DEAL_VERIFY_DATA.
    unfold CALLBACK_ACTION.
    rewrite (onProviderEventVerifiedData_eq _ _ _ _ _ d) by exact Hd.
    rewrite Hfunds.
    fire ProviderEventNodeErrored STORAGE_DEAL_ENSURE_PROVIDER_FUNDS.
    rewrite fsm_run_empty by reflexivity.
    split; [reflexivity|]. split; [apply lookup_insert_eq|].
    split; [deals_lookup; by rewrite Hd|entered_list].
Qed.

Lemma verified_data_transition s :
  s = STORAGE_DEAL_WAITING_FOR_DATA \/ s = STORAGE_DEAL_VERIFY_DATA ->
  fsm_transition api_ ProviderEventVerifiedData s
  = Some {| event := ProviderEventVerifiedData;
            from_states :=
              [STORAGE_DEAL_VERIFY_DATA; STORAGE_DEAL_WAITING_FOR_DATA];
            to_state := STORAGE_DEAL_ENSURE_PROVIDER_FUNDS;
            action := CALLBACK_ACTION "onProviderEventVerifiedData"
                        (onProviderEventVerifiedData api_) |}.
Proof. by intros [-> | ->]. Qed.

(** X29. Data imported for a deal that waits for it (or is in [verify_data]),
    when [ensureFunds] answers: eight turns of the FSM take the deal through
    [ensure_provider_funds], [provider_funding], [publish], [publishing],
    [staged], [sealing] and [active] to [completed], each handler sending
    the event of the next step; [add_funds_cid] is set when a funding message
    was sent and kept otherwise. *)
Theorem import_runs_to_completed cid data p d size s funds n :
  fsm_queue p = [] ->
  local_deals_ p !! cid = Some d ->
  fsm_states p !! cid = Some s ->
  s = STORAGE_DEAL_WAITING_FOR_DATA \/ s = STORAGE_DEAL_VERIFY_DATA ->
  generatePieceCommitment piece_io_ registered_proof_ data
  = success
      (DealProposal.piece_cid
         (ClientDealProposal.proposal (MinerDeal.client_deal_proposal d)),
       size) ->
  ensureFunds api_ d = success funds ->
  8 <= n ->
  let out := importDataForDeal piece_io_ registered_proof_ cid data p in
  let p' := fsm_run api_ n out.2 in
  out.1 = success tt
  /\ fsm_queue p' = []
  /\ fsm_states p' !! cid = Some STORAGE_DEAL_COMPLETED
  /\ local_deals_ p' !! cid
     = Some (MinerDeal.set_state STORAGE_DEAL_COMPLETED
               match funds with
               | Some message => MinerDeal.set_add_funds_cid (Some message) d
               | None => d
               end)
  /\ states_entered cid p'
     = states_entered cid p
       ++ [STORAGE_DEAL_ENSURE_PROVIDER_FUNDS; STORAGE_DEAL_PROVIDER_FUNDING;
           STORAGE_DEAL_PUBLISH; STORAGE_DEAL_PUBLISHING; STORAGE_DEAL_STAGED;
           STORAGE_DEAL_SEALING; STORAGE_DEAL_ACTIVE; STORAGE_DEAL_COMPLETED].
Proof.
  intros Hq Hd Hs Hfrom Hgen Hfunds Hn. cbv zeta.
  rewrite (importDataForDeal_sends cid data p d size Hd Hgen). cbn [fst snd].
  split; [done|].
  do 8 (destruct n as [|n]; [lia|]). clear Hn.
  destruct p as [deals states queue logger ent].
  cbn [fsm_queue local_deals_ fsm_states] in Hq, Hd, Hs. subst queue.
  erewrite (fsm_run_fires _ _ _ _ _ _ _ (verified_data_transition s Hfrom));
    [|reflexivity|exact Hs].
  cbn [action to_state]. unfold CALLBACK_ACTION.
  rewrite (onProviderEventVerifiedData_eq _ _ _ _ _ d) by exact Hd.
  rewrite Hfunds.
  destruct funds as [message|].
  all: fire ProviderEventFundingInitiated STORAGE_DEAL_ENSURE_PROVIDER_FUNDS.
  all: fire ProviderEventFunded STORAGE_DEAL_PROVIDER_FUNDING.
  all: fire ProviderEventDealPublishInitiated STORAGE_DEAL_PUBLISH.
  all: fire ProviderEventDealPublished STORAGE_DEAL_PUBLISHING.
  all: fire ProviderEventDealHandedOff STORAGE_DEAL_STAGED.
  all: fire ProviderEventDealActivated STORAGE_DEAL_SEALING.
  all: fire ProviderEventDealCompleted STORAGE_DEAL_ACTIVE.
  all: rewrite fsm_run_empty by reflexivity.
  all: split; [reflexivity|]; split; [apply lookup_insert_eq|].
  all: split; [deals_lookup; by rewrite Hd|entered_list].
Qed.

End Paths.

End ProviderMoreFacts.

Module ProviderMoreRuns.

Import Provider ProviderMore ProviderMoreFacts ProviderScenario.

Lemma action_sets_deal_state_witness :
  let p := handleDealStream (proposal 2048%N 1000%N) proposal_cid
             "miner-peer" "client-peer" Provider.empty in
  let p' := CALLBACK_ACTION "onProviderEventOpen" onProviderEventOpen
              proposal_cid ProviderEventOpen STORAGE_DEAL_UNKNOWN
              STORAGE_DEAL_VALIDATING p in
  deal_state proposal_cid p' = Some STORAGE_DEAL_VALIDATING
  /\ fsm_states p' = fsm_states p.
Proof.
  cbv zeta.
  destruct (action_sets_deal_state api_funded
              {| event := ProviderEventOpen;
                 from_states := from STORAGE_DEAL_UNKNOWN;
                 to_state := STORAGE_DEAL_VALIDATING;
                 action := CALLBACK_ACTION "onProviderEventOpen"
                             onProviderEventOpen |}
              proposal_cid ProviderEventOpen STORAGE_DEAL_UNKNOWN
              STORAGE_DEAL_VALIDATING
              (handleDealStream (proposal 2048%N 1000%N) proposal_cid
                 "miner-peer" "client-peer" Provider.empty)
              (new_deal (proposal 2048%N 1000%N) proposal_cid "miner-peer"
                 "client-peer"))
    as ((d' & Hd' & Hstate & _) & _ & Hstates).
  - apply list_elem_of_here.
  - vm_compute. reflexivity.
  - cbn [action] in *. split; [|exact Hstates].
    unfold deal_state. rewrite Hd'. cbn. by rewrite Hstate.
Defined.

Lemma action_sends_one_followed_event_witness :
  let p := handleDealStream (proposal 2048%N 1000%N) proposal_cid
             "miner-peer" "client-peer" Provider.empty in
  let p' := CALLBACK_ACTION "onProviderEventOpen" onProviderEventOpen
              proposal_cid ProviderEventOpen STORAGE_DEAL_UNKNOWN
              STORAGE_DEAL_VALIDATING p in
  fsm_queue p' = fsm_queue p
  \/ exists e' tr',
       fsm_queue p' = fsm_queue p ++ [(proposal_cid, e')]
       /\ fsm_transition api_funded e' STORAGE_DEAL_VALIDATING = Some tr'.
Proof.
  apply (action_sends_one_followed_event api_funded
           {| event := ProviderEventOpen;
              from_states := from STORAGE_DEAL_UNKNOWN;
              to_state := STORAGE_DEAL_VALIDATING;
              action := CALLBACK_ACTION "onProviderEventOpen"
                          onProviderEventOpen |}).
  apply list_elem_of_here.
Defined.

Lemma deal_state_mirrors_fsm_witness :
  in_sync (fsm_run api_funded 10
             (handleDealStream (proposal 2048%N 1000%N) proposal_cid
                "miner-peer" "client-peer" Provider.empty)).
Proof.
  destruct (deal_state_mirrors_fsm api_funded piece_io StackedDRG2KiBSeal)
    as (Hempty & Hstream & _ & Hrun).
  apply Hrun, Hstream, Hempty.
Defined.

Lemma fsm_run_quiesces_witness :
  let p := handleDealStream (proposal 2048%N 1000%N) proposal_cid
             "miner-peer" "client-peer" Provider.empty in
  fsm_queue (fsm_run api_funded 8 p) = []
  /\ fsm_run api_funded 8 p = fsm_run api_funded (8 * length (fsm_queue p)) p.
Proof.
  apply (fsm_run_quiesces api_funded
           (handleDealStream (proposal 2048%N 1000%N) proposal_cid
              "miner-peer" "client-peer" Provider.empty) 8).
  vm_compute. lia.
Defined.

Lemma handleDealStream_run_witness :
  let p' := fsm_run api_funded 3
              (handleDealStream (proposal 2048%N 1000%N) proposal_cid
                 "miner-peer" "client-peer" Provider.empty) in
  fsm_queue p' = []
  /\ deal_state proposal_cid p' = Some STORAGE_DEAL_WAITING_FOR_DATA.
Proof.
  destruct (handleDealStream_run api_funded (proposal 2048%N 1000%N)
              proposal_cid "miner-peer" "client-peer" Provider.empty 3)
    as (Hq & _ & Hstate & _).
  - reflexivity.
  - lia.
  - split; [exact Hq|exact Hstate].
Defined.

(** The data of the deal arrives while the node cannot be asked for the
    funds. *)
Lemma import_with_node_error_fails_deal_witness :
  let down := api (failure (ForeignError "api" 1)) in
  let out :=
    importDataForDeal piece_io StackedDRG2KiBSeal proposal_cid [Byte.x01]
      (waiting down) in
  out.1 = success tt
  /\ fsm_queue (fsm_run down 5 out.2) = []
  /\ fsm_states (fsm_run down 5 out.2) !! proposal_cid
     = Some STORAGE_DEAL_FAILING.
Proof.
  cbv zeta.
  edestruct (import_with_node_error_fails_deal
               (api (failure (ForeignError "api" 1))) piece_io
               StackedDRG2KiBSeal proposal_cid [Byte.x01]
               (waiting (api (failure (ForeignError "api" 1)))))
    as (Hout & Hq & Hstate & _).
  - vm_compute. reflexivity.
  - vm_compute. reflexivity.
  - vm_compute. reflexivity.
  - left. reflexivity.
  - vm_compute. reflexivity.
  - vm_compute. reflexivity.
  - instantiate (1 := 5). lia.
  - split; [exact Hout|]. split; [exact Hq|exact Hstate].
Defined.

Lemma import_runs_to_completed_witness :
  let out :=
    importDataForDeal piece_io StackedDRG2KiBSeal proposal_cid [Byte.x01]
      (waiting api_funding) in
  out.1 = success tt
  /\ fsm_queue (fsm_run api_funding 8 out.2) = []
  /\ fsm_states (fsm_run api_funding 8 out.2) !! proposal_cid
     = Some STORAGE_DEAL_COMPLETED.
Proof.
  cbv zeta.
  edestruct (import_runs_to_completed api_funding piece_io
               StackedDRG2KiBSeal proposal_cid [Byte.x01]
               (waiting api_funding))
    as (Hout & Hq & Hstate & _).
  - vm_compute. reflexivity.
  - vm_compute. reflexivity.
  - vm_compute. reflexivity.
  - left. reflexivity.
  - vm_compute. reflexivity.
  - vm_compute. reflexivity.
  - instantiate (1 := 8). lia.
  - split; [exact Hout|]. split; [exact Hq|exact Hstate].
Defined.

End ProviderMoreRuns.
